(** * solid_dmft: the DMFT self-consistency engine

    A shallow embedding of the orchestration code of solid_dmft
    ([dmft_cycle.py] and [dmft_tools/initial_self_energies.py]) and the
    properties of its natural-language specification that concern it.

    Python values are embedded as follows: exceptions become the [Raise]
    branch of [result]; dicts whose order matters are association lists,
    the parameter dicts are [gmap string _]; numpy arrays are lists of rows
    over an abstract scalar type; objects that are mutated in place and may
    be shared (the density matrices) live in an explicit store. *)

From Stdlib Require Import ZArith QArith Qabs List String Ascii Bool Lia.
From stdpp Require Import base option list gmap strings sorting.

Local Open Scope string_scope.
Local Open Scope list_scope.
Local Open Scope nat_scope.

(** ** Python exceptions *)

Module Py.

Inductive exn : Type :=
| IndexError | ValueError | KeyError | TypeError | ZeroDivisionError
| AssertionError | UnboundLocalError | NotImplementedError.

Inductive result (A : Type) : Type :=
| Ok (a : A)
| Raise (e : exn).
Arguments Ok {A} a.
Arguments Raise {A} e.

#[export] Instance result_ret : MRet result := fun _ a => Ok a.
#[export] Instance result_bind : MBind result :=
  fun _ _ f r => match r with Ok a => f a | Raise e => Raise e end.

Definition raises {A} (r : result A) : Prop := exists e, r = Raise e.
Definition returns {A} (r : result A) : Prop := exists a, r = Ok a.

(** [l[i]] for a non-negative index. *)
Definition getitem {A} (l : list A) (i : nat) : result A :=
  match l !! i with Some a => Ok a | None => Raise IndexError end.

(** [for x in xs: acc = body(acc, x)], stopping at the first exception. *)
Fixpoint for_each {A S} (xs : list A) (body : S -> A -> result S) (s : S)
  : result S :=
  match xs with
  | [] => Ok s
  | x :: xs' => s' ← body s x; for_each xs' body s'
  end.

(** [[f(x) for x in xs]] where [f] may raise. *)
Fixpoint comprehension {A B} (f : A -> result B) (xs : list A)
  : result (list B) :=
  match xs with
  | [] => Ok []
  | x :: xs' => y ← f x; ys ← comprehension f xs'; Ok (y :: ys)
  end.

(** [sub in s] on strings. *)
Fixpoint str_in (sub s : string) : bool :=
  String.prefix sub s ||
  match s with
  | EmptyString => false
  | String _ s' => str_in sub s'
  end.

(** [x in xs] on a list of strings. *)
Definition str_in_list (x : string) (xs : list string) : bool :=
  existsb (String.eqb x) xs.

(** [any(s is not None for s in xs)] *)
Definition any_not_none {A} (xs : list (option A)) : bool :=
  existsb (fun s => match s with Some _ => true | None => false end) xs.

(** [[i for i, x in enumerate(xs) if p(x)]] *)
Definition indices_where {A} (p : A -> bool) (xs : list A) : list nat :=
  map fst (List.filter (fun ix => p (snd ix)) (imap pair xs)).

End Py.
Import Py.

(** ** dmft_cycle.py *)

Module DmftCycle.

(** *** [_extract_quantity_per_inequiv] *)

Section PerImpurityParameters.
(** Every value that is not a Python list ([None], numbers, strings,
    dicts) is an atom; [isinstance(param, list)] tells the two apart. *)
Context {A : Type}.

#[warnings="-register-all"]
Inductive pyval : Type :=
| Atom (a : A)
| PyList (l : list pyval).

Definition _extract_quantity_per_inequiv (param_name : string)
    (n_inequiv_shells : nat) (general_params : gmap string pyval)
  : result (gmap string pyval) :=
  match general_params !! param_name with
  | None => Raise KeyError
  | Some (Atom a) =>
      Ok (<[param_name := PyList (replicate n_inequiv_shells (Atom a))]>
            general_params)
  | Some (PyList param) =>
      if Nat.eqb (length param) n_inequiv_shells then Ok general_params
      else Raise IndexError
  end.

(** The two loops of [dmft_cycle] that run the expansion over the
    impurity-dependent keys of the general and of the advanced
    parameters. *)
Definition general_keys : list string :=
  ["U"; "J"; "U_prime"; "ratio_F4_F2"; "h_int_type"; "enforce_off_diag";
   "dc_type"].
Definition advanced_keys : list string :=
  ["dc_U"; "dc_J"; "dc_fixed_occ"; "map_solver_struct";
   "pick_solver_struct"; "mapped_solver_struct_degeneracies"].

Definition extract_keys (keys : list string) (n_inequiv_shells : nat)
    (params : gmap string pyval) : result (gmap string pyval) :=
  for_each keys
    (fun params key =>
       _extract_quantity_per_inequiv key n_inequiv_shells params)
    params.
End PerImpurityParameters.
Arguments pyval A : clear implicits.

(** *** [_determine_block_structure] *)

Section DetermineBlockStructure.
(** What the function only hands on to the lattice embedding stays
    abstract: [G] is the block partition with its mappings, [D] the
    reference density matrices, [T] the threshold, [P] and [M] the manual
    selections and mappings of a site. *)
Context {G D T P M : Type}.

(** The degeneracy groups of a site: a list of groups of block labels.
    An entry of [mapped_solver_struct_degeneracies] may be [None]. *)
Definition deg_site : Type := option (list (list string)).

Record BlockStructure : Type := {
  gf_struct_solver : G;
  deg_shells : list deg_site
}.

Record SumkDFT : Type := {
  SO : nat;
  n_inequiv_shells : nat;
  block_structure : BlockStructure
}.

Record general_params : Type := {
  magnetic : bool;
  block_threshold : T;
  enforce_off_diag : list bool
}.

Record advanced_params : Type := {
  pick_solver_struct : list (option P);
  map_solver_struct : list (option M);
  mapped_solver_struct_degeneracies : list deg_site
}.

(** The collaborators, as functions to the block structure they leave. *)
Variable analyse_block_structure :
  SumkDFT -> D -> T -> list nat -> BlockStructure.
Variable pick_gf_struct_solver :
  BlockStructure -> list (option P) -> BlockStructure.
Variable map_gf_struct_solver :
  BlockStructure -> list (option M) -> BlockStructure.

Definition set_block_structure (sum_k : SumkDFT) (bs : BlockStructure)
  : SumkDFT :=
  {| SO := SO sum_k; n_inequiv_shells := n_inequiv_shells sum_k;
     block_structure := bs |}.

Definition set_deg_shells (sum_k : SumkDFT) (ds : list deg_site) : SumkDFT :=
  set_block_structure sum_k
    {| gf_struct_solver := gf_struct_solver (block_structure sum_k);
       deg_shells := ds |}.

(** The body of [for deg_orbs in deg_shells_site]: the groups that one
    group leaves, one per spin with more than one label of that spin. *)
Definition lift_spin_degeneracy (deg_orbs : list string)
  : list (list string) :=
  flat_map
    (fun spin =>
       let deg := List.filter (fun orb => str_in spin orb) deg_orbs in
       if 1 <? length deg then [deg] else [])
    ["up"; "down"].

Definition deg_shell_mag (deg_shells_site : deg_site) : result deg_site :=
  match deg_shells_site with
  | None => Raise TypeError
  | Some groups => Ok (Some (flat_map lift_spin_degeneracy groups))
  end.

Definition _determine_block_structure (sum_k : SumkDFT)
    (general_params : general_params) (advanced_params : advanced_params)
    (solver_type_per_imp : list string) (dens_mat : D)
  : result (SumkDFT * option (list (option deg_site))) :=
  let threshold := block_threshold general_params in
  (* spin degeneracies if not spin-orbit coupled *)
  let sum_k :=
    if SO sum_k =? 0 then
      set_deg_shells sum_k
        (replicate (n_inequiv_shells sum_k) (Some [["up_0"; "down_0"]]))
    else sum_k in
  (* degeneracies for ftps, on a deep copy of sum_k *)
  let imp_ftps := indices_where (String.eqb "ftps") solver_type_per_imp in
  deg_orbs_ftps ←
    match imp_ftps with
    | _ :: _ =>
        let mock_sumk :=
          analyse_block_structure sum_k dens_mat threshold imp_ftps in
        l ← comprehension
              (fun icrsh =>
                 if existsb (Nat.eqb icrsh) imp_ftps
                 then d ← getitem (deg_shells mock_sumk) icrsh; Ok (Some d)
                 else Ok None)
              (seq 0 (n_inequiv_shells sum_k));
        Ok (Some l)
    | [] => Ok None
    end;
  let imp_to_analyze :=
    indices_where negb (enforce_off_diag general_params) in
  let sum_k :=
    set_block_structure sum_k
      (analyse_block_structure sum_k dens_mat threshold imp_to_analyze) in
  (* manual selection; the report reads [icrsh], which is not bound yet *)
  sum_k ←
    (if any_not_none (pick_solver_struct advanced_params)
     then Raise UnboundLocalError
     else Ok sum_k);
  (* manual mapping *)
  let sum_k :=
    if any_not_none (map_solver_struct advanced_params) then
      let sum_k :=
        set_block_structure sum_k
          (map_gf_struct_solver (block_structure sum_k)
             (map_solver_struct advanced_params)) in
      if any_not_none (mapped_solver_struct_degeneracies advanced_params)
      then set_deg_shells sum_k
             (mapped_solver_struct_degeneracies advanced_params)
      else sum_k
    else sum_k in
  sum_k ←
    (if magnetic general_params && (SO sum_k =? 0) then
       ds ← comprehension deg_shell_mag
              (deg_shells (block_structure sum_k));
       Ok (set_deg_shells sum_k ds)
     else if SO sum_k =? 1 then
       Ok (set_deg_shells sum_k (replicate (n_inequiv_shells sum_k) (Some [])))
     else Ok sum_k);
  Ok (sum_k, deg_orbs_ftps).

End DetermineBlockStructure.
Arguments BlockStructure G : clear implicits.
Arguments SumkDFT G : clear implicits.
Arguments general_params T : clear implicits.
Arguments advanced_params P M : clear implicits.

(** *** [_dmft_step] and the loops of [dmft_cycle] *)

Section SelfConsistencyLoop.
(** [St] is everything an iteration works on (the lattice model, the
    solvers, the archive, the observables); [iterate] is the body of
    [_dmft_step] up to the convergence check, where that body returns;
    [check_convergence] is [convergence.check_convergence] on the state
    it leaves. *)
Context {St : Type}.
Variable iterate : St -> nat -> bool -> St.
Variable check_convergence : St -> option bool.

Definition _dmft_step (st : St) (it : nat) (is_converged is_sampling : bool)
  : St * bool :=
  let st := iterate st it is_sampling in
  let is_now_converged := check_convergence st in
  let is_converged :=
    match is_now_converged with
    | None => false
    | Some is_now_converged => is_converged || is_now_converged
    end in
  (st, is_converged).

(** Where the body of [_dmft_step] does not return: [step_raises] is the
    exception that the step raises on a state, if it raises one (a solver
    that fails, an index out of range, the call of
    [calculate_double_counting] that lacks an argument). *)
Variable step_raises : St -> nat -> bool -> option exn.

(** The run of iterations: the iterations started, in order, each with
    its [is_sampling] flag. *)
Definition trace : Type := list (nat * bool).

(** [for it in range(it, it + n): ... if is_converged: break]; returns the
    last value of [it] as well. An iteration that raises ends the loop
    with its exception. *)
Fixpoint main_loop (n : nat) (it : nat) (st : St) (is_converged : bool)
    (tr : trace) : trace * result (St * bool * nat) :=
  match n with
  | 0 => (tr, Ok (st, is_converged, it - 1))
  | S n' =>
      let tr' := tr ++ [(it, false)] in
      match step_raises st it false with
      | Some e => (tr', Raise e)
      | None =>
          let '(st', is_converged') := _dmft_step st it is_converged false in
          if is_converged' then (tr', Ok (st', is_converged', it))
          else main_loop n' (S it) st' is_converged' tr'
      end
  end.

(** The sampling loop: [is_converged=True] goes in, the flag that comes
    back is dropped. *)
Fixpoint sampling_loop (n : nat) (it : nat) (st : St) (tr : trace)
  : trace * result St :=
  match n with
  | 0 => (tr, Ok st)
  | S n' =>
      let tr' := tr ++ [(it, true)] in
      match step_raises st it true with
      | Some e => (tr', Raise e)
      | None =>
          let '(st', _) := _dmft_step st it true true in
          sampling_loop n' (S it) st' tr'
      end
  end.

(** The control skeleton of [dmft_cycle]: the expansion of the
    impurity-dependent parameters, the iterations, the sampling. The
    iterations that were started are returned next to the result. *)
Definition dmft_cycle {A : Type} (n_inequiv_shells : nat)
    (general_params advanced_params : gmap string (pyval A))
    (sampling_iterations n_iter iteration_offset : nat) (st : St)
  : trace * result (bool * St) :=
  match extract_keys general_keys n_inequiv_shells general_params with
  | Raise e => ([], Raise e)
  | Ok general_params =>
      match extract_keys advanced_keys n_inequiv_shells advanced_params with
      | Raise e => ([], Raise e)
      | Ok advanced_params =>
          match main_loop n_iter (iteration_offset + 1) st false [] with
          | (tr, Raise e) => (tr, Raise e)
          | (tr, Ok (st, is_converged, it)) =>
              if is_converged && (0 <? sampling_iterations) then
                match sampling_loop sampling_iterations (it + 1) st tr with
                | (tr, Raise e) => (tr, Raise e)
                | (tr, Ok st) => (tr, Ok (is_converged, st))
                end
              else (tr, Ok (is_converged, st))
          end
      end
  end.

End SelfConsistencyLoop.

(** A label of the spin-up, or of the spin-down, channel, as the code
    tells them: by the substring. *)
Definition up_label (l : string) : Prop := str_in "up" l = true.
Definition down_label (l : string) : Prop := str_in "down" l = true.

End DmftCycle.

(** ** numpy arrays, dicts and the object store *)

Module Numpy.

(** The scalars of the arrays. Nothing is assumed of the operations, so
    what is proved of the code holds for floating-point numbers as for
    exact ones. [sclose a b] is [abs(a - b) <= 1e-4], the test of
    [np.allclose(a, b, atol=1e-4, rtol=0)] on one entry. *)
Class Scalar (R : Type) : Type := {
  szero : R;
  sone : R;
  sadd : R -> R -> R;
  ssub : R -> R -> R;
  smul : R -> R -> R;
  sdiv : R -> R -> R;
  sof_nat : nat -> R;
  sreal : R -> R;
  sclose : R -> R -> bool
}.

#[export] Instance Q_scalar : Scalar Q := {
  szero := 0%Q;
  sone := 1%Q;
  sadd := Qplus;
  ssub := Qminus;
  smul := Qmult;
  sdiv := Qdiv;
  sof_nat := fun n => inject_Z (Z.of_nat n);
  sreal := fun q => q;
  sclose := fun a b => Qle_bool (Qabs (a - b)) (1 # 10000)
}.

Section Arrays.
Context {R : Type} `{Scalar R}.

(** A two-dimensional array, as the list of its rows. *)
Definition matrix : Type := list (list R).

Definition nrows (M : matrix) : nat := length M.
Definition ncols (M : matrix) : nat := length (hd [] M).

Definition tabulate {A} (n : nat) (f : nat -> A) : list A := map f (seq 0 n).

(** [np.identity(n)] *)
Definition identity (n : nat) : matrix :=
  tabulate n (fun i => tabulate n (fun j => if i =? j then sone else szero)).

(** [M * c] and [c * M] for a scalar [c] *)
Definition times (M : matrix) (c : R) : matrix := map (map (fun x => smul x c)) M.
Definition scaled (c : R) (M : matrix) : matrix := map (map (smul c)) M.

(** [np.diag(v)] of a one-dimensional [v] *)
Definition diag (v : list R) : matrix :=
  tabulate (length v)
    (fun i => tabulate (length v)
                (fun j => if i =? j then nth i v szero else szero)).

(** [M[i][j]] *)
Definition entry (M : matrix) (i j : nat) : result R :=
  row ← getitem M i; getitem row j.

(** [np.trace(M.real)] *)
Definition diagonal (M : matrix) : list R :=
  omap (fun x => x) (imap (fun i (row : list R) => row !! i) M).
Definition trace_real (M : matrix) : R :=
  fold_left sadd (map sreal (diagonal M)) szero.

(** [np.fill_diagonal(M, v)] *)
Definition fill_diagonal (M : matrix) (v : R) : matrix :=
  imap (fun i (row : list R) => <[i := v]> row) M.

(** Broadcasting of two shapes along one axis, and the entry that a
    broadcast array shows at [(i, j)]. *)
Definition broadcast_dim (a b : nat) : option nat :=
  if a =? b then Some a
  else if a =? 1 then Some b
  else if b =? 1 then Some a
  else None.

Definition broadcast_entry (M : matrix) (i j : nat) : R :=
  nth (if ncols M =? 1 then 0 else j)
      (nth (if nrows M =? 1 then 0 else i) M []) szero.

Definition broadcast2 {B} (op : R -> R -> B) (M N : matrix)
  : result (list (list B)) :=
  match broadcast_dim (nrows M) (nrows N),
        broadcast_dim (ncols M) (ncols N) with
  | Some r, Some c =>
      Ok (tabulate r (fun i => tabulate c (fun j =>
            op (broadcast_entry M i j) (broadcast_entry N i j))))
  | _, _ => Raise ValueError
  end.

(** [M + N], [M - N] and [np.allclose(M, N, atol=1e-4, rtol=0)] *)
Definition np_add : matrix -> matrix -> result matrix := broadcast2 sadd.
Definition np_sub : matrix -> matrix -> result matrix := broadcast2 ssub.
Definition allclose (M N : matrix) : result bool :=
  bs ← broadcast2 sclose M N; Ok (forallb (forallb (fun b => b)) bs).

(** [np.array(rows)] of a list of lists of numbers: a two-dimensional
    array when the rows have one length, an exception when they do not
    (with an older numpy the exception comes at the first [a[i, :]]). *)
Definition np_array (rows : list (list R)) : result matrix :=
  match rows with
  | [] => Ok []
  | r :: rs =>
      if forallb (fun r' => length r' =? length r) rs then Ok rows
      else Raise ValueError
  end.
End Arrays.

(** A Python dict with string keys, in insertion order. *)
Section Dict.
Context {V : Type}.

Definition dict : Type := list (string * V).

Definition keys (d : dict) : list string := map fst d.
Definition values (d : dict) : list V := map snd d.

Fixpoint dict_find (d : dict) (k : string) : option V :=
  match d with
  | [] => None
  | (k', v) :: d' => if String.eqb k k' then Some v else dict_find d' k
  end.

Definition dict_get (d : dict) (k : string) : result V :=
  match dict_find d k with Some v => Ok v | None => Raise KeyError end.

Fixpoint dict_set (d : dict) (k : string) (v : V) : dict :=
  match d with
  | [] => [(k, v)]
  | (k', v') :: d' =>
      if String.eqb k k' then (k', v) :: d' else (k', v') :: dict_set d' k v
  end.
End Dict.
Arguments dict V : clear implicits.

(** [sorted(ks)] on strings, by insertion. *)
Fixpoint insert_sorted (k : string) (ks : list string) : list string :=
  match ks with
  | [] => [k]
  | k' :: ks' =>
      if String.leb k k' then k :: ks else k' :: insert_sorted k ks'
  end.
Definition sorted (ks : list string) : list string :=
  fold_right insert_sorted [] ks.

(** [l[i] = x] *)
Definition setitem {A} (l : list A) (i : nat) (x : A) : result (list A) :=
  if i <? length l then Ok (<[i := x]> l) else Raise IndexError.

(** The store of the arrays that are reached through references, and
    the state of a deep copy: the store and the memo of the copies made. *)
Abbreviation copy_state R := (gmap nat (list (list R)) * gmap nat nat)%type.
Abbreviation store R := (gmap nat (list (list R))).

Section Store.
Context {R : Type}.

Definition loc : Type := nat.

Definition load (h : store R) (l : loc) : @matrix R := default [] (h !! l).

(** A list of dicts of arrays, as the density matrices are, holding the
    arrays by reference; the list and the dicts are never written to. *)
Definition arrays : Type := list (dict loc).

Definition load_dict (h : store R) (d : dict loc) : dict (@matrix R) :=
  map (fun kl => (fst kl, load h (snd kl))) d.

(** [deepcopy]: every array reached is copied once to a fresh location;
    the memo keeps arrays that were shared, shared. *)


Definition copy_array (s : copy_state R) (l : loc) : copy_state R * loc :=
  match snd s !! l with
  | Some l' => (s, l')
  | None =>
      let l' := fresh (dom (fst s)) in
      ((<[l' := load (fst s) l]> (fst s), <[l := l']> (snd s)), l')
  end.

Fixpoint copy_dict (s : copy_state R) (d : dict loc) : copy_state R * dict loc :=
  match d with
  | [] => (s, [])
  | (k, l) :: d' =>
      let '(s1, l') := copy_array s l in
      let '(s2, d'') := copy_dict s1 d' in
      (s2, (k, l') :: d'')
  end.

Fixpoint copy_arrays (s : copy_state R) (ds : arrays) : copy_state R * arrays :=
  match ds with
  | [] => (s, [])
  | d :: ds' =>
      let '(s1, d') := copy_dict s d in
      let '(s2, ds'') := copy_arrays s1 ds' in
      (s2, d' :: ds'')
  end.

Definition deepcopy (h : store R) (ds : arrays) : store R * arrays :=
  let '(s, ds') := copy_arrays (h, ∅) ds in (fst s, ds').

(** [h'] holds every array of [h] as [h] holds it. *)
Definition preserves (h h' : store R) : Prop :=
  forall l, l ∈ dom h -> h' !! l = h !! l.

(** The arrays of [ds] are allocated in [h]. *)
Definition allocated (h : store R) (ds : arrays) : Prop :=
  forall d l, In d ds -> In l (values d) -> l ∈ dom h.

(** No array of [ds] is one of [h]. *)
Definition apart (h : store R) (ds : arrays) : Prop :=
  forall d l, In d ds -> In l (values d) -> l ∉ dom h.

(** The invariant of a deep copy in progress: the arrays of [h] are
    there and unchanged, and every copy made so far is outside [h]. *)
Definition copying (h : store R) (s : copy_state R) : Prop :=
  preserves h (fst s) /\ dom h ⊆ dom (fst s)
  /\ forall l l', snd s !! l = Some l' -> l' ∉ dom h.
End Store.

End Numpy.
Import Numpy.

(** ** dmft_cycle.py: the set-up before the iterations *)

Module DmftCycleSetup.

(** *** The solvers of the impurities *)

(** [sorted(l)] on integers, by insertion. *)
Fixpoint insert_sorted_int (k : Z) (ks : list Z) : list Z :=
  match ks with
  | [] => [k]
  | k' :: ks' =>
      if Z.leb k k' then k :: ks else k' :: insert_sorted_int k ks'
  end.
Definition sorted_ints (ks : list Z) : list Z :=
  fold_right insert_sorted_int [] ks.

(** [list(range(n))] *)
Definition range (n : nat) : list Z := map Z.of_nat (seq 0 n).

(** One entry of [solver_params], as far as [dmft_cycle] and [_chi_setup]
    read it. [measure_chi] is [None] when the key is missing and when its
    value is [None]: the code takes the two together. *)
Record solver : Type := {
  type : string;
  idx_impurities : option (list Z);
  measure_chi : option string
}.

(** [entry['idx_impurities']], iterated over or searched: [None] is not
    iterable. *)
Definition listed (entry : solver) : result (list Z) :=
  match idx_impurities entry with
  | Some idx => Ok idx
  | None => Raise TypeError
  end.

(** [[i for entry in solver_params for i in entry['idx_impurities']]] *)
Definition all_idx_imp (solver_params : list solver) : result (list Z) :=
  idx ← comprehension listed solver_params; Ok (concat idx).

(** [for isolver, entry in enumerate(solver_params):
       if iineq in entry['idx_impurities']: ...; break],
    from [isolver] on; [None] when the loop ends without a [break]. *)
Fixpoint first_solver (iineq : Z) (isolver : nat) (solver_params : list solver)
  : result (option nat) :=
  match solver_params with
  | [] => Ok None
  | entry :: solver_params' =>
      idx ← listed entry;
      if existsb (Z.eqb iineq) idx then Ok (Some isolver)
      else first_solver iineq (S isolver) solver_params'
  end.

(** [len(solver_params) == 1 and solver_params[0]['idx_impurities'] is None] *)
Definition one_solver_for_all (solver_params : list solver) : bool :=
  match solver_params with
  | [entry] =>
      match idx_impurities entry with None => true | Some _ => false end
  | _ => false
  end.

Definition map_imp_solver (n_inequiv_shells : nat)
    (solver_params : list solver) : result (list nat) :=
  if one_solver_for_all solver_params then Ok (replicate n_inequiv_shells 0)
  else
    all_idx_imp ← all_idx_imp solver_params;
    if decide (sorted_ints all_idx_imp <> range n_inequiv_shells)
    then Raise ValueError
    else
      for_each (seq 0 n_inequiv_shells)
        (fun map_imp_solver iineq =>
           found ← first_solver (Z.of_nat iineq) 0 solver_params;
           match found with
           | Some isolver => Ok (map_imp_solver ++ [isolver])
           | None => Ok map_imp_solver
           end)
        [].

Definition solver_type_per_imp (n_inequiv_shells : nat)
    (solver_params : list solver) (map_imp_solver : list nat)
  : result (list string) :=
  comprehension
    (fun iineq =>
       isolver ← getitem map_imp_solver iineq;
       entry ← getitem solver_params isolver;
       Ok (type entry))
    (seq 0 n_inequiv_shells).

(** [[corr_to_inequiv.count(icrsh) for icrsh in range(n_inequiv_shells)]] *)
Definition shell_multiplicity (corr_to_inequiv : list nat)
    (n_inequiv_shells : nat) : list nat :=
  map (fun icrsh => count_occ Nat.eq_dec corr_to_inequiv icrsh)
      (seq 0 n_inequiv_shells).

(** *** [_chi_setup] *)

Section ChiSetup.
(** [Op] is an operator of the impurity; [S_op] and [N_op] build the
    spin and the density operator of impurity [icrsh] with [n_orb]
    orbitals (the spin names and the block mapping they also take are
    those of the impurity). *)
Context {Op : Type}.
Variable S_op : nat -> nat -> Op.
Variable N_op : nat -> nat -> Op.

Definition _chi_setup (n_inequiv_shells : nat) (corr_shells_dim : list nat)
    (solver_params : list solver) (map_imp_solver : list nat)
  : result (list (option Op)) :=
  for_each (seq 0 n_inequiv_shells)
    (fun ops_chi_measure icrsh =>
       isolv ← getitem map_imp_solver icrsh;
       entry ← getitem solver_params isolv;
       match measure_chi entry with
       | None => Ok ops_chi_measure
       | Some chi =>
           n_orb ← getitem corr_shells_dim icrsh;
           if String.eqb chi "SzSz" then
             setitem ops_chi_measure icrsh (Some (S_op icrsh n_orb))
           else if String.eqb chi "NN" then
             setitem ops_chi_measure icrsh (Some (N_op icrsh n_orb))
           else Ok ops_chi_measure
       end)
    (replicate n_inequiv_shells None).
End ChiSetup.

End DmftCycleSetup.

(** ** dmft_tools/initial_self_energies.py *)

Module InitialSelfEnergies.

Section DoubleCounting.
Context {R : Type} `{Scalar R}.
(** [GW] stands for [gw_params] together with [G_loc_all], [Dyn] for the
    frequency-dependent part of a dynamic double counting. *)
Context {GW Dyn : Type}.

(** A value of [general_params['dc_type']]: a number or a name. *)
Inductive dc_tag : Type :=
| DcInt (n : Z)
| DcStr (s : string).

Record corr_shell : Type := {
  dim : nat;
  shell_SO : nat
}.

(** A Green's function or self-energy: the matrix at every mesh point;
    a [BlockGf] holds one per block. *)
Definition gf : Type := list (@matrix R).
Definition BlockGf : Type := dict gf.

Record SumkDFT : Type := {
  n_corr_shells : nat;
  n_inequiv_shells : nat;
  corr_to_inequiv : list nat;
  inequiv_to_corr : list nat;
  corr_shells : list corr_shell;
  dc_imp : list (dict (@matrix R));
  dc_energ : list R;
  dc_imp_dyn : list Dyn;
  Sigma_imp : list BlockGf;
  use_rotations : bool;
  gf_struct_solver : list (dict nat);
  solver_to_sumk : list (list ((string * nat) * (string * nat)))
}.

Record general_params : Type := {
  dc_type : list dc_tag
}.

Record advanced_params : Type := {
  dc_fixed_value : option R;
  dc_fixed_occ : list (option R);
  dc_U : list R;
  dc_J : list R;
  dc_nominal : bool;
  dc_factor : option R;
  dc_orb_shift : option (list R)
}.

(** [sum_k.set_dc(dc_imp, dc_energ)] and the assignments to single
    attributes. *)
Definition set_dc (sum_k : SumkDFT) (dc : list (dict (@matrix R)))
    (en : list R) : SumkDFT :=
  {| n_corr_shells := n_corr_shells sum_k;
     n_inequiv_shells := n_inequiv_shells sum_k;
     corr_to_inequiv := corr_to_inequiv sum_k;
     inequiv_to_corr := inequiv_to_corr sum_k;
     corr_shells := corr_shells sum_k;
     dc_imp := dc;
     dc_energ := en;
     dc_imp_dyn := dc_imp_dyn sum_k;
     Sigma_imp := Sigma_imp sum_k;
     use_rotations := use_rotations sum_k;
     gf_struct_solver := gf_struct_solver sum_k;
     solver_to_sumk := solver_to_sumk sum_k |}.

Definition set_dc_imp (sum_k : SumkDFT) (dc : list (dict (@matrix R)))
  : SumkDFT :=
  set_dc sum_k dc (dc_energ sum_k).

Definition set_dc_imp_dyn (sum_k : SumkDFT) (dyn : list Dyn) : SumkDFT :=
  {| n_corr_shells := n_corr_shells sum_k;
     n_inequiv_shells := n_inequiv_shells sum_k;
     corr_to_inequiv := corr_to_inequiv sum_k;
     inequiv_to_corr := inequiv_to_corr sum_k;
     corr_shells := corr_shells sum_k;
     dc_imp := dc_imp sum_k;
     dc_energ := dc_energ sum_k;
     dc_imp_dyn := dyn;
     Sigma_imp := Sigma_imp sum_k;
     use_rotations := use_rotations sum_k;
     gf_struct_solver := gf_struct_solver sum_k;
     solver_to_sumk := solver_to_sumk sum_k |}.

Definition set_Sigma_imp (sum_k : SumkDFT) (sigma : list BlockGf) : SumkDFT :=
  {| n_corr_shells := n_corr_shells sum_k;
     n_inequiv_shells := n_inequiv_shells sum_k;
     corr_to_inequiv := corr_to_inequiv sum_k;
     inequiv_to_corr := inequiv_to_corr sum_k;
     corr_shells := corr_shells sum_k;
     dc_imp := dc_imp sum_k;
     dc_energ := dc_energ sum_k;
     dc_imp_dyn := dc_imp_dyn sum_k;
     Sigma_imp := sigma;
     use_rotations := use_rotations sum_k;
     gf_struct_solver := gf_struct_solver sum_k;
     solver_to_sumk := solver_to_sumk sum_k |}.

(** *** The lattice embedding's [calc_dc]

    [SumkDFT.calc_dc] belongs to the lattice embedding, which is not
    among the sources. The functionals behind [use_dc_formula] and the
    total occupation [Ncrtot] are parameters. *)
Variable total_density : SumkDFT -> nat -> dict (@matrix R) -> R.
Variable dc_potential :
  SumkDFT -> nat -> dict (@matrix R) -> R -> R -> dc_tag -> string -> R.
Variable dc_energy :
  SumkDFT -> nat -> dict (@matrix R) -> R -> R -> dc_tag -> R.

Inductive dc_rule : Type :=
| UseValue (use_dc_value : R)
| UseFormula (U_interact J_hund : R) (use_dc_formula : dc_tag).

Definition spin_block_names (so : nat) : list string :=
  if so =? 0 then ["up"; "down"] else ["ud"].

(** Modelled from the spec: [SumkDFT.calc_dc], the double-counting
    primitive of the lattice embedding, is missing from the sources. The
    spec has it put out a "potential matrix + scalar energy, written into
    the site's DoubleCounting state". For one correlated shell the model
    writes the potential [identity(dim) * value] to the spin blocks of the
    shell and one energy: with [use_dc_value] the value is the one given
    and the energy is [use_dc_value * Ncrtot]. It raises [IndexError]
    where the shell has no entry in [corr_shells], [dc_imp] or [dc_energ].
    The transformation of the potential to the blocks of the lattice
    ([transform=True]) is left out: the potential is a multiple of the
    identity, which a unitary transformation of the orbitals leaves as
    it is. *)
Definition calc_dc_shell (dens_mat : dict (@matrix R)) (rule : dc_rule)
    (sum_k : SumkDFT) (icrsh : nat) : result SumkDFT :=
  shell ← getitem (corr_shells sum_k) icrsh;
  dc_shell ← getitem (dc_imp sum_k) icrsh;
  let value sp :=
    match rule with
    | UseValue v => v
    | UseFormula U J f => dc_potential sum_k icrsh dens_mat U J f sp
    end in
  let energy :=
    match rule with
    | UseValue v => smul v (total_density sum_k icrsh dens_mat)
    | UseFormula U J f => dc_energy sum_k icrsh dens_mat U J f
    end in
  let blocks :=
    fold_left
      (fun d sp => dict_set d sp (times (identity (dim shell)) (value sp)))
      (spin_block_names (shell_SO shell))
      dc_shell in
  dc_imp' ← setitem (dc_imp sum_k) icrsh blocks;
  dc_energ' ← setitem (dc_energ sum_k) icrsh energy;
  Ok (set_dc sum_k dc_imp' dc_energ').

(** Modelled from the spec: the loop of [SumkDFT.calc_dc] over the
    correlated shells, which takes those of the inequivalent shell
    [orb]. *)
Definition calc_dc (sum_k : SumkDFT) (dens_mat : dict (@matrix R))
    (orb : nat) (rule : dc_rule) : result SumkDFT :=
  for_each (seq 0 (n_corr_shells sum_k))
    (fun s icrsh =>
       ish ← getitem (corr_to_inequiv s) icrsh;
       if ish =? orb then calc_dc_shell dens_mat rule s icrsh else Ok s)
    sum_k.

(** The dynamic-interaction double counting of one impurity (the block
    from the cRPA interaction to [Sig_DC_hartree] and [Sig_DC_iw_dyn]),
    for one of the three variants. *)
Variable crpa_double_counting :
  SumkDFT -> GW -> string -> nat -> dict (@matrix R) * Dyn.

Definition is_crpa (s : string) : bool :=
  str_in_list s ["crpa_static"; "crpa_static_qp"; "crpa_dynamic"].

(** *** [calculate_double_counting], block by block *)

(** [for icrsh in icrsh_hartree: sum_k.calc_dc(..., use_dc_value=0.0)] and
    the like loop for [dc_fixed_value]. *)
Definition calc_dc_value (h : store R) (density_matrix_DC : arrays)
    (shells : list nat) (value : R) (sum_k : SumkDFT) : result SumkDFT :=
  for_each shells
    (fun s icrsh =>
       d ← getitem density_matrix_DC icrsh;
       calc_dc s (load_dict h d) icrsh (UseValue value))
    sum_k.

(** The fixed-occupation override, written into the copied arrays. *)
Definition fix_occupations (sum_k : SumkDFT) (ap : advanced_params)
    (density_matrix_DC : arrays) (icrsh_not_hartree : list nat)
    (h : store R) : result (store R) :=
  for_each icrsh_not_hartree
    (fun h icrsh =>
       occ ← getitem (dc_fixed_occ ap) icrsh;
       match occ with
       | None => Ok h
       | Some occ =>
           shell ← getitem (corr_shells sum_k) icrsh;
           let n_orb := dim shell in
           if n_orb * 2 =? 0 then Raise ZeroDivisionError
           else
             let orb_occ := sdiv occ (sof_nat (n_orb * 2)) in
             d ← getitem density_matrix_DC icrsh;
             Ok (fold_left
                   (fun h inner =>
                      <[inner := fill_diagonal (load h inner) orb_occ]> h)
                   (values d) h)
       end)
    h.

(** The regular way: the double counting from U, J and [dc_type]. *)
Definition base_formula (gw : GW) (gp : general_params)
    (ap : advanced_params) (h : store R) (density_matrix_DC : arrays)
    (icrsh_not_hartree : list nat) (sum_k : SumkDFT) : result SumkDFT :=
  for_each icrsh_not_hartree
    (fun s icrsh =>
       let standard (t : dc_tag) :=
         U ← getitem (dc_U ap) icrsh;
         J ← getitem (dc_J ap) icrsh;
         d ← getitem density_matrix_DC icrsh;
         calc_dc s (load_dict h d) icrsh (UseFormula U J t) in
       t ← getitem (dc_type gp) icrsh;
       match t with
       | DcInt n =>
           if Z.eqb n 3 then
             U ← getitem (dc_U ap) icrsh;
             J ← getitem (dc_J ap) icrsh;
             let Uavg := ssub U J in
             let Javg := smul (sof_nat 2) J in
             d ← getitem density_matrix_DC icrsh;
             calc_dc s (load_dict h d) icrsh
               (UseFormula Uavg Javg (DcInt 0))
           else standard t
       | DcStr v =>
           if is_crpa v then
             let '(Sig_DC_hartree, Sig_DC_iw_dyn) :=
               crpa_double_counting s gw v icrsh in
             dc ← setitem (dc_imp s) icrsh Sig_DC_hartree;
             let s := set_dc_imp s dc in
             if String.eqb v "crpa_dynamic" then
               dyn ← setitem (dc_imp_dyn s) icrsh Sig_DC_iw_dyn;
               Ok (set_dc_imp_dyn s dyn)
             else Ok s
           else standard t
       end)
    sum_k.

(** The nominal double counting: the potential stays, the energy of a
    shell is [n * V_DC] for the occupation [n] of the density matrix that
    was handed in, averaged over the blocks of the shell. *)
Definition true_occupation (h : store R) (d : dict loc) : R :=
  fold_left (fun n_DC value => sadd n_DC (trace_real (load h value)))
            (values d) szero.

Definition nominal_energy (n_DC : R) (dc_shell : dict (@matrix R))
  : result R :=
  e ← for_each dc_shell
        (fun e spin_dc =>
           v ← entry (snd spin_dc) 0 0; Ok (sadd e (smul n_DC v)))
        szero;
  if length dc_shell =? 0 then Raise ZeroDivisionError
  else Ok (sdiv e (sof_nat (length dc_shell))).

Definition nominal_dc (h : store R) (density_matrix : arrays)
    (sum_k : SumkDFT) : result SumkDFT :=
  let dc_imp' := dc_imp sum_k in
  dc_new_en ←
    for_each (seq 0 (n_corr_shells sum_k))
      (fun dc_new_en ish =>
         ineq ← getitem (corr_to_inequiv sum_k) ish;
         d ← getitem density_matrix ineq;
         let n_DC := true_occupation h d in
         dc_new_en ← setitem dc_new_en ish szero;
         dc_shell ← getitem dc_imp' ish;
         e ← nominal_energy n_DC dc_shell;
         setitem dc_new_en ish e)
      (dc_energ sum_k);
  Ok (set_dc sum_k dc_imp' dc_new_en).

(** The rescaling by [dc_factor]. *)
Definition rescale_dc (dc_factor : R) (sum_k : SumkDFT) : SumkDFT :=
  set_dc sum_k
    (map (map (fun spin_dc => (fst spin_dc, scaled dc_factor (snd spin_dc))))
         (dc_imp sum_k))
    (map (smul dc_factor) (dc_energ sum_k)).

(** The orbital-dependent shift. [split_shifts] is the loop that slices
    the shifts off [dc_orb_shift_orig], one slice per impurity. *)
Fixpoint split_shifts (dims : list nat) (dc_orb_shift_orig : list R)
  : list (list R) :=
  match dims with
  | [] => []
  | d :: dims' =>
      firstn d dc_orb_shift_orig
        :: split_shifts dims' (skipn d dc_orb_shift_orig)
  end.

Definition orbital_shift_dc (shifts : list R) (sum_k : SumkDFT)
  : result SumkDFT :=
  dims ← comprehension
           (fun icrsh => shell ← getitem (corr_shells sum_k) icrsh;
                         Ok (dim shell))
           (seq 0 (n_inequiv_shells sum_k));
  dc_orb_shift ← np_array (split_shifts dims shifts);
  dc ← comprehension
         (fun icrsh =>
            shift ← getitem dc_orb_shift icrsh;
            ish ← getitem (inequiv_to_corr sum_k) icrsh;
            dc_shell ← getitem (dc_imp sum_k) ish;
            comprehension
              (fun spin_dc =>
                 m ← np_add (snd spin_dc) (diag shift);
                 Ok (fst spin_dc, m))
              dc_shell)
         (seq 0 (n_inequiv_shells sum_k));
  dc_imp' ← for_each (seq 0 (n_corr_shells sum_k))
              (fun dc_imp' ish =>
                 ineq ← getitem (corr_to_inequiv sum_k) ish;
                 d ← getitem dc ineq;
                 setitem dc_imp' ish d)
              (dc_imp sum_k);
  Ok (set_dc_imp sum_k dc_imp').

(** What follows the base formula, in the order of the source. *)
Definition post_process (ap : advanced_params)
    (solver_type_per_imp : list string) (h : store R)
    (density_matrix : arrays) (sum_k : SumkDFT) : result SumkDFT :=
  sum_k ←
    (if dc_nominal ap then
       if str_in_list "Hartree" solver_type_per_imp
       then Raise NotImplementedError
       else nominal_dc h density_matrix sum_k
     else Ok sum_k);
  let sum_k :=
    match dc_factor ap with
    | Some f => rescale_dc f sum_k
    | None => sum_k
    end in
  match dc_orb_shift ap with
  | Some shifts =>
      if str_in_list "Hartree" solver_type_per_imp
      then Raise NotImplementedError
      else orbital_shift_dc shifts sum_k
  | None => Ok sum_k
  end.

Definition icrsh_hartree (solver_type_per_imp : list string) : list nat :=
  indices_where (fun type => String.eqb type "hartree") solver_type_per_imp.
Definition icrsh_not_hartree (solver_type_per_imp : list string) : list nat :=
  indices_where (fun type => negb (String.eqb type "hartree"))
                solver_type_per_imp.

Definition calculate_double_counting (h : store R) (sum_k : SumkDFT)
    (density_matrix : arrays) (gp : general_params) (gw : GW)
    (ap : advanced_params) (solver_type_per_imp : list string)
  : result (store R * SumkDFT) :=
  (* copy the density matrix to not change it *)
  let '(h, density_matrix_DC) := deepcopy h density_matrix in
  let icrsh_hartree := icrsh_hartree solver_type_per_imp in
  let icrsh_not_hartree := icrsh_not_hartree solver_type_per_imp in
  sum_k ← calc_dc_value h density_matrix_DC icrsh_hartree szero sum_k;
  match dc_fixed_value ap with
  | Some value =>
      sum_k ← calc_dc_value h density_matrix_DC icrsh_not_hartree value sum_k;
      Ok (h, sum_k)
  | None =>
      h ← fix_occupations sum_k ap density_matrix_DC icrsh_not_hartree h;
      sum_k ← base_formula gw gp ap h density_matrix_DC icrsh_not_hartree
                sum_k;
      sum_k ← post_process ap solver_type_per_imp h density_matrix sum_k;
      Ok (h, sum_k)
  end.

(** What the nominal correction is said to do to a call that returns
    [(h', sum_k')]: the base formula runs on the copy of the density
    matrix, with the forced occupations; the potential it leaves is kept;
    the energy of every shell is the sum of the traces of the blocks of
    the density matrix that was handed in, times the potential of the
    shell, averaged over the blocks of the shell; the rescaling and the
    orbital shift follow. *)
Definition nominal_correction (h : store R) (sum_k : SumkDFT)
    (density_matrix : arrays) (gp : general_params) (gw : GW)
    (ap : advanced_params) (solver_type_per_imp : list string)
    (h' : store R) (sum_k' : SumkDFT) : Prop :=
  exists h1 density_matrix_DC s0 s_base dc_new_en,
    deepcopy h density_matrix = (h1, density_matrix_DC)
    /\ calc_dc_value h1 density_matrix_DC
         (icrsh_hartree solver_type_per_imp) szero sum_k = Ok s0
    /\ fix_occupations s0 ap density_matrix_DC
         (icrsh_not_hartree solver_type_per_imp) h1 = Ok h'
    /\ base_formula gw gp ap h' density_matrix_DC
         (icrsh_not_hartree solver_type_per_imp) s0 = Ok s_base
    /\ (forall ish, ish < n_corr_shells s_base ->
          exists ineq d dc_shell vs,
            corr_to_inequiv s_base !! ish = Some ineq
            /\ density_matrix !! ineq = Some d
            /\ dc_imp s_base !! ish = Some dc_shell
            /\ Forall2 (fun spin_dc v => entry (snd spin_dc) 0 0 = Ok v)
                 dc_shell vs
            /\ dc_new_en !! ish
               = Some (sdiv (fold_left
                               (fun e v =>
                                  sadd e
                                    (smul (fold_left
                                             (fun n_DC value =>
                                                sadd n_DC
                                                  (trace_real (load h value)))
                                             (values d) szero)
                                          v))
                               vs szero)
                            (sof_nat (length dc_shell))))
    /\ let s_nom := set_dc s_base (dc_imp s_base) dc_new_en in
       let rescaled :=
         match dc_factor ap with
         | Some f => rescale_dc f s_nom
         | None => s_nom
         end in
       match dc_orb_shift ap with
       | Some shifts => orbital_shift_dc shifts rescaled = Ok sum_k'
       | None => sum_k' = rescaled
       end.

(** *** [_sumk_sigma_to_solver_struct] *)

(** [sum_k.rotloc(icrsh, gf, direction='toLocal')] *)
Variable rotloc_toLocal : SumkDFT -> nat -> gf -> gf.

Definition mesh_size (sigma : BlockGf) : nat :=
  match sigma with
  | (_, g) :: _ => length g
  | [] => 0
  end.

Fixpoint map_find (m : list ((string * nat) * (string * nat)))
    (k : string * nat) : option (string * nat) :=
  match m with
  | [] => None
  | (k', v) :: m' =>
      if String.eqb (fst k) (fst k') && (snd k =? snd k') then Some v
      else map_find m' k
  end.

Definition map_get (m : list ((string * nat) * (string * nat)))
    (k : string * nat) : result (string * nat) :=
  match map_find m k with Some v => Ok v | None => Raise KeyError end.

(** One block of [Sigma_inequiv]: a fresh function on the mesh that
    [Sigma_local[0]] has when the blocks are made, which is before the
    rotation ([Sigma_copy]); every entry [(ind1, ind2)] of it is taken
    from the entry of the lattice-side block of [Sigma_local] that
    [solver_to_sumk] names. *)
Definition solver_block (sum_k : SumkDFT)
    (Sigma_copy Sigma_local : list BlockGf)
    (ish : nat) (block : string) (dim : nat) : result gf :=
  first ← getitem Sigma_copy 0;
  let mesh := mesh_size first in
  sources ←
    comprehension
      (fun ind1 =>
         comprehension
           (fun ind2 =>
              s2s ← getitem (solver_to_sumk sum_k) ish;
              b1 ← map_get s2s (block, ind1);
              b2 ← map_get s2s (block, ind2);
              let block_sumk := fst b2 in
              icrsh ← getitem (inequiv_to_corr sum_k) ish;
              local ← getitem Sigma_local icrsh;
              g ← dict_get local block_sumk;
              Ok (g, snd b1, snd b2))
           (seq 0 dim))
      (seq 0 dim);
  comprehension
    (fun w =>
       comprehension
         (fun row =>
            comprehension
              (fun src : gf * nat * nat =>
                 let '(g, ind1_sumk, ind2_sumk) := src in
                 m ← getitem g w;
                 entry m ind1_sumk ind2_sumk)
              row)
         sources)
    (seq 0 mesh).

Definition _sumk_sigma_to_solver_struct (sum_k : SumkDFT)
    (start_sigma : list BlockGf) : result (list BlockGf) :=
  Sigma_copy ← comprehension (fun icrsh => getitem start_sigma icrsh)
                 (seq 0 (n_corr_shells sum_k));
  (* rotation to the local coordinate system *)
  let Sigma_local :=
    if use_rotations sum_k then
      imap (fun icrsh (sigma : BlockGf) =>
              map (fun bg => (fst bg, rotloc_toLocal sum_k icrsh (snd bg)))
                  sigma)
           Sigma_copy
    else Sigma_copy in
  (* transform to the solver blocks *)
  comprehension
    (fun ish =>
       struct ← getitem (gf_struct_solver sum_k) ish;
       comprehension
         (fun block_dim : string * nat =>
            g ← solver_block sum_k Sigma_copy Sigma_local ish
                  (fst block_dim) (snd block_dim);
            Ok (fst block_dim, g))
         struct)
    (seq 0 (n_inequiv_shells sum_k)).

(** *** The lattice embedding's [put_Sigma] and [add_dc]

    [put_Sigma] is taken by the [Sigma_imp] it leaves (the self-energies
    in the lattice block structure and the global frame), [add_dc] is
    written out: a copy of [Sigma_imp], every block of every correlated
    shell less the double counting of that block, which is rotated to the
    global frame when rotations are used. *)
Variable put_Sigma : SumkDFT -> list BlockGf -> result (list BlockGf).
Variable rotate_dc : SumkDFT -> nat -> @matrix R -> @matrix R.

Definition gf_minus (g : gf) (dccont : @matrix R) : result gf :=
  comprehension (fun m => np_sub m dccont) g.

Definition add_dc (sum_k : SumkDFT) : result (list BlockGf) :=
  for_each (seq 0 (n_corr_shells sum_k))
    (fun sigma_minus_dc icrsh =>
       sigma ← getitem sigma_minus_dc icrsh;
       sigma' ←
         comprehension
           (fun bg : string * gf =>
              dc_shell ← getitem (dc_imp sum_k) icrsh;
              dc ← dict_get dc_shell (fst bg);
              let dccont :=
                if use_rotations sum_k then rotate_dc sum_k icrsh dc
                else dc in
              g ← gf_minus (snd bg) dccont;
              Ok (fst bg, g))
           sigma;
       setitem sigma_minus_dc icrsh sigma')
    (Sigma_imp sum_k).

(** *** [_set_loaded_sigma] *)

Fixpoint strings_eqb (xs ys : list string) : bool :=
  match xs, ys with
  | [], [] => true
  | x :: xs', y :: ys' => String.eqb x y && strings_eqb xs' ys'
  | _, _ => false
  end.

(** [for channel in loaded_dc_shell.keys(): if not np.allclose(...):
    has_double_counting_changed = True; break] *)
Fixpoint channel_changed (channels : list string)
    (loaded_dc_shell calc_dc_shell : dict (@matrix R)) : result bool :=
  match channels with
  | [] => Ok false
  | channel :: channels' =>
      a ← dict_get loaded_dc_shell channel;
      b ← dict_get calc_dc_shell channel;
      c ← allclose a b;
      if (c : bool) then channel_changed channels' loaded_dc_shell calc_dc_shell
      else Ok true
  end.

Definition has_double_counting_changed
    (loaded_dc_imp calc_dc_imp : list (dict (@matrix R))) : result bool :=
  for_each (zip loaded_dc_imp calc_dc_imp)
    (fun changed shells =>
       let '(loaded_dc_shell, calc_dc_shell) := shells in
       if strings_eqb (sorted (keys loaded_dc_shell))
                      (sorted (keys calc_dc_shell))
       then
         c ← channel_changed (keys loaded_dc_shell)
               loaded_dc_shell calc_dc_shell;
         Ok (changed || c)
       else Raise ValueError)
    false.

(** [loaded - calculated], channel by channel. *)
Definition dc_difference
    (calc_dc_imp loaded_dc_imp : list (dict (@matrix R)))
  : result (list (dict (@matrix R))) :=
  comprehension
    (fun shells : dict (@matrix R) * dict (@matrix R) =>
       let '(calc_dc_shell, loaded_dc_shell) := shells in
       comprehension
         (fun channel =>
            a ← dict_get loaded_dc_shell channel;
            b ← dict_get calc_dc_shell channel;
            m ← np_sub a b;
            Ok (channel, m))
         (keys loaded_dc_shell))
    (zip calc_dc_imp loaded_dc_imp).

(** [gf.data[0, 0, 0]] of one block, as the report reads it. *)
Definition first_orbital (sigma : list BlockGf) (block : string)
  : result R :=
  imp0 ← getitem sigma 0;
  g ← dict_get imp0 block;
  m ← getitem g 0;
  entry m 0 0.

Definition gf_zero (g : gf) : gf := map (map (map (fun _ => szero))) g.
Definition zero (sigma : BlockGf) : BlockGf :=
  map (fun bg => (fst bg, gf_zero (snd bg))) sigma.

Definition _set_loaded_sigma (sum_k : SumkDFT) (loaded_sigma : list BlockGf)
    (loaded_dc_imp : list (dict (@matrix R)))
  : result (SumkDFT * list BlockGf) :=
  if negb (length loaded_dc_imp =? length (dc_imp sum_k))
  then Raise ValueError
  else
    changed ← has_double_counting_changed loaded_dc_imp (dc_imp sum_k);
    let start_sigma := loaded_sigma in
    if negb changed then Ok (sum_k, start_sigma)
    else
      (* the add_dc routine subtracts the shift *)
      sigma ← put_Sigma sum_k start_sigma;
      let sum_k := set_Sigma_imp sum_k sigma in
      let calculated_dc_imp := dc_imp sum_k in
      delta ← dc_difference (dc_imp sum_k) loaded_dc_imp;
      let sum_k := set_dc_imp sum_k delta in
      start_sigma ← add_dc sum_k;
      start_sigma ← _sumk_sigma_to_solver_struct sum_k start_sigma;
      (* the report on the corrected shift *)
      imp0 ← getitem loaded_sigma 0;
      first_block ← getitem (sorted (keys imp0)) 0;
      shifted_from ← first_orbital loaded_sigma first_block;
      shifted_to ← first_orbital start_sigma first_block;
      (* clean up *)
      let sum_k := set_dc_imp sum_k calculated_dc_imp in
      let sum_k := set_Sigma_imp sum_k (map zero (Sigma_imp sum_k)) in
      Ok (sum_k, start_sigma).

(** *** What the properties of [_set_loaded_sigma] speak of *)

(** The loaded and the calculated double counting agree: shell by shell
    the same channels, and channel by channel [np.allclose] holds. *)
Definition channels_agree (loaded_dc_shell calc_dc_shell : dict (@matrix R))
  : Prop :=
  forall channel, In channel (keys loaded_dc_shell) ->
    exists a b,
      dict_find loaded_dc_shell channel = Some a
      /\ dict_find calc_dc_shell channel = Some b
      /\ allclose a b = Ok true.

Definition dc_agree (loaded_dc_imp calc_dc_imp : list (dict (@matrix R)))
  : Prop :=
  Forall2
    (fun loaded_dc_shell calc_dc_shell =>
       sorted (keys loaded_dc_shell) = sorted (keys calc_dc_shell)
       /\ channels_agree loaded_dc_shell calc_dc_shell)
    loaded_dc_imp calc_dc_imp.

(** The zeroth orbital of a block of a shell: of a self-energy at a mesh
    point, and of a double counting. *)
Definition orbital0 (sigma : list BlockGf) (ish : nat) (block : string)
    (w : nat) : result R :=
  imp ← getitem sigma ish;
  g ← dict_get imp block;
  m ← getitem g w;
  entry m 0 0.

Definition dc_orbital0 (dc : list (dict (@matrix R))) (icrsh : nat)
    (block : string) : result R :=
  dc_shell ← getitem dc icrsh;
  m ← dict_get dc_shell block;
  entry m 0 0.

(** A block function as the solver sees it: in the local frame. *)
Definition local_frame (sum_k : SumkDFT) (icrsh : nat) (g : gf) : gf :=
  if use_rotations sum_k then rotloc_toLocal sum_k icrsh g else g.

(** The two rotations of the lattice embedding are inverse to each
    other, on a block function [g] of a shell and a double counting
    [dc]: [g] less [dc] rotated to the global frame is, in the local
    frame, [g] in the local frame less [dc]. *)
Definition rotations_cancel (sum_k : SumkDFT) (icrsh : nat) (g : gf)
    (dc : @matrix R) : Prop :=
  forall g' : gf,
    gf_minus g (rotate_dc sum_k icrsh dc) = Ok g' ->
    gf_minus (rotloc_toLocal sum_k icrsh g) dc
    = Ok (rotloc_toLocal sum_k icrsh g').

(** [after] is [before] set to zero in place: the same blocks under the
    same names, every block on the same mesh points, every matrix with
    the same rows of the same lengths, and every entry zero. *)
Definition zeroed (before after : BlockGf) : Prop :=
  Forall2
    (fun bg bg' : string * gf =>
       fst bg' = fst bg
       /\ Forall2
            (fun m m' : @matrix R =>
               Forall2
                 (fun row row' : list R =>
                    length row' = length row
                    /\ Forall (fun x => x = szero) row')
                 m m')
            (snd bg) (snd bg'))
    before after.

End DoubleCounting.

End InitialSelfEnergies.

(** ** Concrete runs *)

Module Examples.
Import DmftCycle.

(** *** dmft_cycle.py *)

(** An iteration that leaves the state alone, with a convergence check
    that never decides and one that decides "not converged". *)
Definition idle (st : unit) (it : nat) (is_sampling : bool) : unit := st.
Definition undecided (st : unit) : option bool := None.
Definition not_converged (st : unit) : option bool := Some false.

(** A step that never raises, and one that raises in the iteration
    [n]. *)
Definition never_raises {St : Type} (st : St) (it : nat)
    (is_sampling : bool) : option exn := None.

(** Parameters of two impurities: a single U, a J per impurity, and a
    [dc_type] list that is too short. *)
Definition two_shell_params : gmap string (pyval Z) :=
  <["U" := Atom 4%Z]>
    (<["J" := PyList [Atom 1%Z; Atom 1%Z]]>
       (<["dc_type" := PyList [Atom 0%Z]]> ∅)).

(** A block structure analysis that finds the two orbitals of either spin
    degenerate, all four in one group. *)
Definition analyse_one_group (sum_k : SumkDFT unit) (dm threshold : unit)
    (include_shells : list nat) : BlockStructure unit :=
  {| gf_struct_solver := tt;
     deg_shells := [Some [["up_0"; "down_0"; "up_1"; "down_1"]]] |}.
Definition map_nothing (bs : BlockStructure unit) (m : list (option unit))
  : BlockStructure unit := bs.

Definition one_shell (so : nat) : SumkDFT unit :=
  {| SO := so; n_inequiv_shells := 1;
     block_structure := {| gf_struct_solver := tt; deg_shells := [] |} |}.
Definition magnetic_run : general_params unit :=
  {| magnetic := true; block_threshold := tt; enforce_off_diag := [false] |}.
Definition no_manual_struct : advanced_params unit unit :=
  {| pick_solver_struct := [None]; map_solver_struct := [None];
     mapped_solver_struct_degeneracies := [None] |}.

(** A manual mapping whose degeneracies tie the label 'up_0' to a label
    that contains 'up' and 'down'. *)
Definition mapped_mixed_labels : advanced_params unit unit :=
  {| pick_solver_struct := [None]; map_solver_struct := [Some tt];
     mapped_solver_struct_degeneracies := [Some [["up_0"; "updown_1"]]] |}.

(** *** initial_self_energies.py *)
Import InitialSelfEnergies.

(** The functional of the lattice embedding, for the runs below: unit
    occupation, the potential U, the energy 7; no cRPA data. *)
Definition unit_density (sum_k : @SumkDFT Q unit) (icrsh : nat)
    (dens_mat : dict (@matrix Q)) : Q := 1%Q.
Definition potential_U (sum_k : @SumkDFT Q unit) (icrsh : nat)
    (dens_mat : dict (@matrix Q)) (U J : Q) (f : dc_tag) (sp : string) : Q :=
  U.
Definition energy_7 (sum_k : @SumkDFT Q unit) (icrsh : nat)
    (dens_mat : dict (@matrix Q)) (U J : Q) (f : dc_tag) : Q := 7%Q.
Definition no_crpa (sum_k : @SumkDFT Q unit) (gw : unit) (variant : string)
    (icrsh : nat) : dict (@matrix Q) * unit := ([], tt).

(** One impurity with one orbital. *)
Definition one_orbital : @SumkDFT Q unit :=
  {| n_corr_shells := 1; n_inequiv_shells := 1;
     corr_to_inequiv := [0]; inequiv_to_corr := [0];
     corr_shells := [{| dim := 1; shell_SO := 0 |}];
     dc_imp := [[("up", [[1%Q]]); ("down", [[1%Q]])]];
     dc_energ := [0%Q]; dc_imp_dyn := []; Sigma_imp := [];
     use_rotations := false;
     gf_struct_solver := [[("up_0", 1); ("down_0", 1)]];
     solver_to_sumk :=
       [[(("up_0", 0), ("up", 0)); (("down_0", 0), ("down", 0))]] |}.

(** Its density matrix: half an electron per spin, in the arrays 0, 1. *)
Definition half_filled_store : store Q :=
  <[0 := [[(1 # 2)%Q]]]> (<[1 := [[(1 # 2)%Q]]]> ∅).
Definition half_filled : arrays := [[("up_0", 0); ("down_0", 1)]].

Definition fll : general_params := {| dc_type := [DcInt 0] |}.

Definition plain : @advanced_params Q :=
  {| dc_fixed_value := None; dc_fixed_occ := [None];
     dc_U := [4%Q]; dc_J := [1%Q];
     dc_nominal := false; dc_factor := None; dc_orb_shift := None |}.

Definition with_orb_shift (shifts : list Q) : @advanced_params Q :=
  {| dc_fixed_value := None; dc_fixed_occ := [None];
     dc_U := [4%Q]; dc_J := [1%Q];
     dc_nominal := false; dc_factor := None; dc_orb_shift := Some shifts |}.

Definition nominal : @advanced_params Q :=
  {| dc_fixed_value := None; dc_fixed_occ := [Some 2%Q];
     dc_U := [4%Q]; dc_J := [1%Q];
     dc_nominal := true; dc_factor := Some 2%Q; dc_orb_shift := None |}.

Definition double_counting (sum_k : @SumkDFT Q unit) (h : store Q)
    (dm : arrays) (gp : general_params) (ap : @advanced_params Q)
    (solver_type_per_imp : list string)
  : result (store Q * @SumkDFT Q unit) :=
  calculate_double_counting unit_density potential_U energy_7 no_crpa
    h sum_k dm gp tt ap solver_type_per_imp.

(** Two impurities, with one and with two orbitals. *)
Definition two_impurities : @SumkDFT Q unit :=
  {| n_corr_shells := 2; n_inequiv_shells := 2;
     corr_to_inequiv := [0; 1]; inequiv_to_corr := [0; 1];
     corr_shells := [{| dim := 1; shell_SO := 0 |};
                     {| dim := 2; shell_SO := 0 |}];
     dc_imp := [[("up", [[0%Q]]); ("down", [[0%Q]])];
                [("up", [[0%Q; 0%Q]; [0%Q; 0%Q]]);
                 ("down", [[0%Q; 0%Q]; [0%Q; 0%Q]])]];
     dc_energ := [0%Q; 0%Q]; dc_imp_dyn := []; Sigma_imp := [];
     use_rotations := false;
     gf_struct_solver := [[("up_0", 1); ("down_0", 1)];
                          [("up_0", 2); ("down_0", 2)]];
     solver_to_sumk := [] |}.
Definition two_impurities_store : store Q :=
  <[0 := [[(1 # 2)%Q]]]>
    (<[1 := [[(1 # 2)%Q]]]>
       (<[2 := [[(1 # 2)%Q; 0%Q]; [0%Q; (1 # 2)%Q]]]>
          (<[3 := [[(1 # 2)%Q; 0%Q]; [0%Q; (1 # 2)%Q]]]> ∅))).
Definition two_impurities_density : arrays :=
  [[("up_0", 0); ("down_0", 1)]; [("up_0", 2); ("down_0", 3)]].
Definition fll_both : general_params := {| dc_type := [DcInt 0; DcInt 0] |}.
Definition three_shifts : @advanced_params Q :=
  {| dc_fixed_value := None; dc_fixed_occ := [None; None];
     dc_U := [4%Q; 4%Q]; dc_J := [1%Q; 1%Q];
     dc_nominal := false; dc_factor := None;
     dc_orb_shift := Some [1%Q; 2%Q; 3%Q] |}.

(** A loaded self-energy of the one-orbital impurity on a mesh of one
    point, with the double counting 3 it was computed with. The lattice
    blocks "up", "down" are the solver blocks "up_0", "down_0". *)
Definition loaded_sigma : list (@BlockGf Q) :=
  [[("up_0", [[[5%Q]]]); ("down_0", [[[5%Q]]])]].
Definition loaded_dc (v : Q) : list (dict (@matrix Q)) :=
  [[("up", [[v]]); ("down", [[v]])]].

Definition put_Sigma_one_orbital (sum_k : @SumkDFT Q unit)
    (sigma : list (@BlockGf Q)) : result (list (@BlockGf Q)) :=
  comprehension
    (fun imp : @BlockGf Q =>
       up ← dict_get imp "up_0"; down ← dict_get imp "down_0";
       Ok [("up", up); ("down", down)])
    sigma.
Definition no_rotation (sum_k : @SumkDFT Q unit) (icrsh : nat) (g : @gf Q)
  : @gf Q := g.
Definition no_dc_rotation (sum_k : @SumkDFT Q unit) (icrsh : nat)
    (dc : @matrix Q) : @matrix Q := dc.

(** One impurity with two orbitals whose local frame has the two
    orbitals in the other order: both rotations of the lattice reverse
    the rows and the columns, and [put_Sigma] hands the self-energy over
    in the global frame. *)
Definition two_orbitals_rotated : @SumkDFT Q unit :=
  {| n_corr_shells := 1; n_inequiv_shells := 1;
     corr_to_inequiv := [0]; inequiv_to_corr := [0];
     corr_shells := [{| dim := 2; shell_SO := 0 |}];
     dc_imp := [[("up", [[1%Q; 0%Q]; [0%Q; 1%Q]]);
                 ("down", [[1%Q; 0%Q]; [0%Q; 1%Q]])]];
     dc_energ := [0%Q]; dc_imp_dyn := []; Sigma_imp := [];
     use_rotations := true;
     gf_struct_solver := [[("up_0", 2); ("down_0", 2)]];
     solver_to_sumk :=
       [[(("up_0", 0), ("up", 0)); (("up_0", 1), ("up", 1));
         (("down_0", 0), ("down", 0)); (("down_0", 1), ("down", 1))]] |}.

Definition swap_orbitals (m : @matrix Q) : @matrix Q :=
  rev (map (@rev Q) m).
Definition swap_rotation (sum_k : @SumkDFT Q unit) (icrsh : nat) (g : @gf Q)
  : @gf Q := map swap_orbitals g.
Definition swap_dc_rotation (sum_k : @SumkDFT Q unit) (icrsh : nat)
    (dc : @matrix Q) : @matrix Q := swap_orbitals dc.
Definition put_Sigma_rotated (sum_k : @SumkDFT Q unit)
    (sigma : list (@BlockGf Q)) : result (list (@BlockGf Q)) :=
  comprehension
    (fun imp : @BlockGf Q =>
       up ← dict_get imp "up_0"; down ← dict_get imp "down_0";
       Ok [("up", map swap_orbitals up); ("down", map swap_orbitals down)])
    sigma.

(** A loaded self-energy of that impurity on a mesh of one point, and a
    loaded double counting with [a] and [b] on the diagonal. *)
Definition loaded_sigma_two : list (@BlockGf Q) :=
  [[("up_0", [[[5%Q; 0%Q]; [0%Q; 6%Q]]]);
    ("down_0", [[[5%Q; 0%Q]; [0%Q; 6%Q]]])]].
Definition loaded_dc_two (a b : Q) : list (dict (@matrix Q)) :=
  [[("up", [[a; 0%Q]; [0%Q; b]]); ("down", [[a; 0%Q]; [0%Q; b]])]].

Definition set_loaded_rotated (sigma : list (@BlockGf Q))
    (dc : list (dict (@matrix Q)))
  : result (@SumkDFT Q unit * list (@BlockGf Q)) :=
  _set_loaded_sigma swap_rotation put_Sigma_rotated swap_dc_rotation
    two_orbitals_rotated sigma dc.

Definition set_loaded (sigma : list (@BlockGf Q))
    (dc : list (dict (@matrix Q)))
  : result (@SumkDFT Q unit * list (@BlockGf Q)) :=
  _set_loaded_sigma no_rotation put_Sigma_one_orbital no_dc_rotation
    one_orbital sigma dc.

(** *** Further runs *)

(** The parameters of [two_shell_params] with the single U expanded. *)
Definition expanded_two_shell_params : gmap string (pyval Z) :=
  <["U" := PyList [Atom 4%Z; Atom 4%Z]]> two_shell_params.



(** Two impurities, the first solved with 'ftps'; an analysis that finds
    two degenerate orbitals on the first and none on the second. *)
Definition two_shells : DmftCycle.SumkDFT unit :=
  {| SO := 0; DmftCycle.n_inequiv_shells := 2;
     block_structure := {| DmftCycle.gf_struct_solver := tt;
                           deg_shells := [] |} |}.
Definition analyse_two_sites (sum_k : DmftCycle.SumkDFT unit)
    (dm threshold : unit) (include_shells : list nat) : BlockStructure unit :=
  {| DmftCycle.gf_struct_solver := tt;
     deg_shells := [Some [["up_0"; "up_1"]]; Some []] |}.
Definition paramagnetic_run : DmftCycle.general_params unit :=
  {| magnetic := false; block_threshold := tt;
     enforce_off_diag := [false; false] |}.
Definition no_manual_struct_two : DmftCycle.advanced_params unit unit :=
  {| pick_solver_struct := [None; None]; map_solver_struct := [None; None];
     mapped_solver_struct_degeneracies := [None; None] |}.
Definition manual_selection : DmftCycle.advanced_params unit unit :=
  {| pick_solver_struct := [Some tt]; map_solver_struct := [None];
     mapped_solver_struct_degeneracies := [None] |}.

(** Two solvers for three impurities: the second and the third listed
    out of order; and a listing that names impurity 0 twice. *)
Import DmftCycleSetup.
Definition two_solvers : list solver :=
  [{| type := "cthyb"; idx_impurities := Some [1%Z];
      measure_chi := Some "SzSz" |};
   {| type := "hartree"; idx_impurities := Some [2%Z; 0%Z];
      measure_chi := None |}].
Definition double_listing : list solver :=
  [{| type := "cthyb"; idx_impurities := Some [0%Z; 0%Z];
      measure_chi := None |}].
Definition spin_operator (icrsh n_orb : nat) : string * nat * nat :=
  ("S_z", icrsh, n_orb).
Definition density_operator (icrsh n_orb : nat) : string * nat * nat :=
  ("N", icrsh, n_orb).

(** The double counting fixed to 2, and the occupation fixed to 3. *)
Definition fixed_value : @advanced_params Q :=
  {| dc_fixed_value := Some 2%Q; dc_fixed_occ := [None];
     dc_U := [4%Q]; dc_J := [1%Q];
     dc_nominal := true; dc_factor := Some 2%Q;
     dc_orb_shift := Some [1%Q] |}.
Definition fixed_occupation : @advanced_params Q :=
  {| dc_fixed_value := None; dc_fixed_occ := [Some 3%Q];
     dc_U := [4%Q]; dc_J := [1%Q];
     dc_nominal := false; dc_factor := None; dc_orb_shift := None |}.

(** A loaded double counting of two shells, and one with the channel of
    a spin-orbit coupled shell. *)
Definition loaded_dc_two_shells : list (dict (@matrix Q)) :=
  [[("up", [[1%Q]]); ("down", [[1%Q]])];
   [("up", [[1%Q]]); ("down", [[1%Q]])]].
Definition loaded_dc_spin_orbit : list (dict (@matrix Q)) :=
  [[("ud", [[1%Q]])]].

(** A self-energy of the one-orbital impurity in the lattice blocks, on
    a mesh of two points. *)
Definition lattice_sigma : list (@BlockGf Q) :=
  [[("up", [[[5%Q]]; [[6%Q]]]); ("down", [[[7%Q]]; [[8%Q]]])]].

End Examples.
(** * Properties *)

Module PyFacts.

Lemma bind_Ok {A B} (r : result A) (f : A -> result B) (b : B) :
  r ≫= f = Ok b -> exists a, r = Ok a /\ f a = Ok b.
Proof. destruct r as [a|e]; simpl; [eauto | discriminate]. Qed.

Lemma bind_Raise {A B} (r : result A) (f : A -> result B) (e : exn) :
  r = Raise e -> r ≫= f = Raise e.
Proof. intros ->. reflexivity. Qed.

Lemma comprehension_Ok {A B} (f : A -> result B) (xs : list A) (ys : list B) :
  comprehension f xs = Ok ys -> Forall2 (fun x y => f x = Ok y) xs ys.
Proof.
  revert ys. induction xs as [|x xs IH]; simpl; intros ys Hc.
  - injection Hc as <-. constructor.
  - apply bind_Ok in Hc as (y & Hy & Hc).
    apply bind_Ok in Hc as (ys' & Hys & Hc).
    injection Hc as <-. constructor; auto.
Qed.

Lemma comprehension_total {A B} (f : A -> result B) (xs : list A) :
  (forall x, In x xs -> returns (f x)) -> returns (comprehension f xs).
Proof.
  induction xs as [|x xs IH]; intros Hf; simpl.
  - eexists. reflexivity.
  - destruct (Hf x) as [y Hy]; [now left|]. rewrite Hy. simpl.
    destruct IH as [ys Hys]; [intros; apply Hf; now right|].
    rewrite Hys. simpl. eexists. reflexivity.
Qed.

Lemma comprehension_length {A B} (f : A -> result B) xs ys :
  comprehension f xs = Ok ys -> length ys = length xs.
Proof.
  intros Hc. apply comprehension_Ok in Hc.
  symmetry. eapply Forall2_length; eauto.
Qed.

Lemma comprehension_In {A B} (f : A -> result B) xs ys y :
  comprehension f xs = Ok ys -> In y ys -> exists x, In x xs /\ f x = Ok y.
Proof.
  intros Hc. apply comprehension_Ok in Hc.
  induction Hc as [|x y' xs ys Hxy _ IH]; intros Hin; [destruct Hin|].
  destruct Hin as [->|Hin].
  - exists x. split; [now left | assumption].
  - destruct (IH Hin) as (x' & Hx' & Hf). exists x'. split; [now right | assumption].
Qed.

End PyFacts.
Import PyFacts.

Module DmftCycleFacts.
Import DmftCycle.

Section PerImpurityParameters.
Context {A : Type}.
Implicit Types (gp : gmap string (pyval A)).

(** The expansion leaves every other parameter as it was. *)
Lemma extract_quantity_other key n gp gp' other :
  _extract_quantity_per_inequiv key n gp = Ok gp' ->
  other <> key -> gp' !! other = gp !! other.
Proof.
  unfold _extract_quantity_per_inequiv. intros Hx Hne.
  destruct (gp !! key) as [[a|l]|]; try discriminate.
  - injection Hx as <-. apply lookup_insert_ne. congruence.
  - destruct (length l =? n); [injection Hx as <-; reflexivity | discriminate].
Qed.

(** A list of the wrong length under one of the keys stops the loop over
    the keys. *)
Lemma extract_keys_bad_length keys n gp key l :
  In key keys -> gp !! key = Some (PyList l) -> length l <> n ->
  raises (extract_keys keys n gp).
Proof.
  unfold extract_keys. revert gp.
  induction keys as [|k keys IH]; intros gp Hin Hl Hn; [destruct Hin|].
  simpl.
  destruct (_extract_quantity_per_inequiv k n gp) as [gp'|e] eqn:Hk;
    [|eexists; reflexivity].
  simpl. destruct (String.eqb_spec k key) as [->|Hne].
  - unfold _extract_quantity_per_inequiv in Hk. rewrite Hl in Hk.
    apply Nat.eqb_neq in Hn. rewrite Hn in Hk. discriminate.
  - destruct Hin as [->|Hin]; [congruence|].
    apply IH; auto.
    rewrite (extract_quantity_other k n gp gp' key Hk); auto.
Qed.
End PerImpurityParameters.

Section SelfConsistencyLoop.
Context {St : Type}.
Variable iterate : St -> nat -> bool -> St.
Variable check_convergence : St -> option bool.
Variable step_raises : St -> nat -> bool -> option exn.

(** Nothing of the iterations runs when the expansion of a general
    parameter fails. *)
Lemma dmft_cycle_setup_failure {A} n (gp ap : gmap string (pyval A))
    sampling n_iter offset st e :
  extract_keys general_keys n gp = Raise e ->
  dmft_cycle iterate check_convergence step_raises n gp ap sampling n_iter
    offset st
  = ([], Raise e).
Proof. unfold dmft_cycle. intros ->. reflexivity. Qed.

(** C8: a single value is expanded to [n_inequiv_shells] copies, a list of
    that length is kept, a list of another length raises; and when that
    happens to an impurity-dependent general parameter, [dmft_cycle] ends
    with the exception before any iteration. *)
Theorem extract_quantity_per_inequiv_expands {A} (param_name : string)
    (n_inequiv_shells : nat) (general_params : gmap string (pyval A)) :
  (forall a, general_params !! param_name = Some (Atom a) ->
     exists expanded,
       _extract_quantity_per_inequiv param_name n_inequiv_shells
         general_params = Ok expanded
       /\ expanded !! param_name
          = Some (PyList (replicate n_inequiv_shells (Atom a)))
       /\ length (replicate n_inequiv_shells (Atom a)) = n_inequiv_shells
       /\ forall other, other <> param_name ->
            expanded !! other = general_params !! other)
  /\ (forall l, general_params !! param_name = Some (PyList l) ->
        length l = n_inequiv_shells ->
        _extract_quantity_per_inequiv param_name n_inequiv_shells
          general_params = Ok general_params)
  /\ (forall l, general_params !! param_name = Some (PyList l) ->
        length l <> n_inequiv_shells ->
        _extract_quantity_per_inequiv param_name n_inequiv_shells
          general_params = Raise IndexError
        /\ (In param_name general_keys ->
            forall advanced_params sampling n_iter offset st,
            exists e,
              dmft_cycle iterate check_convergence step_raises n_inequiv_shells
                general_params advanced_params sampling n_iter offset st
              = ([], Raise e))).
Proof.
  unfold _extract_quantity_per_inequiv. split; [|split].
  - intros a ->. eexists. split; [reflexivity|].
    split; [apply lookup_insert_eq|].
    split; [apply length_replicate|].
    intros other Hne. apply lookup_insert_ne. congruence.
  - intros l -> <-. now rewrite Nat.eqb_refl.
  - intros l Hl Hlen. split.
    + rewrite Hl. apply Nat.eqb_neq in Hlen. now rewrite Hlen.
    + intros Hin ap sampling n_iter offset st.
      destruct (extract_keys_bad_length general_keys n_inequiv_shells
                  general_params param_name l Hin Hl Hlen) as [e He].
      exists e. now apply dmft_cycle_setup_failure.
Qed.

(** C1, as the code has it: a check that decides keeps a flag that was
    true, a check that returns [None] makes the step return [False]. *)
Theorem dmft_step_keeps_flag_on_decided_check (st : St) (it : nat)
    (is_sampling : bool) :
  (forall is_now_converged,
     check_convergence (iterate st it is_sampling) = Some is_now_converged ->
     snd (_dmft_step iterate check_convergence st it true is_sampling) = true)
  /\ (check_convergence (iterate st it is_sampling) = None ->
      forall is_converged,
        snd (_dmft_step iterate check_convergence st it is_converged
               is_sampling) = false).
Proof.
  unfold _dmft_step. split.
  - intros b ->. reflexivity.
  - intros -> c. reflexivity.
Qed.

(** The flag that [dmft_cycle] returns is the one the main loop ends
    with: the sampling iterations cannot change it. *)
Lemma dmft_cycle_flag {A} n (gp ap : gmap string (pyval A))
    sampling n_iter offset st tr is_converged st' :
  dmft_cycle iterate check_convergence step_raises n gp ap sampling n_iter
    offset st
  = (tr, Ok (is_converged, st')) ->
  exists tr1 st1 it,
    main_loop iterate check_convergence step_raises n_iter (offset + 1)
      st false []
    = (tr1, Ok (st1, is_converged, it)).
Proof.
  unfold dmft_cycle.
  destruct (extract_keys general_keys n gp); [|discriminate].
  destruct (extract_keys advanced_keys n ap); [|discriminate].
  destruct (main_loop _ _ _ _ _ _ _ _) as [tr1 [[[st1 c] it]|e]];
    [|discriminate].
  destruct (c && (0 <? sampling)).
  - destruct (sampling_loop _ _ _ _ _ _ _) as [tr2 [st2|e]];
      [|discriminate].
    intros [= _ <- _]. eauto.
  - intros [= _ <- _]. eauto.
Qed.
End SelfConsistencyLoop.

End DmftCycleFacts.

(** ** The degeneracy groups after [_determine_block_structure] *)

Module BlockStructureFacts.
Import DmftCycle.

(** Every group that the lifting leaves holds labels of one spin, and
    more than one of them. *)
Lemma lift_spin_degeneracy_one_spin (deg_orbs g : list string) :
  In g (lift_spin_degeneracy deg_orbs) ->
  (Forall up_label g \/ Forall down_label g) /\ 1 < length g.
Proof.
  unfold lift_spin_degeneracy. simpl. rewrite app_nil_r.
  intros Hin. apply in_app_or in Hin.
  destruct Hin as [Hin|Hin];
    match type of Hin with
    | In _ (if ?c then _ else _) => destruct c eqn:Hlen
    end; simpl in Hin; try tauto;
    destruct Hin as [<-|[]]; (split; [|now apply Nat.ltb_lt]).
  - left. apply List.Forall_forall. intros l Hl.
    apply List.filter_In in Hl. apply Hl.
  - right. apply List.Forall_forall. intros l Hl.
    apply List.filter_In in Hl. apply Hl.
Qed.

Lemma deg_shell_mag_one_spin (site site' : deg_site) :
  deg_shell_mag site = Ok site' ->
  exists groups, site' = Some groups /\
    forall g, In g groups ->
      (Forall up_label g \/ Forall down_label g) /\ 1 < length g.
Proof.
  destruct site as [groups|]; simpl; [|discriminate].
  intros [= <-]. eexists. split; [reflexivity|].
  intros g Hg. apply in_flat_map in Hg as (orbs & _ & Hg).
  eapply lift_spin_degeneracy_one_spin; eauto.
Qed.

Section DetermineBlockStructure.
Context {G D T P M : Type}.
Variable analyse_block_structure :
  SumkDFT G -> D -> T -> list nat -> BlockStructure G.
Variable map_gf_struct_solver :
  BlockStructure G -> list (option M) -> BlockStructure G.

(** C5, as the code has it: after [_determine_block_structure], in a
    magnetic run without spin-orbit coupling every degeneracy group holds
    only labels that contain 'up' or only labels that contain 'down', so
    that a group none of whose labels contains both does not hold a label
    with 'up' next to a label with 'down'; with spin-orbit coupling every
    site has the empty list of groups. *)
Theorem determine_block_structure_degeneracies (sum_k : SumkDFT G)
    (gp : general_params T) (ap : advanced_params P M)
    (solver_type_per_imp : list string) (dens_mat : D)
    (sum_k' : SumkDFT G) (deg_orbs_ftps : option (list (option deg_site))) :
  _determine_block_structure analyse_block_structure map_gf_struct_solver
    sum_k gp ap solver_type_per_imp dens_mat = Ok (sum_k', deg_orbs_ftps) ->
  (magnetic gp = true -> SO sum_k = 0 ->
   forall site, In site (deg_shells (block_structure sum_k')) ->
     exists groups, site = Some groups /\
       forall g, In g groups ->
         (Forall up_label g \/ Forall down_label g)
         /\ (Forall (fun l => ~ (up_label l /\ down_label l)) g ->
             ~ exists l_up l_down,
                 In l_up g /\ In l_down g
                 /\ up_label l_up /\ down_label l_down))
  /\ (SO sum_k = 1 ->
      deg_shells (block_structure sum_k')
      = replicate (n_inequiv_shells sum_k) (Some [])).
Proof.
  unfold _determine_block_structure. intros Hrun.
  apply bind_Ok in Hrun as (ftps & _ & Hrun).
  apply bind_Ok in Hrun as (sk1 & Hpick & Hrun).
  apply bind_Ok in Hrun as (sk2 & Hmag & Hrun).
  injection Hrun as <- _.
  destruct (any_not_none (pick_solver_struct ap)); [discriminate|].
  injection Hpick as <-.
  match type of Hmag with
  | context [SO ?s =? 0] => set (sk := s) in *
  end.
  assert (HSO : SO sk = SO sum_k).
  { subst sk. destruct (SO sum_k =? 0), (any_not_none (map_solver_struct ap));
      try destruct (any_not_none (mapped_solver_struct_degeneracies ap));
      reflexivity. }
  assert (Hn : n_inequiv_shells sk = n_inequiv_shells sum_k).
  { subst sk. destruct (SO sum_k =? 0), (any_not_none (map_solver_struct ap));
      try destruct (any_not_none (mapped_solver_struct_degeneracies ap));
      reflexivity. }
  clearbody sk. rewrite HSO in Hmag. split.
  - intros Hm Hso. rewrite Hm, Hso in Hmag. simpl in Hmag.
    apply bind_Ok in Hmag as (ds & Hds & Hmag). injection Hmag as <-.
    simpl. intros site Hsite.
    destruct (comprehension_In _ _ _ _ Hds Hsite) as (site0 & _ & Hs).
    apply deg_shell_mag_one_spin in Hs as (groups & -> & Hg).
    exists groups. split; [reflexivity|]. intros g Hin.
    destruct (Hg g Hin) as [Hspin _]. split; [exact Hspin|].
    intros Hexcl (l_up & l_down & Hup_in & Hdown_in & Hup & Hdown).
    rewrite List.Forall_forall in Hexcl.
    destruct Hspin as [Hall|Hall]; rewrite List.Forall_forall in Hall.
    + apply (Hexcl l_down Hdown_in). split; [now apply Hall|assumption].
    + apply (Hexcl l_up Hup_in). split; [assumption|now apply Hall].
  - intros Hso. rewrite Hso in Hmag. simpl in Hmag.
    rewrite andb_false_r in Hmag. injection Hmag as <-. simpl.
    now rewrite Hn.
Qed.

End DetermineBlockStructure.
End BlockStructureFacts.

(** ** The store: what [deepcopy] leaves alone *)

Module StoreFacts.

Section StoreFacts.
Context {R : Type}.
Implicit Types (h : store R) (s : copy_state R).

Lemma preserves_refl h : preserves h h.
Proof. intros l _. reflexivity. Qed.

Lemma preserves_insert_apart h h' l m :
  preserves h h' -> l ∉ dom h -> preserves h (<[l := m]> h').
Proof.
  intros Hp Hl l' Hl'. rewrite lookup_insert_ne; [now apply Hp|].
  intros ->. contradiction.
Qed.

Lemma copy_array_copying h s l s' l' :
  copying h s -> copy_array s l = (s', l') ->
  copying h s' /\ l' ∉ dom h.
Proof.
  intros (Hp & Hd & Hm). unfold copy_array.
  destruct (snd s !! l) as [l0|] eqn:Hmemo.
  - intros [= <- <-]. split; [now repeat split|]. eauto.
  - intros [= <- <-]. unfold loc, matrix in *. simpl.
    assert (Hfresh : fresh (dom (fst s)) ∉ dom h).
    { intros Hin. apply (is_fresh (dom (fst s))). now apply Hd. }
    split; [|assumption]. repeat split.
    + simpl. now apply preserves_insert_apart.
    + simpl. rewrite dom_insert_L. set_solver.
    + simpl. intros l1 l2. destruct (decide (l = l1)) as [->|Hne].
      * rewrite lookup_insert_eq. now intros [= <-].
      * rewrite lookup_insert_ne by assumption. apply Hm.
Qed.

Lemma copy_dict_copying h d : forall s s' d',
  copying h s -> copy_dict s d = (s', d') ->
  copying h s' /\ forall l, In l (values d') -> l ∉ dom h.
Proof.
  induction d as [|[k l] d IH]; simpl; intros s s' d' Hs Hc.
  - injection Hc as <- <-. split; [assumption | intros l []].
  - destruct (copy_array s l) as [s1 l1] eqn:H1.
    destruct (copy_dict s1 d) as [s2 d2] eqn:H2.
    injection Hc as <- <-.
    destruct (copy_array_copying _ _ _ _ _ Hs H1) as [Hs1 Hl1].
    destruct (IH _ _ _ Hs1 H2) as [Hs2 Hd2].
    split; [assumption|]. simpl. intros l0 [<-|Hin]; auto.
Qed.

Lemma copy_arrays_copying h ds : forall s s' ds',
  copying h s -> copy_arrays s ds = (s', ds') ->
  copying h s' /\ apart h ds'.
Proof.
  induction ds as [|d ds IH]; simpl; intros s s' ds' Hs Hc.
  - injection Hc as <- <-. split; [assumption | intros d l []].
  - destruct (copy_dict s d) as [s1 d1] eqn:H1.
    destruct (copy_arrays s1 ds) as [s2 ds2] eqn:H2.
    injection Hc as <- <-.
    destruct (copy_dict_copying _ _ _ _ _ Hs H1) as [Hs1 Hd1].
    destruct (IH _ _ _ Hs1 H2) as [Hs2 Hds2].
    split; [assumption|]. intros d0 l [<-|Hin] Hl; [now apply Hd1|].
    eapply Hds2; eauto.
Qed.

(** [deepcopy] leaves the arrays of [h] alone, and the copy shares no
    array with [h]. *)
Lemma deepcopy_frame h ds h' ds' :
  deepcopy h ds = (h', ds') -> preserves h h' /\ apart h ds'.
Proof.
  unfold deepcopy. destruct (copy_arrays (h, ∅) ds) as [s ds0] eqn:Hc.
  intros [= <- <-].
  destruct (copy_arrays_copying h ds (h, ∅) s ds0) as [(Hp & _) Ha]; auto.
  split; [apply preserves_refl | split; simpl].
  - reflexivity.
  - intros l l'. rewrite lookup_empty. discriminate.
Qed.

Lemma preserves_load_dict h h' (d : dict loc) :
  preserves h h' -> (forall l, In l (values d) -> l ∈ dom h) ->
  load_dict h' d = load_dict h d.
Proof.
  intros Hp Hd. unfold load_dict. apply map_ext_in.
  intros [k l] Hin. simpl. unfold load. rewrite Hp; [reflexivity|].
  apply Hd. unfold values. apply in_map_iff. now exists (k, l).
Qed.
End StoreFacts.
End StoreFacts.

(** ** Loops that write to a list by index *)

Module LoopFacts.

Lemma getitem_Ok {A} (l : list A) i a : getitem l i = Ok a -> l !! i = Some a.
Proof. unfold getitem. destruct (l !! i); [now intros [= ->] | discriminate]. Qed.

Lemma getitem_Some {A} (l : list A) i a : l !! i = Some a -> getitem l i = Ok a.
Proof. unfold getitem. now intros ->. Qed.

Lemma getitem_In {A} (l : list A) i a : getitem l i = Ok a -> In a l.
Proof.
  intros Hg. apply getitem_Ok in Hg. apply list_elem_of_In.
  eapply list_elem_of_lookup_2; eauto.
Qed.

Lemma setitem_Ok {A} (l l' : list A) i x :
  setitem l i x = Ok l' -> l' = <[i := x]> l /\ i < length l.
Proof.
  unfold setitem. destruct (i <? length l) eqn:Hi; [|discriminate].
  intros [= <-]. split; [reflexivity | now apply Nat.ltb_lt].
Qed.

Lemma for_each_invariant {A S} (P : S -> Prop) (xs : list A)
    (body : S -> A -> result S) :
  (forall s x s', In x xs -> P s -> body s x = Ok s' -> P s') ->
  forall s s', P s -> for_each xs body s = Ok s' -> P s'.
Proof.
  induction xs as [|x xs IH]; simpl; intros Hb s s' Hs Hf.
  - now injection Hf as <-.
  - apply bind_Ok in Hf as (s1 & H1 & Hf).
    apply (IH (fun s x s' Hin => Hb s x s' (or_intror Hin)) s1 s');
      [|assumption].
    apply (Hb s x s1); [now left | assumption | assumption].
Qed.

(** A loop [for i in range(a, a + n)] whose body writes a value to index
    [i] of the list it carries, read off what the list holds at [i]. *)
Lemma for_each_seq_writes {A} (Q : nat -> option A -> A -> Prop)
    (body : list A -> nat -> result (list A)) :
  (forall s i s', body s i = Ok s' ->
     exists v, Q i (s !! i) v /\ s' = <[i := v]> s /\ i < length s) ->
  forall n a s s',
    for_each (seq a n) body s = Ok s' ->
    length s' = length s
    /\ (forall j, j < a \/ a + n <= j -> s' !! j = s !! j)
    /\ (forall i, a <= i < a + n ->
          exists v, Q i (s !! i) v /\ s' !! i = Some v).
Proof.
  intros Hbody. induction n as [|n IH]; simpl; intros a s s' Hf.
  - injection Hf as <-. repeat split; auto. intros i Hi. lia.
  - apply bind_Ok in Hf as (s1 & H1 & Hf).
    destruct (Hbody _ _ _ H1) as (v & Hv & -> & Hlen).
    destruct (IH _ _ _ Hf) as (Hl & Hout & Hin).
    rewrite length_insert in Hl. split; [assumption|]. split.
    + intros j Hj. rewrite Hout by lia.
      apply list_lookup_insert_ne. lia.
    + intros i Hi. destruct (decide (i = a)) as [->|Hne].
      * exists v. split; [assumption|].
        rewrite Hout by lia. now apply list_lookup_insert_eq.
      * destruct (Hin i) as (w & Hw & Hs'); [lia|].
        exists w. split; [|assumption].
        rewrite list_lookup_insert_ne in Hw by lia. assumption.
Qed.

End LoopFacts.

(** ** [calculate_double_counting] *)

Module DoubleCountingFacts.
Import InitialSelfEnergies StoreFacts LoopFacts.

Section DoubleCounting.
Context {R : Type} `{Scalar R} {GW Dyn : Type}.
Variable total_density : @SumkDFT R Dyn -> nat -> dict (@matrix R) -> R.
Variable dc_potential :
  @SumkDFT R Dyn -> nat -> dict (@matrix R) -> R -> R -> dc_tag -> string -> R.
Variable dc_energy :
  @SumkDFT R Dyn -> nat -> dict (@matrix R) -> R -> R -> dc_tag -> R.
Variable crpa_double_counting :
  @SumkDFT R Dyn -> GW -> string -> nat -> dict (@matrix R) * Dyn.

Local Abbreviation calculate_double_counting :=
  (calculate_double_counting total_density dc_potential dc_energy
     crpa_double_counting).
Local Abbreviation calc_dc_value :=
  (calc_dc_value total_density dc_potential dc_energy).
Local Abbreviation base_formula :=
  (base_formula total_density dc_potential dc_energy crpa_double_counting).

Implicit Types (sum_k : @SumkDFT R Dyn) (h : store R)
  (ap : @advanced_params R).

(** The only writes to the store go to the copy of the density matrix. *)
Lemma fix_occupations_frame (h0 : store R) sum_k ap dmDC shells h h' :
  apart h0 dmDC -> preserves h0 h ->
  fix_occupations sum_k ap dmDC shells h = Ok h' -> preserves h0 h'.
Proof.
  intros Hap Hp Hf. unfold fix_occupations in Hf.
  revert Hf. apply for_each_invariant; [|assumption].
  clear h h' Hp. intros h icrsh h' _ Hp Hb.
  apply bind_Ok in Hb as ([occ|] & _ & Hb); [|now injection Hb as <-].
  apply bind_Ok in Hb as (shell & _ & Hb).
  destruct (dim shell * 2 =? 0); [discriminate|].
  apply bind_Ok in Hb as (d & Hd & Hb). injection Hb as <-.
  apply getitem_In in Hd.
  assert (Hvals : forall l, In l (values d) -> l ∉ dom h0)
    by (intros l Hl; eapply Hap; eauto).
  revert h Hp. induction (values d) as [|l ls IH]; simpl; intros h Hp.
  - assumption.
  - apply IH; [intros; apply Hvals; now right|].
    apply preserves_insert_apart; [assumption|]. apply Hvals. now left.
Qed.

(** The run of a call that does not take the [dc_fixed_value] exit. *)
Lemma calculate_double_counting_regular h sum_k dm gp gw ap types h' sum_k' :
  dc_fixed_value ap = None ->
  calculate_double_counting h sum_k dm gp gw ap types = Ok (h', sum_k') ->
  exists h1 dmDC s0 s_base,
    deepcopy h dm = (h1, dmDC)
    /\ calc_dc_value h1 dmDC (icrsh_hartree types) szero sum_k = Ok s0
    /\ fix_occupations s0 ap dmDC (icrsh_not_hartree types) h1 = Ok h'
    /\ base_formula gw gp ap h' dmDC (icrsh_not_hartree types) s0 = Ok s_base
    /\ post_process ap types h' dm s_base = Ok sum_k'.
Proof.
  intros Hfix. unfold InitialSelfEnergies.calculate_double_counting.
  destruct (deepcopy h dm) as [h1 dmDC]. rewrite Hfix. intros Hrun.
  apply bind_Ok in Hrun as (s0 & Hs0 & Hrun).
  apply bind_Ok in Hrun as (h2 & Hh2 & Hrun).
  apply bind_Ok in Hrun as (s1 & Hs1 & Hrun).
  apply bind_Ok in Hrun as (s2 & Hs2 & Hrun).
  injection Hrun as <- <-.
  exists h1, dmDC, s0, s1. auto.
Qed.

(** C9: the arrays that the caller holds, and so the density matrices
    handed in, are on return what they were at the call. *)
Theorem calculate_double_counting_keeps_density_matrix
    (h : store R) sum_k density_matrix gp gw ap solver_type_per_imp
    h' sum_k' :
  calculate_double_counting h sum_k density_matrix gp gw ap
    solver_type_per_imp = Ok (h', sum_k') ->
  preserves h h'
  /\ (allocated h density_matrix ->
      forall d, In d density_matrix -> load_dict h' d = load_dict h d).
Proof.
  intros Hrun.
  assert (Hp : preserves h h').
  { destruct (dc_fixed_value ap) as [v|] eqn:Hfix.
    - unfold InitialSelfEnergies.calculate_double_counting in Hrun.
      destruct (deepcopy h density_matrix) as [h1 dmDC] eqn:Hcopy.
      rewrite Hfix in Hrun.
      apply bind_Ok in Hrun as (s0 & _ & Hrun).
      apply bind_Ok in Hrun as (s1 & _ & Hrun).
      injection Hrun as <- _. now apply deepcopy_frame in Hcopy.
    - apply calculate_double_counting_regular in Hrun
        as (h1 & dmDC & s0 & s1 & Hcopy & _ & Hocc & _); [|assumption].
      apply deepcopy_frame in Hcopy as [Hp Hap].
      eapply fix_occupations_frame; eauto. }
  split; [assumption|]. intros Hall d Hd.
  apply preserves_load_dict; [assumption|].
  intros l Hl. now apply (Hall d l).
Qed.

(** *** The nominal double counting *)

Lemma true_occupation_preserved h h' (d : dict loc) :
  preserves h h' -> (forall l, In l (values d) -> l ∈ dom h) ->
  true_occupation h' d = true_occupation h d.
Proof.
  intros Hp Hd. unfold true_occupation.
  assert (Hload : forall l, In l (values d) -> load h' l = load h l).
  { intros l Hl. unfold load. now rewrite Hp by (now apply Hd). }
  generalize (@szero R _). revert Hload. clear Hd.
  induction (values d) as [|l ls IH]; simpl; intros Hload acc;
    [reflexivity|].
  rewrite (Hload l) by (now left).
  apply IH. intros l' Hl'. apply Hload. now right.
Qed.

Lemma nominal_sum_Ok (n_DC : R) (dc_shell : dict (@matrix R)) acc e :
  for_each dc_shell
    (fun e spin_dc => v ← entry (snd spin_dc) 0 0; Ok (sadd e (smul n_DC v)))
    acc = Ok e ->
  exists vs,
    Forall2 (fun spin_dc v => entry (snd spin_dc) 0 0 = Ok v) dc_shell vs
    /\ e = fold_left (fun e v => sadd e (smul n_DC v)) vs acc.
Proof.
  revert acc. induction dc_shell as [|spin_dc dc_shell IH]; simpl;
    intros acc Hsum.
  - injection Hsum as <-. exists []. split; [constructor | reflexivity].
  - apply bind_Ok in Hsum as (acc' & Hv & Hsum).
    apply bind_Ok in Hv as (v & Hv & Hacc). injection Hacc as <-.
    destruct (IH _ Hsum) as (vs & Hvs & ->).
    exists (v :: vs). split; [now constructor | reflexivity].
Qed.

(** The energy of a shell, in closed form: the sum over the blocks of
    [n * V] for the potential [V] of the block, over the number of
    blocks. *)
Lemma nominal_energy_Ok (n_DC : R) (dc_shell : dict (@matrix R)) e :
  nominal_energy n_DC dc_shell = Ok e ->
  exists vs,
    Forall2 (fun spin_dc v => entry (snd spin_dc) 0 0 = Ok v) dc_shell vs
    /\ e = sdiv (fold_left (fun e v => sadd e (smul n_DC v)) vs szero)
               (sof_nat (length dc_shell)).
Proof.
  unfold nominal_energy. intros He.
  apply bind_Ok in He as (e0 & Hsum & He).
  destruct (length dc_shell =? 0); [discriminate|]. injection He as <-.
  apply nominal_sum_Ok in Hsum as (vs & Hvs & ->). eauto.
Qed.

Lemma nominal_dc_Ok h density_matrix sum_k s_nom :
  nominal_dc h density_matrix sum_k = Ok s_nom ->
  dc_imp s_nom = dc_imp sum_k
  /\ forall ish, ish < n_corr_shells sum_k ->
       exists ineq d dc_shell e,
         corr_to_inequiv sum_k !! ish = Some ineq
         /\ density_matrix !! ineq = Some d
         /\ dc_imp sum_k !! ish = Some dc_shell
         /\ nominal_energy (true_occupation h d) dc_shell = Ok e
         /\ dc_energ s_nom !! ish = Some e.
Proof.
  unfold nominal_dc. intros Hn.
  apply bind_Ok in Hn as (en & Hloop & Hn). injection Hn as <-.
  split; [reflexivity|]. simpl.
  pose (Q := fun (ish : nat) (_ : option R) (e : R) =>
    exists ineq d dc_shell,
      corr_to_inequiv sum_k !! ish = Some ineq
      /\ density_matrix !! ineq = Some d
      /\ dc_imp sum_k !! ish = Some dc_shell
      /\ nominal_energy (true_occupation h d) dc_shell = Ok e).
  assert (Hbody : forall s ish s',
    (ineq ← getitem (corr_to_inequiv sum_k) ish;
     d ← getitem density_matrix ineq;
     dc_new_en ← setitem s ish szero;
     dc_shell ← getitem (dc_imp sum_k) ish;
     e ← nominal_energy (true_occupation h d) dc_shell;
     setitem dc_new_en ish e) = Ok s' ->
    exists v, Q ish (s !! ish) v /\ s' = <[ish := v]> s /\ ish < length s).
  { intros s ish s' Hb.
    apply bind_Ok in Hb as (ineq & Hineq & Hb).
    apply bind_Ok in Hb as (d & Hd & Hb).
    apply bind_Ok in Hb as (s1 & Hs1 & Hb).
    apply bind_Ok in Hb as (sh & Hsh & Hb).
    apply bind_Ok in Hb as (e & He & Hb).
    apply setitem_Ok in Hs1 as [-> Hlen].
    apply setitem_Ok in Hb as [-> _].
    exists e. split; [|split; [apply list_insert_insert_eq | assumption]].
    exists ineq, d, sh. auto using getitem_Ok. }
  destruct (for_each_seq_writes Q _ Hbody _ _ _ _ Hloop) as (_ & _ & Hin).
  intros ish Hish. destruct (Hin ish) as (e & (ineq & d & sh & HQ) & He);
    [lia|]. exists ineq, d, sh, e. tauto.
Qed.

(** C7, as the code has it: a call with the nominal correction that
    does not take the [dc_fixed_value] exit keeps the potential of the
    base formula on the copy of the density matrix (with the forced
    occupations) and recomputes the energy of every shell from the traces
    of the density matrix that was handed in, times the potential of the
    shell, averaged over its blocks, before the rescaling and the
    orbital shift; a call with [dc_fixed_value] returns what the two
    loops with the fixed value leave, before any of this. *)
Theorem nominal_dc_freezes_potential (h : store R) sum_k density_matrix gp gw
    ap solver_type_per_imp h' sum_k' :
  dc_nominal ap = true ->
  allocated h density_matrix ->
  calculate_double_counting h sum_k density_matrix gp gw ap
    solver_type_per_imp = Ok (h', sum_k') ->
  (dc_fixed_value ap = None ->
   nominal_correction total_density dc_potential dc_energy
     crpa_double_counting h sum_k density_matrix gp gw ap
     solver_type_per_imp h' sum_k')
  /\ (forall value, dc_fixed_value ap = Some value ->
      exists density_matrix_DC s0,
        deepcopy h density_matrix = (h', density_matrix_DC)
        /\ calc_dc_value h' density_matrix_DC
             (icrsh_hartree solver_type_per_imp) szero sum_k = Ok s0
        /\ calc_dc_value h' density_matrix_DC
             (icrsh_not_hartree solver_type_per_imp) value s0 = Ok sum_k').
Proof.
  intros Hnom Hall Hrun. split.
  - intros Hfix.
    destruct (calculate_double_counting_regular _ _ _ _ _ _ _ _ _ Hfix Hrun)
      as (h1 & dmDC & s0 & s_base & Hcopy & Hs0 & Hocc & Hbase & Hpost).
    unfold post_process in Hpost. rewrite Hnom in Hpost.
    apply bind_Ok in Hpost as (s_nom & Hn & Hpost).
    destruct (str_in_list "Hartree" solver_type_per_imp); [discriminate|].
    destruct (nominal_dc_Ok _ _ _ _ Hn) as [Hdc Hen].
    assert (Hs_nom : s_nom = set_dc s_base (dc_imp s_base) (dc_energ s_nom)).
    { unfold nominal_dc in Hn.
      apply bind_Ok in Hn as (en & _ & Hn). now injection Hn as <-. }
    exists h1, dmDC, s0, s_base, (dc_energ s_nom).
    repeat (split; [assumption|]). split.
    + intros ish Hish.
      destruct (Hen ish Hish) as (ineq & d & sh & e & H1 & H2 & H3 & H4 & H5).
      apply nominal_energy_Ok in H4 as (vs & Hvs & ->).
      exists ineq, d, sh, vs. repeat (split; [assumption|]).
      rewrite H5. do 3 f_equal.
      assert (Hocc' : true_occupation h' d = true_occupation h d).
      { apply true_occupation_preserved.
        - destruct (deepcopy_frame _ _ _ _ Hcopy) as [Hp Hap].
          eapply fix_occupations_frame; eauto.
        - intros l Hl. apply (Hall d l); [|assumption].
          apply list_elem_of_In. eapply list_elem_of_lookup_2; eauto. }
      rewrite Hocc'. reflexivity.
    + rewrite <- Hs_nom. cbv zeta in *.
      destruct (dc_orb_shift ap) as [shifts|].
      * assumption.
      * now injection Hpost as <-.
  - intros value Hfix.
    unfold InitialSelfEnergies.calculate_double_counting in Hrun.
    destruct (deepcopy h density_matrix) as [h1 dmDC].
    apply bind_Ok in Hrun as (s0 & Hzero & Hrun). rewrite Hfix in Hrun.
    apply bind_Ok in Hrun as (s1 & Hvalue & Hrun). injection Hrun as <- <-.
    eauto.
Qed.

(** *** The orbital shift *)

(** The slices are cut in orbital order, impurity by impurity. *)
Lemma split_shifts_partition (dims : list nat) (shifts : list R) :
  length shifts = list_sum dims ->
  concat (split_shifts dims shifts) = shifts
  /\ map length (split_shifts dims shifts) = dims.
Proof.
  revert shifts. induction dims as [|d dims IH]; simpl; intros shifts Hlen.
  - destruct shifts; [auto | discriminate].
  - destruct (IH (skipn d shifts)) as [Hc Hl].
    { rewrite length_skipn. lia. }
    rewrite Hc, Hl. split; [apply firstn_skipn|].
    f_equal. rewrite length_firstn. lia.
Qed.

(** Shifts beyond the orbitals there are, are dropped without a word. *)
Lemma split_shifts_surplus (dims : list nat) (shifts extra : list R) :
  list_sum dims <= length shifts ->
  split_shifts dims (shifts ++ extra) = split_shifts dims shifts.
Proof.
  revert shifts. induction dims as [|d dims IH]; simpl; intros shifts Hlen;
    [reflexivity|].
  rewrite firstn_app, skipn_app.
  replace (d - length shifts) with 0 by lia. simpl.
  rewrite app_nil_r. f_equal. apply IH. rewrite length_skipn. lia.
Qed.

(** The guard of the nominal correction and of the orbital shift looks
    for 'Hartree'; no solver type that the code tells apart is written
    so. *)
Lemma hartree_guard_is_dead (solver_type_per_imp : list string) :
  Forall (fun type => In type ["cthyb"; "ctseg"; "ftps"; "hartree"])
         solver_type_per_imp ->
  str_in_list "Hartree" solver_type_per_imp = false.
Proof.
  induction 1 as [|type types Htype _ IH]; [reflexivity|].
  change (str_in_list "Hartree" (type :: types))
    with (String.eqb "Hartree" type || str_in_list "Hartree" types).
  rewrite IH. simpl in Htype.
  destruct Htype as [<-|[<-|[<-|[<-|[]]]]]; reflexivity.
Qed.

End DoubleCounting.
End DoubleCountingFacts.

(** ** Arrays and dicts *)

Module ArrayFacts.
Import InitialSelfEnergies.

Section ArrayFacts.
Context {R : Type} `{Scalar R}.

Lemma entry00_Ok (M : @matrix R) a :
  entry M 0 0 = Ok a -> exists row M', M = (a :: row) :: M'.
Proof.
  unfold entry, getitem. destruct M as [|[|x row] M']; simpl; try discriminate.
  intros [= ->]. eauto.
Qed.

(** At the zeroth orbital broadcasting plays no part: the entry of a
    sum or difference is the sum or difference of the entries. *)
Lemma broadcast2_entry00 {B} (op : R -> R -> B) (M N : @matrix R) P a b :
  broadcast2 op M N = Ok P ->
  entry M 0 0 = Ok a -> entry N 0 0 = Ok b ->
  exists row P', P = (op a b :: row) :: P'.
Proof.
  intros HP Ha Hb.
  apply entry00_Ok in Ha as (ra & Ma & ->).
  apply entry00_Ok in Hb as (rb & Mb & ->).
  unfold broadcast2 in HP. unfold nrows, ncols in HP. simpl in HP.
  destruct (broadcast_dim (S (length Ma)) (S (length Mb))) as [r|] eqn:Hr;
    [|discriminate].
  destruct (broadcast_dim (S (length ra)) (S (length rb))) as [c|] eqn:Hc;
    [|discriminate].
  assert (Hpos : forall x y z, broadcast_dim (S x) (S y) = Some z ->
                   exists z', z = S z').
  { intros x y z. unfold broadcast_dim.
    destruct (S x =? S y); [intros [= <-]; eauto|].
    destruct (S x =? 1); [intros [= <-]; eauto|].
    destruct (S y =? 1); [intros [= <-]; eauto | discriminate]. }
  apply Hpos in Hr as [r' ->]. apply Hpos in Hc as [c' ->].
  injection HP as <-. unfold tabulate. simpl.
  unfold broadcast_entry, nrows, ncols. simpl.
  destruct (length ra =? 0), (length Ma =? 0), (length rb =? 0),
    (length Mb =? 0); eauto.
Qed.

Lemma np_sub_entry00 (M N P : @matrix R) a b :
  np_sub M N = Ok P -> entry M 0 0 = Ok a -> entry N 0 0 = Ok b ->
  entry P 0 0 = Ok (ssub a b).
Proof.
  intros HP Ha Hb.
  destruct (broadcast2_entry00 ssub M N P a b HP Ha Hb) as (row & P' & ->).
  reflexivity.
Qed.
End ArrayFacts.

Section DictFacts.
Context {V : Type}.

Lemma dict_get_Ok (d : dict V) k v : dict_get d k = Ok v -> dict_find d k = Some v.
Proof.
  unfold dict_get. destruct (dict_find d k); [now intros [= ->] | discriminate].
Qed.

Lemma dict_find_get (d : dict V) k v : dict_find d k = Some v -> dict_get d k = Ok v.
Proof. unfold dict_get. now intros ->. Qed.

Lemma dict_find_keys (d : dict V) k v : dict_find d k = Some v -> In k (keys d).
Proof.
  induction d as [|[k' v'] d IH]; simpl; [discriminate|].
  destruct (String.eqb_spec k k') as [->|Hne]; [now left|].
  intros Hf. right. now apply IH.
Qed.

Lemma keys_dict_find (d : dict V) k : In k (keys d) -> exists v, dict_find d k = Some v.
Proof.
  induction d as [|[k' v'] d IH]; simpl; [intros []|].
  destruct (String.eqb_spec k k') as [->|Hne]; [eauto|].
  intros [Heq|Hin]; [congruence | auto].
Qed.

(** A comprehension over the items of a dict that keeps the keys: what
    it holds under a key comes from what the dict held under it. *)
Lemma comprehension_dict_find {W} (body : string * V -> result (string * W))
    (F : string -> V -> result W) (d : dict V) (d' : dict W) :
  (forall kv r, body kv = Ok r ->
     exists w, F (fst kv) (snd kv) = Ok w /\ r = (fst kv, w)) ->
  comprehension body d = Ok d' ->
  forall k v, dict_find d k = Some v ->
    exists w, F k v = Ok w /\ dict_find d' k = Some w.
Proof.
  intros Hbody. revert d'.
  induction d as [|[k0 v0] d IH]; simpl; intros d' Hc k v Hf;
    [discriminate|].
  apply bind_Ok in Hc as (r & Hr & Hc).
  apply bind_Ok in Hc as (rs & Hrs & Hc). injection Hc as <-.
  destruct (Hbody _ _ Hr) as (w & Hw & ->). simpl in *.
  destruct (String.eqb k k0) eqn:Hk.
  - injection Hf as <-. apply String.eqb_eq in Hk as ->. eauto.
  - eauto.
Qed.

(** The same for a comprehension over the keys. *)
Lemma comprehension_keys_find {W} (body : string -> result (string * W))
    (F : string -> result W) (ks : list string) (d' : dict W) :
  (forall k r, body k = Ok r -> exists w, F k = Ok w /\ r = (k, w)) ->
  comprehension body ks = Ok d' ->
  forall k, In k ks -> exists w, F k = Ok w /\ dict_find d' k = Some w.
Proof.
  intros Hbody. revert d'.
  induction ks as [|k0 ks IH]; simpl; intros d' Hc k Hin; [destruct Hin|].
  apply bind_Ok in Hc as (r & Hr & Hc).
  apply bind_Ok in Hc as (rs & Hrs & Hc). injection Hc as <-.
  destruct (Hbody _ _ Hr) as (w & Hw & ->). simpl.
  destruct (String.eqb_spec k k0) as [->|Hne]; [eauto|].
  destruct Hin as [->|Hin]; [congruence|]. eauto.
Qed.
End DictFacts.

Lemma comprehension_lookup {A B} (f : A -> result B) xs ys i x :
  comprehension f xs = Ok ys -> xs !! i = Some x ->
  exists y, f x = Ok y /\ ys !! i = Some y.
Proof.
  intros Hc Hx. apply comprehension_Ok in Hc.
  destruct (Forall2_lookup_l _ _ _ _ _ Hc Hx) as (y & Hy & Hf). eauto.
Qed.

Lemma comprehension_seq_lookup {B} (f : nat -> result B) n ys i :
  comprehension f (seq 0 n) = Ok ys -> i < n ->
  exists y, f i = Ok y /\ ys !! i = Some y.
Proof.
  intros Hc Hi. eapply comprehension_lookup; [eassumption|].
  rewrite lookup_seq. split; [reflexivity | assumption].
Qed.

Lemma strings_eqb_eq xs ys : strings_eqb xs ys = true <-> xs = ys.
Proof.
  revert ys. induction xs as [|x xs IH]; intros [|y ys]; simpl;
    try (split; [discriminate | congruence]); [tauto|].
  rewrite andb_true_iff, String.eqb_eq, IH. split.
  - now intros [-> ->].
  - now intros [= -> ->].
Qed.

End ArrayFacts.

(** ** [_set_loaded_sigma] *)

Module LoadedSigmaFacts.
Import InitialSelfEnergies LoopFacts ArrayFacts.

Section LoadedSigma.
Context {R : Type} `{Scalar R} {Dyn : Type}.
Variable rotloc_toLocal : @SumkDFT R Dyn -> nat -> @gf R -> @gf R.
Variable put_Sigma :
  @SumkDFT R Dyn -> list (@BlockGf R) -> result (list (@BlockGf R)).
Variable rotate_dc : @SumkDFT R Dyn -> nat -> @matrix R -> @matrix R.

Implicit Types (sum_k : @SumkDFT R Dyn) (sigma : list (@BlockGf R)).

Local Abbreviation _set_loaded_sigma :=
  (_set_loaded_sigma rotloc_toLocal put_Sigma rotate_dc).
Local Abbreviation _sumk_sigma_to_solver_struct :=
  (_sumk_sigma_to_solver_struct rotloc_toLocal).
Local Abbreviation add_dc := (add_dc rotate_dc).

(** The names of the types stand in the way of rewriting. *)
Ltac unalias := unfold BlockGf, gf, matrix in *.

(** *** The comparison of the loaded and the calculated double counting *)

Lemma channel_changed_agree channels (loaded calc : dict (@matrix R)) :
  (forall channel, In channel channels ->
     exists a b, dict_find loaded channel = Some a
                 /\ dict_find calc channel = Some b
                 /\ allclose a b = Ok true) ->
  channel_changed channels loaded calc = Ok false.
Proof.
  induction channels as [|ch channels IH]; intros Hag; [reflexivity|].
  simpl. destruct (Hag ch) as (a & b & Ha & Hb & Hc); [now left|].
  rewrite (dict_find_get _ _ _ Ha), (dict_find_get _ _ _ Hb). simpl.
  rewrite Hc. simpl. apply IH. intros c Hin. apply Hag. now right.
Qed.

Lemma channel_changed_false channels (loaded calc : dict (@matrix R)) :
  channel_changed channels loaded calc = Ok false ->
  forall channel, In channel channels ->
    exists a b, dict_find loaded channel = Some a
                /\ dict_find calc channel = Some b
                /\ allclose a b = Ok true.
Proof.
  induction channels as [|ch channels IH]; simpl; intros Hc channel Hin;
    [destruct Hin|].
  apply bind_Ok in Hc as (a & Ha & Hc).
  apply bind_Ok in Hc as (b & Hb & Hc).
  apply bind_Ok in Hc as ([|] & Hab & Hc); [|discriminate].
  destruct Hin as [<-|Hin]; [|now apply IH].
  exists a, b. auto using dict_get_Ok.
Qed.

Lemma compare_shells_agree (loaded_dc_imp calc_dc_imp : list (dict (@matrix R)))
    changed :
  dc_agree loaded_dc_imp calc_dc_imp ->
  for_each (zip loaded_dc_imp calc_dc_imp)
    (fun changed shells =>
       let '(loaded_dc_shell, calc_dc_shell) := shells in
       if strings_eqb (sorted (keys loaded_dc_shell))
                      (sorted (keys calc_dc_shell))
       then
         c ← channel_changed (keys loaded_dc_shell)
               loaded_dc_shell calc_dc_shell;
         Ok (changed || c)
       else Raise ValueError)
    changed = Ok changed.
Proof.
  intros Hag. revert changed.
  induction Hag as [|l c ls cs [Hkeys Hch] _ IH]; intros changed;
    [reflexivity|].
  simpl. apply strings_eqb_eq in Hkeys. rewrite Hkeys.
  rewrite (channel_changed_agree _ _ _ Hch). simpl.
  rewrite orb_false_r. apply IH.
Qed.

Lemma compare_shells_false (loaded_dc_imp calc_dc_imp : list (dict (@matrix R)))
    changed :
  length loaded_dc_imp = length calc_dc_imp ->
  for_each (zip loaded_dc_imp calc_dc_imp)
    (fun changed shells =>
       let '(loaded_dc_shell, calc_dc_shell) := shells in
       if strings_eqb (sorted (keys loaded_dc_shell))
                      (sorted (keys calc_dc_shell))
       then
         c ← channel_changed (keys loaded_dc_shell)
               loaded_dc_shell calc_dc_shell;
         Ok (changed || c)
       else Raise ValueError)
    changed = Ok false ->
  dc_agree loaded_dc_imp calc_dc_imp.
Proof.
  revert calc_dc_imp changed.
  induction loaded_dc_imp as [|l ls IH]; intros [|c cs] changed Hlen Hf;
    try discriminate; [constructor|].
  simpl in Hf. apply bind_Ok in Hf as (changed' & Hb & Hf).
  destruct (strings_eqb _ _) eqn:Hkeys; [|discriminate].
  apply bind_Ok in Hb as (ch & Hch & Hb). injection Hb as <-.
  assert (Hrest := Hf).
  apply IH in Hrest; [|simpl in Hlen; lia].
  constructor; [|assumption]. split; [now apply strings_eqb_eq|].
  assert (Hfalse : changed || ch = false).
  { rewrite (compare_shells_agree _ _ (changed || ch) Hrest) in Hf.
    now injection Hf. }
  apply orb_false_elim in Hfalse as [_ ->].
  intros channel Hin. eapply channel_changed_false; eauto.
Qed.

(** The flag is [False] exactly when the two agree. *)
Lemma has_double_counting_changed_spec
    (loaded_dc_imp calc_dc_imp : list (dict (@matrix R))) :
  (dc_agree loaded_dc_imp calc_dc_imp ->
   has_double_counting_changed loaded_dc_imp calc_dc_imp = Ok false)
  /\ (length loaded_dc_imp = length calc_dc_imp ->
      forall changed,
        has_double_counting_changed loaded_dc_imp calc_dc_imp = Ok changed ->
        ~ dc_agree loaded_dc_imp calc_dc_imp -> changed = true).
Proof.
  unfold has_double_counting_changed. split.
  - intros Hag. now apply compare_shells_agree.
  - intros Hlen [|] Hc Hnot; [reflexivity|].
    exfalso. apply Hnot. eapply compare_shells_false; eauto.
Qed.

(** *** The two ways through [_set_loaded_sigma] *)

Lemma set_loaded_sigma_unchanged sum_k loaded_sigma loaded_dc_imp :
  dc_agree loaded_dc_imp (dc_imp sum_k) ->
  _set_loaded_sigma sum_k loaded_sigma loaded_dc_imp
  = Ok (sum_k, loaded_sigma).
Proof.
  intros Hag. unfold InitialSelfEnergies._set_loaded_sigma.
  assert (Hlen := Forall2_length _ _ _ Hag). rewrite Hlen, Nat.eqb_refl.
  simpl.
  rewrite (proj1 (has_double_counting_changed_spec _ _) Hag). reflexivity.
Qed.

Lemma set_loaded_sigma_correction sum_k loaded_sigma loaded_dc_imp
    sum_k' start_sigma :
  ~ dc_agree loaded_dc_imp (dc_imp sum_k) ->
  _set_loaded_sigma sum_k loaded_sigma loaded_dc_imp
  = Ok (sum_k', start_sigma) ->
  exists sigma delta corrected,
    put_Sigma sum_k loaded_sigma = Ok sigma
    /\ dc_difference (dc_imp sum_k) loaded_dc_imp = Ok delta
    /\ add_dc (set_dc_imp (set_Sigma_imp sum_k sigma) delta) = Ok corrected
    /\ _sumk_sigma_to_solver_struct
         (set_dc_imp (set_Sigma_imp sum_k sigma) delta) corrected
       = Ok start_sigma
    /\ sum_k'
       = set_Sigma_imp
           (set_dc_imp (set_dc_imp (set_Sigma_imp sum_k sigma) delta)
              (dc_imp sum_k))
           (map zero sigma).
Proof.
  intros Hnot. unfold InitialSelfEnergies._set_loaded_sigma.
  destruct (length loaded_dc_imp =? length (dc_imp sum_k)) eqn:Hlen;
    [|discriminate]. apply Nat.eqb_eq in Hlen. simpl.
  intros Hrun. apply bind_Ok in Hrun as (changed & Hch & Hrun).
  rewrite (proj2 (has_double_counting_changed_spec _ _) Hlen _ Hch Hnot)
    in Hrun. simpl in Hrun.
  apply bind_Ok in Hrun as (sigma & Hput & Hrun).
  apply bind_Ok in Hrun as (delta & Hdelta & Hrun).
  apply bind_Ok in Hrun as (corrected & Hadd & Hrun).
  apply bind_Ok in Hrun as (solver_sigma & Hsolver & Hrun).
  apply bind_Ok in Hrun as (imp0 & _ & Hrun).
  apply bind_Ok in Hrun as (first_block & _ & Hrun).
  apply bind_Ok in Hrun as (shifted_from & _ & Hrun).
  apply bind_Ok in Hrun as (shifted_to & _ & Hrun).
  injection Hrun as <- <-.
  exists sigma, delta, corrected. auto.
Qed.

(** *** The zeroth orbital through the correction *)

Lemma orbital0_Ok sigma ish block w v :
  orbital0 sigma ish block w = Ok v ->
  exists imp g m,
    sigma !! ish = Some imp /\ dict_find imp block = Some g
    /\ g !! w = Some m /\ entry m 0 0 = Ok v.
Proof.
  unfold orbital0. intros Ho.
  apply bind_Ok in Ho as (imp & Himp & Ho).
  apply bind_Ok in Ho as (g & Hg & Ho).
  apply bind_Ok in Ho as (m & Hm & Ho).
  exists imp, g, m. auto using getitem_Ok, dict_get_Ok.
Qed.

Lemma orbital0_intro sigma ish block w v imp g m :
  sigma !! ish = Some imp -> dict_find imp block = Some g ->
  g !! w = Some m -> entry m 0 0 = Ok v ->
  orbital0 sigma ish block w = Ok v.
Proof.
  intros Himp Hg Hm Hv. unfold orbital0. unalias.
  rewrite (getitem_Some _ _ _ Himp). simpl.
  rewrite (dict_find_get _ _ _ Hg). simpl.
  rewrite (getitem_Some _ _ _ Hm). simpl. assumption.
Qed.

Lemma dc_orbital0_Ok (dc : list (dict (@matrix R))) icrsh block v :
  dc_orbital0 dc icrsh block = Ok v ->
  exists dc_shell m,
    dc !! icrsh = Some dc_shell /\ dict_find dc_shell block = Some m
    /\ entry m 0 0 = Ok v.
Proof.
  unfold dc_orbital0. intros Ho.
  apply bind_Ok in Ho as (sh & Hsh & Ho).
  apply bind_Ok in Ho as (m & Hm & Ho).
  exists sh, m. auto using getitem_Ok, dict_get_Ok.
Qed.

(** [loaded - calculated] at the zeroth orbital. *)
Lemma dc_difference_orbital0
    (calc_dc_imp loaded_dc_imp delta : list (dict (@matrix R)))
    icrsh block old new :
  dc_difference calc_dc_imp loaded_dc_imp = Ok delta ->
  dc_orbital0 loaded_dc_imp icrsh block = Ok old ->
  dc_orbital0 calc_dc_imp icrsh block = Ok new ->
  dc_orbital0 delta icrsh block = Ok (ssub old new).
Proof.
  intros Hd Hold Hnew.
  apply dc_orbital0_Ok in Hold as (lsh & a & Hl & Ha & Hold).
  apply dc_orbital0_Ok in Hnew as (csh & b & Hc & Hb & Hnew).
  unfold dc_difference in Hd.
  assert (Hzip : zip calc_dc_imp loaded_dc_imp !! icrsh = Some (csh, lsh)).
  { rewrite lookup_zip_with, Hc, Hl. reflexivity. }
  destruct (comprehension_lookup _ _ _ _ _ Hd Hzip) as (dsh & Hdsh & Hdelta).
  simpl in Hdsh.
  pose (F := fun channel : string =>
    a ← dict_get lsh channel; b ← dict_get csh channel; np_sub a b).
  assert (Hbody : forall k r,
    (a ← dict_get lsh k; b ← dict_get csh k; m ← np_sub a b; Ok (k, m))
    = Ok r -> exists w, F k = Ok w /\ r = (k, w)).
  { intros k r Hr. unfold F.
    apply bind_Ok in Hr as (a' & -> & Hr). simpl.
    apply bind_Ok in Hr as (b' & -> & Hr). simpl.
    apply bind_Ok in Hr as (m' & -> & Hr).
    injection Hr as <-. eauto. }
  destruct (comprehension_keys_find _ F _ _ Hbody Hdsh block
              (dict_find_keys _ _ _ Ha)) as (m & Hm & Hfind).
  unfold F in Hm. unalias.
  rewrite (dict_find_get _ _ _ Ha), (dict_find_get _ _ _ Hb) in Hm.
  simpl in Hm.
  unfold dc_orbital0. unalias. rewrite (getitem_Some _ _ _ Hdelta). simpl.
  rewrite (dict_find_get _ _ _ Hfind). simpl.
  eapply np_sub_entry00; eauto.
Qed.

(** [add_dc] on one correlated shell. *)
Lemma add_dc_shell sum_k corrected icrsh imp :
  add_dc sum_k = Ok corrected ->
  icrsh < n_corr_shells sum_k ->
  Sigma_imp sum_k !! icrsh = Some imp ->
  exists imp',
    corrected !! icrsh = Some imp'
    /\ comprehension
         (fun bg : string * list (list (list R)) =>
            dc_shell ← getitem (dc_imp sum_k) icrsh;
            dc ← dict_get dc_shell (fst bg);
            g ← gf_minus (snd bg)
                  (if use_rotations sum_k then rotate_dc sum_k icrsh dc
                   else dc);
            Ok (fst bg, g))
         imp = Ok imp'.
Proof.
  intros Hadd Hi Himp.
  unfold InitialSelfEnergies.add_dc in Hadd.
  pose (Q := fun (icrsh : nat) (old : option (@BlockGf R))
                 (new : @BlockGf R) =>
    exists blocks, old = Some blocks /\
      comprehension
         (fun bg : string * list (list (list R)) =>
            dc_shell ← getitem (dc_imp sum_k) icrsh;
            dc ← dict_get dc_shell (fst bg);
            g ← gf_minus (snd bg)
                  (if use_rotations sum_k then rotate_dc sum_k icrsh dc
                   else dc);
            Ok (fst bg, g))
         blocks = Ok new).
  assert (Hbody : forall s i s',
    (blocks ← getitem s i;
     blocks' ←
       comprehension
         (fun bg : string * gf =>
            dc_shell ← getitem (dc_imp sum_k) i;
            dc ← dict_get dc_shell (fst bg);
            let dccont :=
              if use_rotations sum_k then rotate_dc sum_k i dc else dc in
            g ← gf_minus (snd bg) dccont;
            Ok (fst bg, g))
         blocks;
     setitem s i blocks') = Ok s' ->
    exists v, Q i (s !! i) v /\ s' = <[i := v]> s /\ i < length s).
  { intros s i s' Hb.
    apply bind_Ok in Hb as (blocks & Hsig & Hb).
    apply bind_Ok in Hb as (blocks' & Hcomp & Hb).
    apply setitem_Ok in Hb as [-> Hlen].
    exists blocks'. split; [|auto].
    exists blocks. split; [now apply getitem_Ok | exact Hcomp]. }
  destruct (for_each_seq_writes Q _ Hbody _ _ _ _ Hadd) as (_ & _ & Hin).
  destruct (Hin icrsh) as (imp' & (sigma0 & Hs0 & Hblocks) & Himp'); [lia|].
  pose proof (eq_trans (eq_sym Himp) Hs0) as Heq. injection Heq as <-.
  exists imp'. split; assumption.
Qed.

(** [add_dc] on one block: the block less the double counting of the
    block, which is rotated when rotations are used. *)
Lemma add_dc_block sum_k corrected icrsh imp block g dc_shell dc :
  add_dc sum_k = Ok corrected ->
  icrsh < n_corr_shells sum_k ->
  Sigma_imp sum_k !! icrsh = Some imp ->
  dict_find imp block = Some g ->
  dc_imp sum_k !! icrsh = Some dc_shell ->
  dict_find dc_shell block = Some dc ->
  exists imp' g',
    corrected !! icrsh = Some imp'
    /\ dict_find imp' block = Some g'
    /\ gf_minus g (if use_rotations sum_k then rotate_dc sum_k icrsh dc
                   else dc) = Ok g'.
Proof.
  intros Hadd Hi Himp Hg Hdsh Hdc.
  destruct (add_dc_shell _ _ _ _ Hadd Hi Himp) as (imp' & Himp' & Hc).
  pose (F := fun (bname : string) (g : list (list (list R))) =>
    dc_shell ← getitem (dc_imp sum_k) icrsh;
    dc ← dict_get dc_shell bname;
    gf_minus g (if use_rotations sum_k then rotate_dc sum_k icrsh dc
                else dc)).
  assert (Hbody : forall (kv : string * list (list (list R))) r,
    (dc_shell ← getitem (dc_imp sum_k) icrsh;
     dc ← dict_get dc_shell (fst kv);
     g ← gf_minus (snd kv)
           (if use_rotations sum_k then rotate_dc sum_k icrsh dc else dc);
     Ok (fst kv, g)) = Ok r ->
    exists w, F (fst kv) (snd kv) = Ok w /\ r = (fst kv, w)).
  { intros kv r Hr. unfold F.
    apply bind_Ok in Hr as (x & -> & Hr). simpl.
    apply bind_Ok in Hr as (y & -> & Hr). simpl.
    apply bind_Ok in Hr as (z & -> & Hr).
    injection Hr as <-. eauto. }
  destruct (comprehension_dict_find _ F _ _ Hbody Hc _ _ Hg)
    as (g' & Hg' & Hfind).
  unfold F in Hg'. unalias. rewrite (getitem_Some _ _ _ Hdsh) in Hg'.
  simpl in Hg'. rewrite (dict_find_get _ _ _ Hdc) in Hg'. simpl in Hg'.
  exists imp', g'. auto.
Qed.

(** In the local frame the block is less the double counting itself. *)
Lemma local_frame_minus sum_k icrsh (g g' : @gf R) (dc : @matrix R) :
  (use_rotations sum_k = true ->
   rotations_cancel rotloc_toLocal rotate_dc sum_k icrsh g dc) ->
  gf_minus g (if use_rotations sum_k then rotate_dc sum_k icrsh dc else dc)
  = Ok g' ->
  gf_minus (local_frame rotloc_toLocal sum_k icrsh g) dc
  = Ok (local_frame rotloc_toLocal sum_k icrsh g').
Proof.
  unfold local_frame. intros Hlaw Hminus.
  destruct (use_rotations sum_k); [|assumption].
  now apply (Hlaw eq_refl).
Qed.

(** [add_dc] keeps the mesh. *)
Lemma add_dc_mesh sum_k corrected icrsh imp :
  add_dc sum_k = Ok corrected ->
  icrsh < n_corr_shells sum_k ->
  Sigma_imp sum_k !! icrsh = Some imp ->
  exists imp', corrected !! icrsh = Some imp'
               /\ mesh_size imp' = mesh_size imp.
Proof.
  intros Hadd Hi Himp.
  destruct (add_dc_shell _ _ _ _ Hadd Hi Himp) as (imp' & Himp' & Hc).
  exists imp'. split; [assumption|].
  destruct imp as [|[k g] imp]; simpl in Hc.
  - now injection Hc as <-.
  - apply bind_Ok in Hc as (r & Hr & Hc).
    apply bind_Ok in Hc as (rs & _ & Hc). injection Hc as <-.
    apply bind_Ok in Hr as (x & _ & Hr).
    apply bind_Ok in Hr as (y & _ & Hr).
    apply bind_Ok in Hr as (g' & Hg' & Hr). injection Hr as <-.
    simpl. unfold gf_minus in Hg'. now apply comprehension_length in Hg'.
Qed.

Lemma dict_find_map_values {V W} (f : V -> W) (d : dict V) k v :
  dict_find d k = Some v ->
  dict_find (map (fun kv => (fst kv, f (snd kv))) d) k = Some (f v).
Proof.
  induction d as [|[k' v'] d IH]; simpl; [discriminate|].
  destruct (String.eqb k k'); [|exact IH].
  intros Hv. now injection Hv as ->.
Qed.

(** The rotation loop of [_sumk_sigma_to_solver_struct], block by
    block. *)
Lemma rotation_loop_block sum_k (Sigma_copy : list (@BlockGf R)) icrsh imp
    block g :
  Sigma_copy !! icrsh = Some imp ->
  dict_find imp block = Some g ->
  exists imp_local,
    (if use_rotations sum_k then
       imap (fun icrsh (sigma : @BlockGf R) =>
               map (fun bg => (fst bg, rotloc_toLocal sum_k icrsh (snd bg)))
                   sigma)
            Sigma_copy
     else Sigma_copy) !! icrsh = Some imp_local
    /\ dict_find imp_local block
       = Some (local_frame rotloc_toLocal sum_k icrsh g).
Proof.
  intros Himp Hg. unfold local_frame.
  destruct (use_rotations sum_k).
  - eexists. split.
    + rewrite list_lookup_imap. unalias. rewrite Himp. reflexivity.
    + now apply (dict_find_map_values (rotloc_toLocal sum_k icrsh)).
  - eauto.
Qed.

(** The change to the solver blocks at the zeroth orbital: the entry, in
    the local frame, of the lattice block that [solver_to_sumk] names. *)
Lemma solver_struct_orbital0 sum_k corrected out ish icrsh block bs dim
    struct s2s first w imp g m v :
  _sumk_sigma_to_solver_struct sum_k corrected = Ok out ->
  ish < n_inequiv_shells sum_k ->
  inequiv_to_corr sum_k !! ish = Some icrsh ->
  icrsh < n_corr_shells sum_k ->
  gf_struct_solver sum_k !! ish = Some struct ->
  dict_find struct block = Some dim -> 0 < dim ->
  solver_to_sumk sum_k !! ish = Some s2s ->
  map_find s2s (block, 0) = Some (bs, 0) ->
  corrected !! 0 = Some first -> w < mesh_size first ->
  corrected !! icrsh = Some imp ->
  dict_find imp bs = Some g ->
  local_frame rotloc_toLocal sum_k icrsh g !! w = Some m ->
  entry m 0 0 = Ok v ->
  orbital0 out ish block w = Ok v.
Proof.
  intros Hrun Hish Hineq Hicrsh Hstruct Hdim Hpos Hs2s Hmap Hfirst Hw
    Himp Hgsrc Hm Hv.
  unfold InitialSelfEnergies._sumk_sigma_to_solver_struct in Hrun.
  apply bind_Ok in Hrun as (Sigma_copy & Hloc & Hout).
  assert (Hcopy : forall i x, i < n_corr_shells sum_k ->
            corrected !! i = Some x -> Sigma_copy !! i = Some x).
  { intros i x Hi Hx.
    destruct (comprehension_seq_lookup _ _ _ _ Hloc Hi) as (y & Hy & HS).
    apply getitem_Ok in Hy.
    pose proof (eq_trans (eq_sym Hx) Hy) as Heq. injection Heq as <-.
    assumption. }
  destruct (rotation_loop_block sum_k Sigma_copy icrsh imp bs g
              (Hcopy _ _ Hicrsh Himp) Hgsrc)
    as (imp_local & Hlocal & Hglocal).
  set (Sigma_local :=
         if use_rotations sum_k then
           imap (fun icrsh (sigma : @BlockGf R) =>
                   map (fun bg =>
                          (fst bg, rotloc_toLocal sum_k icrsh (snd bg)))
                       sigma)
                Sigma_copy
         else Sigma_copy) in *.
  destruct (comprehension_seq_lookup _ _ _ _ Hout Hish)
    as (blocks & Hblocks & Hout_ish).
  unalias. rewrite (getitem_Some _ _ _ Hstruct) in Hblocks.
  simpl in Hblocks.
  pose (F := fun (block : string) (dim : nat) =>
    solver_block sum_k Sigma_copy Sigma_local ish block dim).
  assert (Hbody : forall (kv : string * nat) r,
    (g ← solver_block sum_k Sigma_copy Sigma_local ish (fst kv) (snd kv);
     Ok (fst kv, g)) = Ok r ->
    exists w, F (fst kv) (snd kv) = Ok w /\ r = (fst kv, w)).
  { intros kv r Hr. unfold F.
    apply bind_Ok in Hr as (x & -> & Hr). injection Hr as <-. eauto. }
  destruct (comprehension_dict_find _ F _ _ Hbody Hblocks _ _ Hdim)
    as (g_out & Hg & Hfind).
  unfold F, solver_block in Hg. unalias.
  rewrite (getitem_Some _ _ _ (Hcopy 0 first ltac:(lia) Hfirst)) in Hg.
  simpl in Hg.
  apply bind_Ok in Hg as (sources & Hsrc & Hdata).
  destruct (comprehension_seq_lookup _ _ _ _ Hdata Hw)
    as (mrows & Hmrows & Hgw).
  destruct (comprehension_seq_lookup _ _ _ _ Hsrc Hpos)
    as (row0 & Hrow0 & Hsources0).
  destruct (comprehension_seq_lookup _ _ _ _ Hrow0 Hpos)
    as (src & Hsrc0 & Hrow00).
  rewrite (getitem_Some _ _ _ Hs2s) in Hsrc0. simpl in Hsrc0.
  unfold map_get in Hsrc0. rewrite Hmap in Hsrc0. simpl in Hsrc0.
  rewrite (getitem_Some _ _ _ Hineq) in Hsrc0. simpl in Hsrc0.
  rewrite (getitem_Some _ _ _ Hlocal) in Hsrc0.
  simpl in Hsrc0.
  rewrite (dict_find_get _ _ _ Hglocal) in Hsrc0. simpl in Hsrc0.
  injection Hsrc0 as <-.
  destruct (comprehension_lookup _ _ _ _ _ Hmrows Hsources0)
    as (r & Hr & Hmrows0).
  destruct (comprehension_lookup _ _ _ _ _ Hr Hrow00) as (v' & Hv' & Hr0).
  simpl in Hv'. rewrite (getitem_Some _ _ _ Hm) in Hv'. simpl in Hv'.
  assert (v' = v) as -> by congruence.
  eapply orbital0_intro; eauto.
  unfold entry. rewrite (getitem_Some _ _ _ Hmrows0). simpl.
  now apply getitem_Some.
Qed.

(** [zero] keeps the blocks and their shape. *)
Lemma zero_zeroed (sigma : @BlockGf R) : zeroed sigma (zero sigma).
Proof.
  unfold zeroed, zero, gf_zero.
  induction sigma as [|[k g] sigma IH]; constructor; [|exact IH].
  split; [reflexivity|]. simpl.
  induction g as [|m g IHg]; constructor; [|exact IHg].
  induction m as [|row m IHm]; constructor; [|exact IHm].
  split; [now rewrite length_map|].
  apply List.Forall_forall. intros x Hx.
  now apply in_map_iff in Hx as (x0 & <- & _).
Qed.

(** C4: when the loaded and the calculated double counting agree, the
    loaded self-energy comes back as it is; when they do not, what comes
    back is the loaded self-energy as [put_Sigma] hands it to the lattice,
    less [loaded - calculated] by [add_dc], in the solver blocks, so that
    the zeroth orbital of a block is the loaded one less
    [old_dc - new_dc]; when rotations are used, this rests on the two
    rotations of the lattice embedding cancelling each other on the
    block. *)
Theorem set_loaded_sigma_corrects_hartree_shift sum_k loaded_sigma
    loaded_dc_imp :
  (dc_agree loaded_dc_imp (dc_imp sum_k) ->
   _set_loaded_sigma sum_k loaded_sigma loaded_dc_imp
   = Ok (sum_k, loaded_sigma))
  /\ (~ dc_agree loaded_dc_imp (dc_imp sum_k) ->
      forall sum_k' start_sigma,
        _set_loaded_sigma sum_k loaded_sigma loaded_dc_imp
        = Ok (sum_k', start_sigma) ->
        exists sigma delta corrected,
          put_Sigma sum_k loaded_sigma = Ok sigma
          /\ dc_difference (dc_imp sum_k) loaded_dc_imp = Ok delta
          /\ add_dc (set_dc_imp (set_Sigma_imp sum_k sigma) delta)
             = Ok corrected
          /\ _sumk_sigma_to_solver_struct
               (set_dc_imp (set_Sigma_imp sum_k sigma) delta) corrected
             = Ok start_sigma
          /\ forall ish icrsh block bs dim struct s2s first imp g m w
                    loaded old new,
               (use_rotations sum_k = true ->
                forall dc_shell dc,
                  delta !! icrsh = Some dc_shell ->
                  dict_find dc_shell bs = Some dc ->
                  rotations_cancel rotloc_toLocal rotate_dc
                    (set_dc_imp (set_Sigma_imp sum_k sigma) delta)
                    icrsh g dc) ->
               ish < n_inequiv_shells sum_k ->
               inequiv_to_corr sum_k !! ish = Some icrsh ->
               icrsh < n_corr_shells sum_k ->
               gf_struct_solver sum_k !! ish = Some struct ->
               dict_find struct block = Some dim -> 0 < dim ->
               solver_to_sumk sum_k !! ish = Some s2s ->
               map_find s2s (block, 0) = Some (bs, 0) ->
               sigma !! 0 = Some first -> w < mesh_size first ->
               orbital0 loaded_sigma ish block w = Ok loaded ->
               sigma !! icrsh = Some imp ->
               dict_find imp bs = Some g ->
               local_frame rotloc_toLocal
                 (set_dc_imp (set_Sigma_imp sum_k sigma) delta) icrsh g !! w
               = Some m ->
               entry m 0 0 = Ok loaded ->
               dc_orbital0 loaded_dc_imp icrsh bs = Ok old ->
               dc_orbital0 (dc_imp sum_k) icrsh bs = Ok new ->
               orbital0 start_sigma ish block w
               = Ok (ssub loaded (ssub old new))).
Proof.
  split; [apply set_loaded_sigma_unchanged|].
  intros Hnot sum_k' start_sigma Hrun.
  destruct (set_loaded_sigma_correction _ _ _ _ _ Hnot Hrun)
    as (sigma & delta & corrected & Hput & Hdelta & Hadd & Hsolver & _).
  exists sigma, delta, corrected. repeat (split; [assumption|]).
  intros ish icrsh block bs dim struct s2s first imp g m w loaded old new
    Hlaw Hish Hineq Hicrsh Hstruct Hdim Hpos Hs2s Hmap Hfirst Hw
    _ Himp Hg Hm Hloaded Hold Hnew.
  set (s := set_dc_imp (set_Sigma_imp sum_k sigma) delta) in *.
  destruct (add_dc_mesh s _ 0 first Hadd ltac:(simpl; lia) Hfirst)
    as (first' & Hfirst' & Hmesh).
  pose proof (dc_difference_orbital0 _ _ _ _ _ _ _ Hdelta Hold Hnew) as Hd.
  apply dc_orbital0_Ok in Hd as (dc_shell & dc & Hdsh & Hdc & Hentry).
  destruct (add_dc_block s _ icrsh imp bs g dc_shell dc Hadd Hicrsh Himp Hg
              Hdsh Hdc)
    as (imp' & g' & Himp' & Hg' & Hminus).
  apply (local_frame_minus s icrsh g g' dc
           (fun Hrot => Hlaw Hrot dc_shell dc Hdsh Hdc)) in Hminus.
  unfold gf_minus in Hminus.
  destruct (comprehension_lookup _ _ _ _ _ Hminus Hm) as (m' & Hsub & Hm').
  eapply (solver_struct_orbital0 s corrected start_sigma ish icrsh block bs
            dim struct s2s first' w imp' g' m'); eauto.
  - lia.
  - eapply np_sub_entry00; eauto.
Qed.

(** C10: when the correction is applied, [dc_imp] is on return the
    calculated double counting that it was at the call, and [Sigma_imp]
    is what [put_Sigma] left there, set to zero in place: the same list
    of self-energies with the same blocks on the same mesh, every entry
    zero. *)
Theorem set_loaded_sigma_restores_double_counting sum_k loaded_sigma
    loaded_dc_imp sum_k' start_sigma :
  ~ dc_agree loaded_dc_imp (dc_imp sum_k) ->
  _set_loaded_sigma sum_k loaded_sigma loaded_dc_imp
  = Ok (sum_k', start_sigma) ->
  dc_imp sum_k' = dc_imp sum_k
  /\ dc_energ sum_k' = dc_energ sum_k
  /\ exists sigma, put_Sigma sum_k loaded_sigma = Ok sigma
                   /\ Forall2 zeroed sigma (Sigma_imp sum_k').
Proof.
  intros Hnot Hrun.
  destruct (set_loaded_sigma_correction _ _ _ _ _ Hnot Hrun)
    as (sigma & delta & corrected & Hput & _ & _ & _ & ->).
  simpl. repeat split. exists sigma. split; [assumption|].
  clear. induction sigma as [|s sigma IH]; constructor;
    [apply zero_zeroed | exact IH].
Qed.

End LoadedSigma.
End LoadedSigmaFacts.

(** * The properties on the concrete runs *)

Module Runs.
Import Examples.

Section DmftCycleRuns.
Import DmftCycle DmftCycleFacts BlockStructureFacts.

(** C1, as the claim has it, fails: a flag that was true on entry comes
    back false when the check returns [None]. *)
Lemma dmft_step_resets_flag_on_undecided_check :
  undecided (idle tt 1 false) = None
  /\ snd (_dmft_step idle undecided tt 1 true false) = false.
Proof. split; reflexivity. Qed.

Lemma dmft_step_keeps_flag_witness :
  snd (_dmft_step idle not_converged tt 1 true false) = true
  /\ snd (_dmft_step idle undecided tt 1 true false) = false.
Proof.
  split.
  - apply (proj1 (dmft_step_keeps_flag_on_decided_check idle not_converged
                    tt 1 false) false).
    reflexivity.
  - apply (proj2 (dmft_step_keeps_flag_on_decided_check idle undecided
                    tt 1 false)).
    reflexivity.
Defined.

Lemma extract_quantity_per_inequiv_witness :
  (exists expanded,
     _extract_quantity_per_inequiv "U" 2 two_shell_params = Ok expanded
     /\ expanded !! "U" = Some (PyList [Atom 4%Z; Atom 4%Z]))
  /\ _extract_quantity_per_inequiv "J" 2 two_shell_params
     = Ok two_shell_params
  /\ _extract_quantity_per_inequiv "dc_type" 2 two_shell_params
     = Raise IndexError
  /\ exists e,
       dmft_cycle idle undecided never_raises 2 two_shell_params
         two_shell_params 0 5 0 tt
       = ([], Raise e).
Proof.
  destruct (extract_quantity_per_inequiv_expands idle undecided never_raises
              "U" 2 two_shell_params) as (HU & _ & _).
  destruct (extract_quantity_per_inequiv_expands idle undecided never_raises
              "J" 2 two_shell_params) as (_ & HJ & _).
  destruct (extract_quantity_per_inequiv_expands idle undecided never_raises
              "dc_type" 2 two_shell_params) as (_ & _ & Hdc).
  destruct (HU 4%Z) as (expanded & Hx & Hl & _); [reflexivity|].
  destruct (Hdc [Atom 0%Z]) as [Hraise Hcycle];
    [reflexivity | simpl; lia |].
  split; [exists expanded; split; assumption|].
  split; [apply (HJ [Atom 1%Z; Atom 1%Z]); reflexivity|].
  split; [assumption|].
  apply Hcycle. simpl. tauto.
Defined.

(** C5 on the code: the group that a manual mapping hands in with the
    labels 'up_0' and 'updown_1' is kept, and it holds a label with 'up'
    next to a label with 'down'. *)
Lemma degeneracy_group_mixes_up_and_down :
  exists sum_k' deg_orbs_ftps,
    _determine_block_structure analyse_one_group map_nothing (one_shell 0)
      magnetic_run mapped_mixed_labels ["cthyb"] tt
    = Ok (sum_k', deg_orbs_ftps)
    /\ deg_shells (block_structure sum_k') = [Some [["up_0"; "updown_1"]]]
    /\ up_label "up_0" /\ down_label "updown_1".
Proof.
  eexists. eexists. split; [vm_compute; reflexivity|].
  split; [reflexivity|]. split; reflexivity.
Qed.

Lemma determine_block_structure_witness :
  (forall site,
     In site [Some [["up_0"; "up_1"]; ["down_0"; "down_1"]]] ->
     exists groups, site = Some groups /\
       forall g, In g groups ->
         (Forall up_label g \/ Forall down_label g)
         /\ (Forall (fun l => ~ (up_label l /\ down_label l)) g ->
             ~ exists l_up l_down,
                 In l_up g /\ In l_down g
                 /\ up_label l_up /\ down_label l_down))
  /\ deg_shells
       (block_structure
          {| SO := 1; n_inequiv_shells := 1;
             block_structure :=
               {| gf_struct_solver := tt; deg_shells := [Some []] |} |})
     = replicate 1 (Some []).
Proof.
  split.
  - apply (proj1 (determine_block_structure_degeneracies
                    analyse_one_group map_nothing (one_shell 0) magnetic_run
                    no_manual_struct ["cthyb"] tt _ _ eq_refl));
      reflexivity.
  - apply (proj2 (determine_block_structure_degeneracies
                    analyse_one_group map_nothing (one_shell 1) magnetic_run
                    no_manual_struct ["cthyb"] tt _ _ eq_refl));
      reflexivity.
Defined.
End DmftCycleRuns.

Section DoubleCountingRuns.
Import InitialSelfEnergies DoubleCountingFacts.

(** C2 on the code: two shifts for the one orbital there is are taken,
    and give what the first of them alone gives; three shifts for an
    impurity with one orbital and one with two raise the exception of a
    ragged array. *)
Theorem orb_shift_count_is_not_checked :
  (exists (h : store Q) (s : @SumkDFT Q unit),
     double_counting one_orbital half_filled_store half_filled fll
       (with_orb_shift [1%Q; 2%Q]) ["cthyb"] = Ok (h, s)
     /\ double_counting one_orbital half_filled_store half_filled fll
          (with_orb_shift [1%Q]) ["cthyb"] = Ok (h, s))
  /\ double_counting two_impurities two_impurities_store
       two_impurities_density fll_both three_shifts ["cthyb"; "cthyb"]
     = Raise ValueError.
Proof.
  split; [|vm_compute; reflexivity].
  eexists. eexists. split; vm_compute; reflexivity.
Qed.

(** C3 on the code: the nominal correction with the 'hartree' solver is
    not refused. *)
Theorem nominal_with_hartree_is_not_refused :
  str_in_list "Hartree" ["hartree"] = false
  /\ returns (double_counting one_orbital half_filled_store half_filled fll
                nominal ["hartree"]).
Proof.
  split; [reflexivity|]. eexists. vm_compute. reflexivity.
Qed.

(** C6 on the code: the impurity of the 'hartree' solver comes back with
    the orbital shift as its double-counting potential. *)
Theorem hartree_site_gets_orbital_shift :
  exists (h : store Q) (s : @SumkDFT Q unit),
    double_counting one_orbital half_filled_store half_filled fll
      (with_orb_shift [1%Q]) ["hartree"] = Ok (h, s)
    /\ dc_imp s = [[("up", [[1%Q]]); ("down", [[1%Q]])]]
    /\ dc_imp s <> [[("up", [[0%Q]]); ("down", [[0%Q]])]].
Proof.
  eexists. eexists. split; [vm_compute; reflexivity|].
  split; [reflexivity | discriminate].
Qed.

Lemma half_filled_allocated : allocated half_filled_store half_filled.
Proof.
  intros d l Hd Hl. destruct Hd as [<-|[]].
  destruct Hl as [<-|[<-|[]]]; apply elem_of_dom; eexists; reflexivity.
Qed.

Lemma keeps_density_matrix_witness :
  exists (h : store Q) (s : @SumkDFT Q unit),
    double_counting one_orbital half_filled_store half_filled fll nominal
      ["cthyb"] = Ok (h, s)
    /\ preserves half_filled_store h
    /\ forall d, In d half_filled ->
         load_dict h d = load_dict half_filled_store d.
Proof.
  assert (E : exists (h : store Q) (s : @SumkDFT Q unit),
    double_counting one_orbital half_filled_store half_filled fll nominal
      ["cthyb"] = Ok (h, s)) by (eexists; eexists; vm_compute; reflexivity).
  destruct E as (h & s & E). exists h, s. split; [exact E|].
  destruct (calculate_double_counting_keeps_density_matrix
              unit_density potential_U energy_7 no_crpa
              half_filled_store one_orbital half_filled fll tt nominal
              ["cthyb"] h s E)
    as [Hp Hl].
  split; [exact Hp | exact (Hl half_filled_allocated)].
Defined.

(** C7 on the code: with [dc_fixed_value] set, a call with the nominal
    correction returns the fixed potential 2; it is not what the nominal
    correction, the rescaling by 2 and the orbital shift by 1 leave. *)
Lemma fixed_value_returns_before_the_nominal_hook :
  exists (h : store Q) (s : @SumkDFT Q unit),
    double_counting one_orbital half_filled_store half_filled fll
      fixed_value ["cthyb"] = Ok (h, s)
    /\ dc_nominal fixed_value = true
    /\ dc_imp s = [[("up", [[2%Q]]); ("down", [[2%Q]])]]
    /\ ~ nominal_correction unit_density potential_U energy_7 no_crpa
           half_filled_store one_orbital half_filled fll tt fixed_value
           ["cthyb"] h s.
Proof.
  eexists. eexists. split; [vm_compute; reflexivity|].
  split; [reflexivity|]. split; [reflexivity|].
  intros (h1 & dmDC & s0 & s_base & en & Hcopy & Hs0 & Hocc & Hbase & _
          & Hpost).
  vm_compute in Hcopy. injection Hcopy as <- <-.
  vm_compute in Hs0. injection Hs0 as <-.
  vm_compute in Hbase. injection Hbase as <-.
  vm_compute in Hpost. discriminate Hpost.
Qed.

Lemma nominal_dc_witness :
  exists (h : store Q) (s : @SumkDFT Q unit),
    double_counting one_orbital half_filled_store half_filled fll nominal
      ["cthyb"] = Ok (h, s)
    /\ nominal_correction unit_density potential_U energy_7 no_crpa
         half_filled_store one_orbital half_filled fll tt nominal
         ["cthyb"] h s.
Proof.
  assert (E : exists (h : store Q) (s : @SumkDFT Q unit),
    double_counting one_orbital half_filled_store half_filled fll nominal
      ["cthyb"] = Ok (h, s)) by (eexists; eexists; vm_compute; reflexivity).
  destruct E as (h & s & E). exists h, s. split; [exact E|].
  destruct (nominal_dc_freezes_potential
              unit_density potential_U energy_7 no_crpa
              half_filled_store one_orbital half_filled fll tt nominal
              ["cthyb"] h s eq_refl half_filled_allocated E)
    as [Hnominal _].
  exact (Hnominal eq_refl).
Defined.
End DoubleCountingRuns.

Section LoadedSigmaRuns.
Import InitialSelfEnergies LoadedSigmaFacts.

Lemma loaded_dc_1_agrees : dc_agree (loaded_dc 1%Q) (dc_imp one_orbital).
Proof.
  constructor; [|constructor]. split; [reflexivity|].
  intros channel Hin.
  destruct Hin as [<-|[<-|[]]]; eexists; eexists;
    (split; [reflexivity | split; [reflexivity | vm_compute; reflexivity]]).
Qed.

Lemma loaded_dc_3_disagrees :
  ~ dc_agree (loaded_dc 3%Q) (dc_imp one_orbital).
Proof.
  intros Hag.
  apply (proj1 (has_double_counting_changed_spec _ _)) in Hag.
  vm_compute in Hag. discriminate.
Qed.

Lemma loaded_dc_two_agrees :
  dc_agree (loaded_dc_two 1%Q 1%Q) (dc_imp two_orbitals_rotated).
Proof.
  constructor; [|constructor]. split; [reflexivity|].
  intros channel Hin.
  destruct Hin as [<-|[<-|[]]]; eexists; eexists;
    (split; [reflexivity | split; [reflexivity | vm_compute; reflexivity]]).
Qed.

Lemma loaded_dc_two_disagrees :
  ~ dc_agree (loaded_dc_two 3%Q 4%Q) (dc_imp two_orbitals_rotated).
Proof.
  intros Hag.
  apply (proj1 (has_double_counting_changed_spec _ _)) in Hag.
  vm_compute in Hag. discriminate.
Qed.

Lemma set_loaded_sigma_witness :
  set_loaded_rotated loaded_sigma_two (loaded_dc_two 1%Q 1%Q)
  = Ok (two_orbitals_rotated, loaded_sigma_two)
  /\ exists (s : @SumkDFT Q unit) (start_sigma : list (@BlockGf Q)),
       set_loaded_rotated loaded_sigma_two (loaded_dc_two 3%Q 4%Q)
       = Ok (s, start_sigma)
       /\ orbital0 loaded_sigma_two 0 "up_0" 0 = Ok 5%Q
       /\ orbital0 start_sigma 0 "up_0" 0
          = Ok (ssub 5%Q (ssub 3%Q 1%Q)).
Proof.
  split.
  - apply (proj1 (set_loaded_sigma_corrects_hartree_shift swap_rotation
                    put_Sigma_rotated swap_dc_rotation two_orbitals_rotated
                    loaded_sigma_two (loaded_dc_two 1%Q 1%Q))).
    exact loaded_dc_two_agrees.
  - assert (E : exists (s : @SumkDFT Q unit) (start_sigma : list (@BlockGf Q)),
      set_loaded_rotated loaded_sigma_two (loaded_dc_two 3%Q 4%Q)
      = Ok (s, start_sigma))
      by (eexists; eexists; vm_compute; reflexivity).
    destruct E as (s & start_sigma & E). exists s, start_sigma.
    split; [exact E|]. split; [reflexivity|].
    destruct (proj2 (set_loaded_sigma_corrects_hartree_shift swap_rotation
                       put_Sigma_rotated swap_dc_rotation
                       two_orbitals_rotated loaded_sigma_two
                       (loaded_dc_two 3%Q 4%Q))
                loaded_dc_two_disagrees s start_sigma E)
      as (sigma & delta & corrected & Hput & Hdelta & _ & _ & Hentry).
    vm_compute in Hput. injection Hput as <-.
    vm_compute in Hdelta. injection Hdelta as <-.
    apply (Hentry 0 0 "up_0" "up" 2 [("up_0", 2); ("down_0", 2)]
             [(("up_0", 0), ("up", 0)); (("up_0", 1), ("up", 1));
              (("down_0", 0), ("down", 0)); (("down_0", 1), ("down", 1))]
             [("up", [[[6%Q; 0%Q]; [0%Q; 5%Q]]]);
              ("down", [[[6%Q; 0%Q]; [0%Q; 5%Q]]])]
             [("up", [[[6%Q; 0%Q]; [0%Q; 5%Q]]]);
              ("down", [[[6%Q; 0%Q]; [0%Q; 5%Q]]])]
             [[[6%Q; 0%Q]; [0%Q; 5%Q]]]
             [[5%Q; 0%Q]; [0%Q; 6%Q]] 0 5%Q 3%Q 1%Q);
      try reflexivity; try (simpl; lia).
    intros _ dc_shell dc Hshell Hdc.
    injection Hshell as <-. injection Hdc as <-.
    intros g' Hg'. vm_compute in Hg'. injection Hg' as <-.
    vm_compute. reflexivity.
Defined.

Lemma restores_double_counting_witness :
  exists (s : @SumkDFT Q unit) (start_sigma : list (@BlockGf Q)),
    set_loaded loaded_sigma (loaded_dc 3%Q) = Ok (s, start_sigma)
    /\ dc_imp s = dc_imp one_orbital
    /\ exists sigma,
         put_Sigma_one_orbital one_orbital loaded_sigma = Ok sigma
         /\ Forall2 zeroed sigma (Sigma_imp s).
Proof.
  assert (E : exists (s : @SumkDFT Q unit) (start_sigma : list (@BlockGf Q)),
    set_loaded loaded_sigma (loaded_dc 3%Q) = Ok (s, start_sigma))
    by (eexists; eexists; vm_compute; reflexivity).
  destruct E as (s & start_sigma & E). exists s, start_sigma.
  split; [exact E|].
  destruct (set_loaded_sigma_restores_double_counting no_rotation
              put_Sigma_one_orbital no_dc_rotation one_orbital loaded_sigma
              (loaded_dc 3%Q) s start_sigma loaded_dc_3_disagrees E)
    as (Hdc & _ & Hzero).
  split; [exact Hdc | exact Hzero].
Defined.
End LoadedSigmaRuns.

End Runs.

(** * Further properties of the code *)

(** ** The impurity-dependent parameters after the loops over the keys *)

Module ParameterFacts.
Import DmftCycle.

Section PerImpurityParameters.
Context {A : Type}.
Implicit Types (gp : gmap string (pyval A)).

Lemma extract_quantity_cases key n gp gp' :
  _extract_quantity_per_inequiv key n gp = Ok gp' ->
  (exists a, gp !! key = Some (Atom a)
             /\ gp' = <[key := PyList (replicate n (Atom a))]> gp)
  \/ (exists l, gp !! key = Some (PyList l) /\ length l = n /\ gp' = gp).
Proof.
  unfold _extract_quantity_per_inequiv.
  destruct (gp !! key) as [[a|l]|]; try discriminate.
  - intros [= <-]. left. eauto.
  - destruct (length l =? n) eqn:Hlen; [|discriminate].
    intros [= <-]. right. exists l. apply Nat.eqb_eq in Hlen. auto.
Qed.

Lemma extract_quantity_keeps_list key n gp gp' other l :
  _extract_quantity_per_inequiv key n gp = Ok gp' ->
  gp !! other = Some (PyList l) -> gp' !! other = Some (PyList l).
Proof.
  intros Hx Hl. apply extract_quantity_cases in Hx as [(a & Ha & ->)|(l' & _ & _ & ->)].
  - rewrite lookup_insert_ne; [assumption|]. intros <-. congruence.
  - assumption.
Qed.

Lemma extract_quantity_keeps_other key n gp gp' other :
  _extract_quantity_per_inequiv key n gp = Ok gp' ->
  other <> key -> gp' !! other = gp !! other.
Proof.
  intros Hx Hne. apply extract_quantity_cases in Hx as [(a & Ha & ->)|(l' & _ & _ & ->)].
  - apply lookup_insert_ne. congruence.
  - reflexivity.
Qed.

Lemma extract_keys_lists keys n gp :
  (forall key, In key keys ->
     exists l, gp !! key = Some (PyList l) /\ length l = n) ->
  extract_keys keys n gp = Ok gp.
Proof.
  unfold extract_keys. induction keys as [|k keys IH]; intros Hl; simpl.
  - reflexivity.
  - destruct (Hl k) as (l & Hk & Hlen); [now left|].
    assert (Hx : _extract_quantity_per_inequiv k n gp = Ok gp).
    { unfold _extract_quantity_per_inequiv. rewrite Hk.
      apply Nat.eqb_eq in Hlen. now rewrite Hlen. }
    rewrite Hx. simpl. apply IH. intros key Hin. apply Hl. now right.
Qed.

(** X1: when the loop over the keys returns, every key of the loop holds
    a list with one entry per impurity: the list that was there, or the
    single value that was there, once per impurity. The parameters that
    are not among the keys are left as they were. *)
Theorem extract_keys_expands_every_key keys n gp gp' :
  extract_keys keys n gp = Ok gp' ->
  (forall key, In key keys ->
     (exists a, gp !! key = Some (Atom a)
                /\ gp' !! key = Some (PyList (replicate n (Atom a))))
     \/ (exists l, gp !! key = Some (PyList l) /\ length l = n
                   /\ gp' !! key = Some (PyList l)))
  /\ (forall other, ~ In other keys -> gp' !! other = gp !! other).
Proof.
  unfold extract_keys. revert gp.
  induction keys as [|k keys IH]; intros gp Hrun; simpl in Hrun.
  - injection Hrun as <-. split; [intros key []|reflexivity].
  - apply PyFacts.bind_Ok in Hrun as (gp1 & Hk & Hrun).
    destruct (IH gp1 Hrun) as [Hkeys Hother]. split.
    + intros key Hin.
      assert (Hnow : (exists a, gp !! key = Some (Atom a)
                       /\ gp1 !! key = Some (PyList (replicate n (Atom a))))
                     \/ (exists l, gp !! key = Some (PyList l) /\ length l = n
                                   /\ gp1 !! key = Some (PyList l))
                     \/ (key <> k /\ In key keys)).
      { destruct (String.eqb_spec key k) as [->|Hne].
        - apply extract_quantity_cases in Hk
            as [(a & Ha & ->)|(l & Hl & Hlen & ->)].
          + left. exists a. split; [assumption|apply lookup_insert_eq].
          + right. left. exists l. auto.
        - right. right. split; [assumption|].
          destruct Hin as [->|Hin]; [congruence|assumption]. }
      assert (Hlist : forall l, gp1 !! key = Some (PyList l) -> length l = n ->
                gp' !! key = Some (PyList l)).
      { intros l Hl Hlen. clear -Hrun Hl. revert gp1 Hrun Hl.
        induction keys as [|k' keys' IH']; intros gp1 Hrun Hl;
          simpl in Hrun.
        - now injection Hrun as <-.
        - apply PyFacts.bind_Ok in Hrun as (gp2 & Hk' & Hrun).
          apply (IH' gp2 Hrun).
          eapply extract_quantity_keeps_list; eauto. }
      destruct Hnow as [(a & Ha & H1)|[(l & Hl & Hlen & H1)|[Hne Hin']]].
      * left. exists a. split; [assumption|].
        apply Hlist; [assumption|apply length_replicate].
      * right. exists l. auto.
      * rewrite <- (extract_quantity_keeps_other k n gp gp1 key Hk Hne).
        now apply Hkeys.
    + intros other Hnot.
      rewrite Hother by (intros Hin; apply Hnot; now right).
      eapply extract_quantity_keeps_other; eauto.
      intros ->. apply Hnot. now left.
Qed.

(** X2: the loop over the keys is idempotent: on the parameters it
    returned it returns them again, unchanged. *)
Theorem extract_keys_idempotent keys n gp gp' :
  extract_keys keys n gp = Ok gp' -> extract_keys keys n gp' = Ok gp'.
Proof.
  intros Hrun. apply extract_keys_lists. intros key Hin.
  revert gp Hrun. unfold extract_keys.
  induction keys as [|k keys IH]; intros gp Hrun; [destruct Hin|].
  simpl in Hrun. apply PyFacts.bind_Ok in Hrun as (gp1 & Hk & Hrun).
  destruct (in_dec string_dec key keys) as [Hin'|Hnot].
  - eapply IH; eauto.
  - destruct Hin as [->|Hin]; [|contradiction].
    assert (Hl : exists l, gp1 !! key = Some (PyList l) /\ length l = n).
    { apply extract_quantity_cases in Hk
        as [(a & Ha & ->)|(l & Hl & Hlen & ->)].
      - eexists. split; [apply lookup_insert_eq|apply length_replicate].
      - eauto. }
    destruct Hl as (l & Hl & Hlen). exists l. split; [|assumption].
    clear -Hrun Hl. revert gp1 Hrun Hl.
    induction keys as [|k' keys' IH']; intros gp1 Hrun Hl; simpl in Hrun.
    + now injection Hrun as <-.
    + apply PyFacts.bind_Ok in Hrun as (gp2 & Hk' & Hrun).
      apply (IH' gp2 Hrun). eapply extract_quantity_keeps_list; eauto.
Qed.
End PerImpurityParameters.

End ParameterFacts.

(** ** The solver of every impurity *)

Module SolverMapFacts.
Import DmftCycleSetup PyFacts LoopFacts ArrayFacts.

Lemma insert_sorted_int_Permutation k ks :
  Permutation (insert_sorted_int k ks) (k :: ks).
Proof.
  induction ks as [|k' ks IH]; simpl; [reflexivity|].
  destruct (Z.leb k k'); [reflexivity|].
  rewrite IH. apply perm_swap.
Qed.

Lemma sorted_ints_Permutation ks : Permutation (sorted_ints ks) ks.
Proof.
  induction ks as [|k ks IH]; simpl; [reflexivity|].
  rewrite insert_sorted_int_Permutation. now constructor.
Qed.

Lemma insert_sorted_int_Sorted k ks :
  Sorted Z.le ks -> Sorted Z.le (insert_sorted_int k ks).
Proof.
  induction ks as [|k' ks IH]; simpl; intros Hs.
  - repeat constructor.
  - destruct (Z.leb_spec k k') as [Hle|Hlt].
    + constructor; [assumption|]. now constructor.
    + apply Sorted_inv in Hs as [Hs Hhd]. constructor; [now apply IH|].
      destruct ks as [|k'' ks]; simpl.
      * constructor. lia.
      * destruct (Z.leb_spec k k''); constructor; try lia.
        now apply HdRel_inv in Hhd.
Qed.

Lemma sorted_ints_Sorted ks : Sorted Z.le (sorted_ints ks).
Proof.
  induction ks as [|k ks IH]; simpl; [constructor|].
  now apply insert_sorted_int_Sorted.
Qed.

Lemma range_Sorted n : Sorted Z.le (range n).
Proof.
  unfold range. generalize 0 as a.
  induction n as [|n IH]; intros a; simpl; [constructor|].
  constructor; [apply IH|].
  destruct n; simpl; constructor. lia.
Qed.

Lemma range_NoDup n : NoDup (range n).
Proof.
  unfold range. apply NoDup_fmap_2; [intros x y; lia|apply NoDup_seq].
Qed.

Lemma range_In n (i : nat) : In (Z.of_nat i) (range n) <-> i < n.
Proof.
  unfold range. rewrite in_map_iff. split.
  - intros (j & Hj & Hin). apply in_seq in Hin. lia.
  - intros Hi. exists i. split; [reflexivity|]. apply in_seq. lia.
Qed.

(** [sorted(l) == list(range(n))] holds of the permutations of
    [0, ..., n-1] and of nothing else. *)
Lemma sorted_ints_range ks n :
  sorted_ints ks = range n <-> Permutation ks (range n).
Proof.
  split.
  - intros <-. symmetry. apply sorted_ints_Permutation.
  - intros Hp. apply (Sorted_unique Z.le).
    + apply sorted_ints_Sorted.
    + apply range_Sorted.
    + now rewrite sorted_ints_Permutation.
Qed.

Lemma existsb_Zeqb_In (x : Z) l : existsb (Z.eqb x) l = true <-> In x l.
Proof.
  rewrite existsb_exists. split.
  - intros (y & Hin & Heq). apply Z.eqb_eq in Heq. now subst.
  - intros Hin. exists x. split; [assumption|apply Z.eqb_refl].
Qed.

(** The search for the solver of an impurity ends at the first solver
    that lists the impurity. *)
Lemma first_solver_Some iineq : forall solver_params isolver found,
  first_solver iineq isolver solver_params = Ok (Some found) ->
  exists entry idx,
    isolver <= found
    /\ solver_params !! (found - isolver) = Some entry
    /\ idx_impurities entry = Some idx /\ In iineq idx.
Proof.
  induction solver_params as [|entry rest IH]; intros isolver found Hf;
    simpl in Hf; [discriminate|].
  apply bind_Ok in Hf as (idx & Hidx & Hf).
  unfold listed in Hidx.
  destruct (idx_impurities entry) as [idx'|] eqn:He; [|discriminate].
  injection Hidx as ->.
  destruct (existsb (Z.eqb iineq) idx) eqn:Hin.
  - injection Hf as <-. exists entry, idx.
    rewrite Nat.sub_diag. apply existsb_Zeqb_In in Hin. auto.
  - destruct (IH _ _ Hf) as (entry' & idx' & Hle & Hl & Hi & Hin').
    exists entry', idx'. split; [lia|].
    replace (found - isolver) with (S (found - S isolver)) by lia. auto.
Qed.

Lemma first_solver_found iineq : forall solver_params idx isolver,
  comprehension listed solver_params = Ok idx ->
  In iineq (concat idx) ->
  exists found, first_solver iineq isolver solver_params = Ok (Some found).
Proof.
  induction solver_params as [|entry rest IH]; intros idx isolver Hc Hin;
    simpl in Hc.
  - injection Hc as <-. destruct Hin.
  - apply bind_Ok in Hc as (i0 & Hi0 & Hc).
    apply bind_Ok in Hc as (idx' & Hrest & Hc). injection Hc as <-.
    simpl. rewrite Hi0. simpl.
    destruct (existsb (Z.eqb iineq) i0) eqn:Hex; [eauto|].
    simpl in Hin. apply in_app_or in Hin as [Hin|Hin].
    + apply existsb_Zeqb_In in Hin. congruence.
    + eapply IH; eauto.
Qed.

(** No element of a concatenation without repetitions is in two of the
    lists. *)
Lemma concat_NoDup_unique {A} (x : A) : forall (ls : list (list A)) i j a b,
  NoDup (concat ls) -> ls !! i = Some a -> ls !! j = Some b ->
  In x a -> In x b -> i = j.
Proof.
  induction ls as [|l ls IH]; intros i j a b Hnd Hi Hj Ha Hb;
    [discriminate|].
  simpl in Hnd. apply NoDup_app in Hnd as (Hl & Hdisj & Hls).
  assert (Hin : forall k c, ls !! k = Some c -> In x c -> In x (concat ls)).
  { intros k c Hk Hc. apply in_concat. exists c. split; [|assumption].
    apply list_elem_of_In. eapply list_elem_of_lookup_2; eauto. }
  destruct i as [|i], j as [|j]; simpl in Hi, Hj.
  - reflexivity.
  - injection Hi as <-. exfalso.
    apply (Hdisj x); apply list_elem_of_In; eauto.
  - injection Hj as <-. exfalso.
    apply (Hdisj x); apply list_elem_of_In; eauto.
  - f_equal. eapply IH; eauto.
Qed.

Lemma map_loop_appends solver_params idx :
  comprehension listed solver_params = Ok idx ->
  forall n a acc m,
    (forall i, a <= i < a + n -> In (Z.of_nat i) (concat idx)) ->
    for_each (seq a n)
      (fun map_imp_solver iineq =>
         found ← first_solver (Z.of_nat iineq) 0 solver_params;
         match found with
         | Some isolver => Ok (map_imp_solver ++ [isolver])
         | None => Ok map_imp_solver
         end)
      acc = Ok m ->
    length m = length acc + n
    /\ forall i, a <= i < a + n ->
         exists isolver,
           first_solver (Z.of_nat i) 0 solver_params = Ok (Some isolver)
           /\ m !! (length acc + (i - a)) = Some isolver.
Proof.
  intros Hc. induction n as [|n IH]; intros a acc m Hall Hloop;
    simpl in Hloop.
  - injection Hloop as <-. split; [lia|]. intros i Hi. lia.
  - apply bind_Ok in Hloop as (acc1 & Hbody & Hloop).
    destruct (first_solver_found (Z.of_nat a) solver_params idx 0 Hc)
      as [found Hfound]; [apply Hall; lia|].
    rewrite Hfound in Hbody. simpl in Hbody. injection Hbody as <-.
    destruct (IH (S a) (acc ++ [found]) m) as [Hlen Hm];
      [intros; apply Hall; lia|assumption|].
    rewrite length_app in Hlen. simpl in Hlen. split; [lia|].
    intros i Hi. destruct (Nat.eq_dec i a) as [->|Hne].
    + exists found. split; [assumption|].
      rewrite Nat.sub_diag, Nat.add_0_r.
      assert (Hkeep : forall n' a' acc' m',
                for_each (seq a' n')
                  (fun map_imp_solver iineq =>
                     found ← first_solver (Z.of_nat iineq) 0 solver_params;
                     match found with
                     | Some isolver => Ok (map_imp_solver ++ [isolver])
                     | None => Ok map_imp_solver
                     end)
                  acc' = Ok m' ->
                forall j v, acc' !! j = Some v -> m' !! j = Some v).
      { clear. induction n' as [|n' IH']; intros a' acc' m' Hl j v Hj;
          simpl in Hl.
        - now injection Hl as <-.
        - apply bind_Ok in Hl as (acc1 & Hb & Hl).
          apply (IH' _ _ _ Hl).
          destruct (first_solver _ _ _) as [[f|]|]; simpl in Hb;
            try discriminate; injection Hb as <-; [|assumption].
          apply lookup_app_l_Some. assumption. }
      apply (Hkeep _ _ _ _ Hloop).
      rewrite lookup_app_r by lia. now rewrite Nat.sub_diag.
    + destruct (Hm i) as (isolver & Hf & Hl); [lia|].
      exists isolver. split; [assumption|].
      rewrite length_app in Hl. simpl in Hl.
      replace (length acc + (i - a)) with (length acc + 1 + (i - S a)) by lia.
      assumption.
Qed.

Lemma map_loop_total solver_params idx :
  comprehension listed solver_params = Ok idx ->
  forall n a acc,
    (forall i, a <= i < a + n -> In (Z.of_nat i) (concat idx)) ->
    returns
      (for_each (seq a n)
         (fun map_imp_solver iineq =>
            found ← first_solver (Z.of_nat iineq) 0 solver_params;
            match found with
            | Some isolver => Ok (map_imp_solver ++ [isolver])
            | None => Ok map_imp_solver
            end)
         acc).
Proof.
  intros Hc. induction n as [|n IH]; intros a acc Hall; simpl.
  - eexists. reflexivity.
  - destruct (first_solver_found (Z.of_nat a) solver_params idx 0 Hc)
      as [found Hfound]; [apply Hall; lia|].
    rewrite Hfound. simpl. apply IH. intros i Hi. apply Hall. lia.
Qed.

(** The map that is built from the lists of the solvers. *)
Lemma map_imp_solver_listed n solver_params map :
  one_solver_for_all solver_params = false ->
  map_imp_solver n solver_params = Ok map ->
  length map = n
  /\ forall iineq, iineq < n ->
       exists isolver entry idx,
         map !! iineq = Some isolver
         /\ solver_params !! isolver = Some entry
         /\ idx_impurities entry = Some idx
         /\ In (Z.of_nat iineq) idx
         /\ forall other entry' idx',
              solver_params !! other = Some entry' ->
              idx_impurities entry' = Some idx' ->
              In (Z.of_nat iineq) idx' -> other = isolver.
Proof.
  intros Hone Hmap. unfold map_imp_solver in Hmap. rewrite Hone in Hmap.
  apply bind_Ok in Hmap as (all & Hall & Hmap).
  unfold all_idx_imp in Hall.
  apply bind_Ok in Hall as (idx & Hidx & Hall). injection Hall as <-.
  destruct (decide (sorted_ints (concat idx) <> range n))
    as [|Hsorted]; [discriminate|].
  apply dec_stable in Hsorted. apply sorted_ints_range in Hsorted.
  assert (Hin : forall i, 0 <= i < 0 + n -> In (Z.of_nat i) (concat idx)).
  { intros i Hi. apply (Permutation_in _ (Permutation_sym Hsorted)).
    apply range_In. lia. }
  destruct (map_loop_appends _ _ Hidx _ _ _ _ Hin Hmap) as [Hlen Hm].
  simpl in Hlen. split; [assumption|].
  assert (Hnd : NoDup (concat idx)).
  { rewrite Hsorted. apply range_NoDup. }
  intros iineq Hi. destruct (Hm iineq) as (isolver & Hf & Hl); [lia|].
  simpl in Hl. rewrite Nat.sub_0_r in Hl.
  apply first_solver_Some in Hf as (entry & idx0 & _ & He & Hi0 & Hin0).
  rewrite Nat.sub_0_r in He.
  exists isolver, entry, idx0. repeat (split; [assumption|]).
  intros other entry' idx' Ho Hi' Hin'.
  destruct (comprehension_lookup _ _ _ _ _ Hidx Ho) as (l' & Hl' & Hidx').
  destruct (comprehension_lookup _ _ _ _ _ Hidx He) as (l0 & Hl0 & Hidx0).
  unfold listed in Hl', Hl0. rewrite Hi' in Hl'. rewrite Hi0 in Hl0.
  injection Hl' as <-. injection Hl0 as <-.
  eapply (concat_NoDup_unique (Z.of_nat iineq)); eauto.
Qed.

(** The map from the impurities to the solvers, however it was built,
    names a solver for every impurity. *)
Lemma map_imp_solver_names_a_solver n solver_params map :
  map_imp_solver n solver_params = Ok map ->
  length map = n
  /\ forall iineq, iineq < n ->
       exists isolver entry,
         map !! iineq = Some isolver
         /\ solver_params !! isolver = Some entry.
Proof.
  intros Hmap. destruct (one_solver_for_all solver_params) eqn:Hone.
  - unfold map_imp_solver in Hmap. rewrite Hone in Hmap.
    injection Hmap as <-. split; [apply length_replicate|].
    intros iineq Hi. unfold one_solver_for_all in Hone.
    destruct solver_params as [|entry [|]]; try discriminate.
    exists 0, entry. split; [|reflexivity].
    now apply lookup_replicate_2.
  - destruct (map_imp_solver_listed n solver_params map Hone Hmap)
      as [Hlen Hserve].
    split; [assumption|]. intros iineq Hi.
    destruct (Hserve iineq Hi) as (isolver & entry & idx & Hl & He & _).
    eauto.
Qed.

(** X3: when the solvers list their impurities and the map from the
    impurities to the solvers is built, the map has one entry per
    impurity, the entry of an impurity is a solver that lists it, no
    other solver lists it, and [solver_type_per_imp] is the type of that
    solver. *)
Theorem map_imp_solver_serves_each_impurity (n_inequiv_shells : nat)
    (solver_params : list solver) (map : list nat) :
  one_solver_for_all solver_params = false ->
  map_imp_solver n_inequiv_shells solver_params = Ok map ->
  length map = n_inequiv_shells
  /\ exists types,
       solver_type_per_imp n_inequiv_shells solver_params map = Ok types
       /\ length types = n_inequiv_shells
       /\ forall iineq, iineq < n_inequiv_shells ->
            exists isolver entry idx,
              map !! iineq = Some isolver
              /\ solver_params !! isolver = Some entry
              /\ idx_impurities entry = Some idx
              /\ In (Z.of_nat iineq) idx
              /\ types !! iineq = Some (type entry)
              /\ forall other entry' idx',
                   solver_params !! other = Some entry' ->
                   idx_impurities entry' = Some idx' ->
                   In (Z.of_nat iineq) idx' -> other = isolver.
Proof.
  intros Hone Hmap.
  destruct (map_imp_solver_listed _ _ _ Hone Hmap) as [Hlen Hserve].
  split; [assumption|].
  destruct (comprehension_total
              (fun iineq =>
                 isolver ← getitem map iineq;
                 entry ← getitem solver_params isolver;
                 Ok (type entry))
              (seq 0 n_inequiv_shells)) as [types Htypes].
  { intros i Hi. apply in_seq in Hi.
    destruct (Hserve i) as (isolver & entry & idx0 & Hl & He & _); [lia|].
    exists (type entry).
    rewrite (getitem_Some _ _ _ Hl). simpl.
    now rewrite (getitem_Some _ _ _ He). }
  exists types. split; [assumption|]. split.
  { rewrite (comprehension_length _ _ _ Htypes). apply length_seq. }
  intros iineq Hi.
  destruct (Hserve iineq Hi)
    as (isolver & entry & idx0 & Hl & He & Hi0 & Hin0 & Hu).
  exists isolver, entry, idx0. repeat (split; [assumption|]).
  split; [|assumption].
  destruct (comprehension_seq_lookup _ _ _ _ Htypes Hi) as (t & Ht & Hti).
  rewrite (getitem_Some _ _ _ Hl) in Ht. simpl in Ht.
  rewrite (getitem_Some _ _ _ He) in Ht. simpl in Ht.
  injection Ht as <-. assumption.
Qed.

(** X4: when every solver lists impurities, the map is built exactly
    when the impurities listed are [0, ..., n_inequiv_shells - 1], each
    once, in whatever order; otherwise [ValueError] is raised. *)
Theorem map_imp_solver_checks_the_listing (n_inequiv_shells : nat)
    (solver_params : list solver) (all : list Z) :
  one_solver_for_all solver_params = false ->
  all_idx_imp solver_params = Ok all ->
  (Permutation all (range n_inequiv_shells) ->
   returns (map_imp_solver n_inequiv_shells solver_params))
  /\ (~ Permutation all (range n_inequiv_shells) ->
      map_imp_solver n_inequiv_shells solver_params = Raise ValueError).
Proof.
  intros Hone Hall. unfold map_imp_solver. rewrite Hone, Hall. simpl.
  split; intros Hp.
  - destruct (decide (sorted_ints all <> range n_inequiv_shells)) as [Hne|_].
    { exfalso. apply Hne. now apply sorted_ints_range. }
    unfold all_idx_imp in Hall.
    apply bind_Ok in Hall as (idx & Hidx & Hall). injection Hall as <-.
    apply (map_loop_total _ _ Hidx). intros i Hi.
    apply (Permutation_in _ (Permutation_sym Hp)). apply range_In. lia.
  - destruct (decide (sorted_ints all <> range n_inequiv_shells)) as [_|Heq];
      [reflexivity|].
    exfalso. apply Hp. apply sorted_ints_range. now apply dec_stable.
Qed.

End SolverMapFacts.

(** ** The multiplicities of the shells and the susceptibility operators *)

Module SetupFacts.
Import DmftCycleSetup PyFacts LoopFacts ArrayFacts SolverMapFacts.

Lemma list_sum_indicator a : forall n s,
  list_sum (map (fun i => if Nat.eq_dec a i then 1 else 0) (seq s n))
  = if (s <=? a) && (a <? s + n) then 1 else 0.
Proof.
  induction n as [|n IH]; intros s; simpl.
  - destruct (Nat.leb_spec s a), (Nat.ltb_spec a (s + 0)); simpl; lia.
  - rewrite IH.
    destruct (Nat.eq_dec a s), (Nat.leb_spec s a), (Nat.leb_spec (S s) a),
      (Nat.ltb_spec a (S s + n)), (Nat.ltb_spec a (s + S n)); simpl; lia.
Qed.

Lemma list_sum_count_cons a c l :
  list_sum (map (fun i => count_occ Nat.eq_dec (a :: c) i) l)
  = list_sum (map (fun i => if Nat.eq_dec a i then 1 else 0) l)
    + list_sum (map (fun i => count_occ Nat.eq_dec c i) l).
Proof.
  induction l as [|i l IH]; simpl; [reflexivity|].
  simpl in IH. rewrite IH. destruct (Nat.eq_dec a i); lia.
Qed.

(** X5: the list of multiplicities has one entry per inequivalent shell;
    when every correlated shell is mapped to an inequivalent shell of the
    calculation the multiplicities add up to the number of correlated
    shells, and a shell that some correlated shell is mapped to has a
    multiplicity of at least one. *)
Theorem shell_multiplicity_counts_every_shell (corr_to_inequiv : list nat)
    (n_inequiv_shells : nat) :
  Forall (fun ish => ish < n_inequiv_shells) corr_to_inequiv ->
  length (shell_multiplicity corr_to_inequiv n_inequiv_shells)
  = n_inequiv_shells
  /\ list_sum (shell_multiplicity corr_to_inequiv n_inequiv_shells)
     = length corr_to_inequiv
  /\ forall icrsh ish, corr_to_inequiv !! icrsh = Some ish ->
       exists m,
         shell_multiplicity corr_to_inequiv n_inequiv_shells !! ish = Some m
         /\ 0 < m.
Proof.
  unfold shell_multiplicity. intros Hall. split; [|split].
  - now rewrite length_map, length_seq.
  - induction Hall as [|a c Ha _ IH].
    + simpl. induction (seq 0 n_inequiv_shells); simpl; auto.
    + rewrite list_sum_count_cons, IH, list_sum_indicator. simpl length.
      destruct (Nat.leb_spec 0 a), (Nat.ltb_spec a (0 + n_inequiv_shells));
        simpl; lia.
  - intros icrsh ish Hl.
    assert (Hin : In ish corr_to_inequiv).
    { apply list_elem_of_In. eapply list_elem_of_lookup_2; eauto. }
    assert (Hlt : ish < n_inequiv_shells).
    { rewrite List.Forall_forall in Hall. now apply Hall. }
    exists (count_occ Nat.eq_dec corr_to_inequiv ish). split.
    + rewrite list_lookup_fmap, lookup_seq_lt by assumption. reflexivity.
    + now apply count_occ_In.
Qed.

Section ChiSetup.
Context {Op : Type}.
Variable S_op : nat -> nat -> Op.
Variable N_op : nat -> nat -> Op.

(** X6: on the map from the impurities to the solvers that [dmft_cycle]
    builds, and with a dimension for every impurity, [_chi_setup] returns
    one entry per impurity: the spin operator when the solver of the
    impurity measures 'SzSz', the density operator when it measures 'NN',
    and [None] when it measures nothing or anything else. *)
Theorem chi_setup_on_the_solver_map (n_inequiv_shells : nat)
    (corr_shells_dim : list nat) (solver_params : list solver)
    (map : list nat) :
  map_imp_solver n_inequiv_shells solver_params = Ok map ->
  n_inequiv_shells <= length corr_shells_dim ->
  exists ops_chi_measure,
    _chi_setup S_op N_op n_inequiv_shells corr_shells_dim solver_params map
    = Ok ops_chi_measure
    /\ length ops_chi_measure = n_inequiv_shells
    /\ forall icrsh, icrsh < n_inequiv_shells ->
         exists isolv entry n_orb,
           map !! icrsh = Some isolv
           /\ solver_params !! isolv = Some entry
           /\ corr_shells_dim !! icrsh = Some n_orb
           /\ ops_chi_measure !! icrsh
              = Some match measure_chi entry with
                     | None => None
                     | Some chi =>
                         if String.eqb chi "SzSz"
                         then Some (S_op icrsh n_orb)
                         else if String.eqb chi "NN"
                              then Some (N_op icrsh n_orb)
                              else None
                     end.
Proof.
  intros Hmap Hdim.
  destruct (map_imp_solver_names_a_solver _ _ _ Hmap) as [Hlen Hserve].
  unfold _chi_setup.
  set (body := fun (ops_chi_measure : list (option Op)) (icrsh : nat) =>
         isolv ← getitem map icrsh;
         entry ← getitem solver_params isolv;
         match measure_chi entry with
         | None => Ok ops_chi_measure
         | Some chi =>
             n_orb ← getitem corr_shells_dim icrsh;
             if String.eqb chi "SzSz" then
               setitem ops_chi_measure icrsh (Some (S_op icrsh n_orb))
             else if String.eqb chi "NN" then
               setitem ops_chi_measure icrsh (Some (N_op icrsh n_orb))
             else Ok ops_chi_measure
         end).
  (* one step of the loop *)
  assert (Hstep : forall ops icrsh,
            icrsh < n_inequiv_shells -> length ops = n_inequiv_shells ->
            exists isolv entry n_orb,
              map !! icrsh = Some isolv
              /\ solver_params !! isolv = Some entry
              /\ corr_shells_dim !! icrsh = Some n_orb
              /\ body ops icrsh
                 = Ok (<[icrsh :=
                          match measure_chi entry with
                          | None => default None (ops !! icrsh)
                          | Some chi =>
                              if String.eqb chi "SzSz"
                              then Some (S_op icrsh n_orb)
                              else if String.eqb chi "NN"
                                   then Some (N_op icrsh n_orb)
                                   else default None (ops !! icrsh)
                          end]> ops)).
  { intros ops icrsh Hi Hops.
    destruct (Hserve icrsh Hi) as (isolv & entry & Hl & He).
    destruct (lookup_lt_is_Some_2 corr_shells_dim icrsh) as [n_orb Hn];
      [lia|].
    destruct (lookup_lt_is_Some_2 ops icrsh) as [old Hold]; [lia|].
    exists isolv, entry, n_orb. repeat (split; [assumption|]).
    unfold body. rewrite (getitem_Some _ _ _ Hl). simpl.
    rewrite (getitem_Some _ _ _ He). simpl.
    rewrite Hold. simpl.
    assert (Hset : forall v, setitem ops icrsh v = Ok (<[icrsh := v]> ops)).
    { intros v. unfold setitem.
      destruct (Nat.ltb_spec icrsh (length ops)); [reflexivity|lia]. }
    destruct (measure_chi entry) as [chi|].
    - rewrite (getitem_Some _ _ _ Hn). simpl.
      destruct (String.eqb chi "SzSz"); [apply Hset|].
      destruct (String.eqb chi "NN"); [apply Hset|].
      now rewrite list_insert_id.
    - now rewrite list_insert_id. }
  (* the loop *)
  assert (Hloop : forall k a ops,
            a + k = n_inequiv_shells -> length ops = n_inequiv_shells ->
            exists ops',
              for_each (seq a k) body ops = Ok ops'
              /\ length ops' = n_inequiv_shells
              /\ (forall j, j < a -> ops' !! j = ops !! j)
              /\ forall icrsh, a <= icrsh < n_inequiv_shells ->
                   exists isolv entry n_orb,
                     map !! icrsh = Some isolv
                     /\ solver_params !! isolv = Some entry
                     /\ corr_shells_dim !! icrsh = Some n_orb
                     /\ ops' !! icrsh
                        = Some match measure_chi entry with
                               | None => default None (ops !! icrsh)
                               | Some chi =>
                                   if String.eqb chi "SzSz"
                                   then Some (S_op icrsh n_orb)
                                   else if String.eqb chi "NN"
                                        then Some (N_op icrsh n_orb)
                                        else default None (ops !! icrsh)
                               end).
  { induction k as [|k IH]; intros a ops Ha Hops; simpl.
    - exists ops. split; [reflexivity|]. split; [assumption|].
      split; [reflexivity|]. intros icrsh Hi. lia.
    - destruct (Hstep ops a) as (isolv & entry & n_orb & Hl & He & Hn & Hb);
        [lia|assumption|].
      rewrite Hb. simpl.
      destruct (IH (S a) (<[a := match measure_chi entry with
                                 | None => default None (ops !! a)
                                 | Some chi =>
                                     if String.eqb chi "SzSz"
                                     then Some (S_op a n_orb)
                                     else if String.eqb chi "NN"
                                          then Some (N_op a n_orb)
                                          else default None (ops !! a)
                                 end]> ops))
        as (ops' & Hrun & Hlen' & Hbefore & Hafter);
        [lia|now rewrite length_insert|].
      exists ops'. split; [assumption|]. split; [assumption|]. split.
      + intros j Hj. rewrite Hbefore by lia.
        apply list_lookup_insert_ne. lia.
      + intros icrsh Hi. destruct (Nat.eq_dec icrsh a) as [->|Hne].
        * exists isolv, entry, n_orb. repeat (split; [assumption|]).
          rewrite Hbefore by lia. apply list_lookup_insert_eq. lia.
        * destruct (Hafter icrsh) as (is' & e' & n' & Hl' & He' & Hn' & Ho);
            [lia|].
          exists is', e', n'. repeat (split; [assumption|]).
          rewrite Ho. now rewrite list_lookup_insert_ne by lia. }
  destruct (Hloop n_inequiv_shells 0 (replicate n_inequiv_shells None))
    as (ops' & Hrun & Hlen' & _ & Hafter);
    [reflexivity|apply length_replicate|].
  exists ops'. split; [assumption|]. split; [assumption|].
  intros icrsh Hi.
  destruct (Hafter icrsh) as (isolv & entry & n_orb & Hl & He & Hn & Ho);
    [lia|].
  exists isolv, entry, n_orb. repeat (split; [assumption|]).
  rewrite Ho. rewrite lookup_replicate_2 by assumption. reflexivity.
Qed.
End ChiSetup.

End SetupFacts.

(** ** The iterations of [dmft_cycle] *)

Module IterationFacts.
Import DmftCycle.

Section SelfConsistencyLoop.
Context {St : Type}.
Variable iterate : St -> nat -> bool -> St.
Variable check_convergence : St -> option bool.
Variable step_raises : St -> nat -> bool -> option exn.





End SelfConsistencyLoop.

End IterationFacts.

(** ** More on [_determine_block_structure] *)

Module BlockStructureMoreFacts.
Import DmftCycle PyFacts LoopFacts ArrayFacts BlockStructureFacts.

(** [[i for i, x in enumerate(xs) if p(x)]] holds the indices of the
    elements that satisfy [p]. *)
Lemma indices_where_In {A} (p : A -> bool) (xs : list A) (i : nat) :
  In i (indices_where p xs) <-> exists x, xs !! i = Some x /\ p x = true.
Proof.
  unfold indices_where. rewrite in_map_iff. split.
  - intros ([j x] & <- & Hin). apply List.filter_In in Hin as [Hin Hp].
    apply list_elem_of_In, list_elem_of_lookup_1 in Hin as [k Hk].
    rewrite list_lookup_imap in Hk.
    destruct (xs !! k) as [y|] eqn:Hy; [|discriminate].
    injection Hk as <- <-. eauto.
  - intros (x & Hx & Hp). exists (i, x). split; [reflexivity|].
    apply List.filter_In. split; [|assumption].
    apply list_elem_of_In. apply (list_elem_of_lookup_2 _ i).
    rewrite list_lookup_imap, Hx. reflexivity.
Qed.

Lemma existsb_eqb_In (i : nat) l : existsb (Nat.eqb i) l = true <-> In i l.
Proof.
  rewrite existsb_exists. split.
  - intros (j & Hin & Heq). apply Nat.eqb_eq in Heq. now subst.
  - intros Hin. exists i. split; [assumption|apply Nat.eqb_refl].
Qed.

Lemma indices_where_ftps (solver_type_per_imp : list string) (i : nat) :
  In i (indices_where (String.eqb "ftps") solver_type_per_imp)
  <-> solver_type_per_imp !! i = Some "ftps".
Proof.
  rewrite indices_where_In. split.
  - intros (x & Hx & Hp). apply String.eqb_eq in Hp. now subst.
  - intros Hx. exists "ftps". split; [assumption|apply String.eqb_refl].
Qed.

(** The list for ftps can only fail on an index. *)
Lemma ftps_comprehension_raises {A} (ds : list A) (imp_ftps : list nat) e :
  forall n a,
    comprehension
      (fun icrsh =>
         if existsb (Nat.eqb icrsh) imp_ftps
         then d ← getitem ds icrsh; Ok (Some d)
         else Ok None)
      (seq a n) = Raise e ->
    e = IndexError.
Proof.
  induction n as [|n IH]; intros a Hc; simpl in Hc; [discriminate|].
  destruct (existsb (Nat.eqb a) imp_ftps); simpl in Hc.
  - destruct (getitem ds a) as [d|e'] eqn:Hg; simpl in Hc.
    2:{ unfold getitem in Hg. destruct (ds !! a); congruence. }
    destruct (comprehension _ (seq (S a) n)) eqn:Hrest; simpl in Hc;
      [discriminate|].
    injection Hc as <-. eapply IH; eauto.
  - destruct (comprehension _ (seq (S a) n)) eqn:Hrest; simpl in Hc;
      [discriminate|].
    injection Hc as <-. eapply IH; eauto.
Qed.

Section DetermineBlockStructure.
Context {G D T P M : Type}.
Variable analyse_block_structure :
  SumkDFT G -> D -> T -> list nat -> BlockStructure G.
Variable map_gf_struct_solver :
  BlockStructure G -> list (option M) -> BlockStructure G.

(** X9: with a manual selection of the solver structure (an entry of
    [pick_solver_struct] that is not [None]) the function never returns:
    the report of the selection reads [icrsh] before the loop that binds
    it, which is an [UnboundLocalError]; only an [IndexError] of the
    analysis for ftps can come before it. *)
Theorem determine_block_structure_refuses_manual_selection
    (sum_k : SumkDFT G) (gp : general_params T) (ap : advanced_params P M)
    (solver_type_per_imp : list string) (dens_mat : D) :
  any_not_none (pick_solver_struct ap) = true ->
  (exists e,
     _determine_block_structure analyse_block_structure map_gf_struct_solver
       sum_k gp ap solver_type_per_imp dens_mat = Raise e
     /\ (e = UnboundLocalError \/ e = IndexError))
  /\ (~ In "ftps" solver_type_per_imp ->
      _determine_block_structure analyse_block_structure map_gf_struct_solver
        sum_k gp ap solver_type_per_imp dens_mat = Raise UnboundLocalError).
Proof.
  intros Hpick. unfold _determine_block_structure. rewrite Hpick. split.
  - destruct (indices_where (String.eqb "ftps") solver_type_per_imp)
      as [|i imp_ftps]; simpl; [eauto|].
    match goal with
    | |- context [comprehension ?f ?xs] =>
        destruct (comprehension f xs) as [l|e] eqn:Hc
    end; simpl; [eauto|].
    exists e. split; [reflexivity|]. right.
    exact (ftps_comprehension_raises _ (i :: imp_ftps) _ _ _ Hc).
  - intros Hno.
    assert (Hnil : indices_where (String.eqb "ftps") solver_type_per_imp = []).
    { destruct (indices_where _ _) as [|i l] eqn:Hi; [reflexivity|].
      exfalso. apply Hno.
      assert (Hin : In i (indices_where (String.eqb "ftps")
                            solver_type_per_imp)) by (rewrite Hi; now left).
      apply indices_where_ftps in Hin.
      apply list_elem_of_In. eapply list_elem_of_lookup_2; eauto. }
    rewrite Hnil. reflexivity.
Qed.

(** X10: the degeneracies for ftps that are returned next to [sum_k] are
    [None] when no impurity is solved with 'ftps'; otherwise they are a
    list with one entry per impurity, which for an impurity solved with
    'ftps' is its entry of the block structure analysed for those
    impurities alone, and [None] for every other impurity. *)
Theorem determine_block_structure_ftps_degeneracies
    (sum_k : SumkDFT G) (gp : general_params T) (ap : advanced_params P M)
    (solver_type_per_imp : list string) (dens_mat : D)
    (sum_k' : SumkDFT G) (deg_orbs_ftps : option (list (option deg_site))) :
  _determine_block_structure analyse_block_structure map_gf_struct_solver
    sum_k gp ap solver_type_per_imp dens_mat = Ok (sum_k', deg_orbs_ftps) ->
  (~ In "ftps" solver_type_per_imp -> deg_orbs_ftps = None)
  /\ (In "ftps" solver_type_per_imp ->
      exists l,
        deg_orbs_ftps = Some l
        /\ length l = n_inequiv_shells sum_k
        /\ forall icrsh, icrsh < n_inequiv_shells sum_k ->
             (solver_type_per_imp !! icrsh = Some "ftps" ->
              exists site,
                l !! icrsh = Some (Some site)
                /\ deg_shells
                     (analyse_block_structure
                        (if SO sum_k =? 0
                         then set_deg_shells sum_k
                                (replicate (n_inequiv_shells sum_k)
                                   (Some [["up_0"; "down_0"]]))
                         else sum_k)
                        dens_mat (block_threshold gp)
                        (indices_where (String.eqb "ftps")
                           solver_type_per_imp))
                   !! icrsh = Some site)
             /\ (solver_type_per_imp !! icrsh <> Some "ftps" ->
                 l !! icrsh = Some None)).
Proof.
  unfold _determine_block_structure. intros Hrun.
  apply bind_Ok in Hrun as (ftps & Hftps & Hrun).
  apply bind_Ok in Hrun as (sk1 & _ & Hrun).
  apply bind_Ok in Hrun as (sk2 & _ & Hrun).
  injection Hrun as _ <-.
  assert (Hn : n_inequiv_shells
                 (if SO sum_k =? 0
                  then set_deg_shells sum_k
                         (replicate (n_inequiv_shells sum_k)
                            (Some [["up_0"; "down_0"]]))
                  else sum_k) = n_inequiv_shells sum_k)
    by (destruct (SO sum_k =? 0); reflexivity).
  rewrite Hn in Hftps.
  destruct (indices_where (String.eqb "ftps") solver_type_per_imp)
    as [|i imp_ftps] eqn:Hixs.
  - injection Hftps as <-. split; [reflexivity|].
    intros Hin. exfalso.
    apply list_elem_of_In, list_elem_of_lookup_1 in Hin as [k Hk].
    apply indices_where_ftps in Hk. rewrite Hixs in Hk. destruct Hk.
  - apply bind_Ok in Hftps as (l & Hl & Hftps). injection Hftps as <-.
    split.
    { intros Hno. exfalso. apply Hno.
      assert (Hin : In i (indices_where (String.eqb "ftps")
                            solver_type_per_imp)) by (rewrite Hixs; now left).
      apply indices_where_ftps in Hin.
      apply list_elem_of_In. eapply list_elem_of_lookup_2; eauto. }
    intros _. exists l. split; [reflexivity|]. split.
    { rewrite (comprehension_length _ _ _ Hl). apply length_seq. }
    intros icrsh Hi.
    destruct (comprehension_seq_lookup _ _ _ _ Hl Hi) as (d & Hd & Hld).
    split.
    + intros Htype. apply indices_where_ftps in Htype. rewrite Hixs in Htype.
      apply existsb_eqb_In in Htype. rewrite Htype in Hd.
      apply bind_Ok in Hd as (site & Hsite & Hd). injection Hd as <-.
      exists site. split; [assumption|]. now apply getitem_Ok.
    + intros Htype.
      destruct (existsb (Nat.eqb icrsh) (i :: imp_ftps)) eqn:Hex.
      * exfalso. apply Htype. apply indices_where_ftps. rewrite Hixs.
        now apply existsb_eqb_In.
      * now injection Hd as <-.
Qed.

(** X11: after [_determine_block_structure] in a magnetic run without
    spin-orbit coupling no degeneracy group is left with fewer than two
    labels: a group that only tied the two spins of an orbital is gone. *)
Theorem determine_block_structure_no_single_label (sum_k : SumkDFT G)
    (gp : general_params T) (ap : advanced_params P M)
    (solver_type_per_imp : list string) (dens_mat : D)
    (sum_k' : SumkDFT G) (deg_orbs_ftps : option (list (option deg_site))) :
  magnetic gp = true -> SO sum_k = 0 ->
  _determine_block_structure analyse_block_structure map_gf_struct_solver
    sum_k gp ap solver_type_per_imp dens_mat = Ok (sum_k', deg_orbs_ftps) ->
  SO sum_k' = 0
  /\ n_inequiv_shells sum_k' = n_inequiv_shells sum_k
  /\ forall site, In site (deg_shells (block_structure sum_k')) ->
       exists groups, site = Some groups /\
         forall g, In g groups -> 1 < length g.
Proof.
  unfold _determine_block_structure. intros Hm Hso Hrun.
  apply bind_Ok in Hrun as (ftps & _ & Hrun).
  apply bind_Ok in Hrun as (sk1 & Hpick & Hrun).
  apply bind_Ok in Hrun as (sk2 & Hmag & Hrun).
  injection Hrun as <- _.
  destruct (any_not_none (pick_solver_struct ap)); [discriminate|].
  injection Hpick as <-.
  match type of Hmag with
  | context [SO ?s =? 0] => set (sk := s) in *
  end.
  assert (HSO : SO sk = SO sum_k).
  { subst sk. destruct (SO sum_k =? 0), (any_not_none (map_solver_struct ap));
      try destruct (any_not_none (mapped_solver_struct_degeneracies ap));
      reflexivity. }
  assert (Hn : n_inequiv_shells sk = n_inequiv_shells sum_k).
  { subst sk. destruct (SO sum_k =? 0), (any_not_none (map_solver_struct ap));
      try destruct (any_not_none (mapped_solver_struct_degeneracies ap));
      reflexivity. }
  clearbody sk. rewrite HSO, Hm, Hso in Hmag. simpl in Hmag.
  apply bind_Ok in Hmag as (ds & Hds & Hmag). injection Hmag as <-.
  simpl. split; [congruence|]. split; [assumption|].
  intros site Hsite.
  destruct (comprehension_In _ _ _ _ Hds Hsite) as (site0 & _ & Hs).
  apply deg_shell_mag_one_spin in Hs as (groups & -> & Hg).
  exists groups. split; [reflexivity|]. intros g Hin. now apply Hg.
Qed.

End DetermineBlockStructure.
End BlockStructureMoreFacts.

(** ** The potentials that [calculate_double_counting] leaves *)

Module PotentialFacts.
Import InitialSelfEnergies StoreFacts LoopFacts ArrayFacts
  DoubleCountingFacts BlockStructureMoreFacts.

Lemma dict_find_set {V} (d : dict V) k v k' :
  dict_find (dict_set d k v) k'
  = if String.eqb k' k then Some v else dict_find d k'.
Proof.
  induction d as [|[k0 v0] d IH]; simpl.
  - reflexivity.
  - destruct (String.eqb_spec k k0) as [->|Hne]; simpl.
    + destruct (String.eqb_spec k' k0); reflexivity.
    + rewrite IH. destruct (String.eqb_spec k' k0) as [->|Hne'];
        [|reflexivity].
      destruct (String.eqb_spec k0 k); [congruence|reflexivity].
Qed.

(** One value written under each of the names. *)
Lemma dict_set_all_find {V} (v : V) names : forall (d : dict V) sp,
  In sp names ->
  dict_find (fold_left (fun d sp => dict_set d sp v) names d) sp = Some v.
Proof.
  assert (Hkeep : forall names' (d : dict V) sp,
            dict_find d sp = Some v ->
            dict_find (fold_left (fun d sp => dict_set d sp v) names' d) sp
            = Some v).
  { induction names' as [|n ns IH]; intros d sp Hd; simpl; [assumption|].
    apply IH. rewrite dict_find_set.
    destruct (String.eqb sp n); [reflexivity|assumption]. }
  induction names as [|n ns IH]; intros d sp Hin; [destruct Hin|].
  simpl. destruct (string_dec n sp) as [->|Hne].
  - apply Hkeep. rewrite dict_find_set. now rewrite String.eqb_refl.
  - destruct Hin as [->|Hin]; [congruence|]. now apply IH.
Qed.

Section DoubleCounting.
Context {R : Type} `{Scalar R} {GW Dyn : Type}.
Variable total_density : @SumkDFT R Dyn -> nat -> dict (@matrix R) -> R.
Variable dc_potential :
  @SumkDFT R Dyn -> nat -> dict (@matrix R) -> R -> R -> dc_tag -> string -> R.
Variable dc_energy :
  @SumkDFT R Dyn -> nat -> dict (@matrix R) -> R -> R -> dc_tag -> R.
Variable crpa_double_counting :
  @SumkDFT R Dyn -> GW -> string -> nat -> dict (@matrix R) * Dyn.

Local Abbreviation calculate_double_counting :=
  (calculate_double_counting total_density dc_potential dc_energy
     crpa_double_counting).
Local Abbreviation calc_dc_shell :=
  (calc_dc_shell total_density dc_potential dc_energy).
Local Abbreviation calc_dc :=
  (calc_dc total_density dc_potential dc_energy).
Local Abbreviation calc_dc_value :=
  (calc_dc_value total_density dc_potential dc_energy).
Local Abbreviation base_formula :=
  (base_formula total_density dc_potential dc_energy crpa_double_counting).

Implicit Types (sum_k s : @SumkDFT R Dyn) (h : store R)
  (ap : @advanced_params R).

(** What the double counting never changes of the lattice model. *)
Local Abbreviation same_shells s s' :=
  (n_corr_shells s' = n_corr_shells s
   /\ n_inequiv_shells s' = n_inequiv_shells s
   /\ corr_to_inequiv s' = corr_to_inequiv s
   /\ inequiv_to_corr s' = inequiv_to_corr s
   /\ corr_shells s' = corr_shells s
   /\ length (dc_imp s') = length (dc_imp s)).

Lemma calc_dc_shell_Ok dens rule s icrsh s' :
  calc_dc_shell dens rule s icrsh = Ok s' ->
  same_shells s s'
  /\ (forall j, j <> icrsh -> dc_imp s' !! j = dc_imp s !! j)
  /\ exists shell,
       corr_shells s !! icrsh = Some shell
       /\ forall v, rule = UseValue v ->
            exists blocks,
              dc_imp s' !! icrsh = Some blocks
              /\ forall sp, In sp (spin_block_names (shell_SO shell)) ->
                   dict_find blocks sp
                   = Some (times (identity (dim shell)) v).
Proof.
  unfold InitialSelfEnergies.calc_dc_shell. intros Hrun.
  apply bind_Ok in Hrun as (shell & Hshell & Hrun).
  apply bind_Ok in Hrun as (dc_shell & Hdc & Hrun).
  cbv zeta in Hrun.
  apply bind_Ok in Hrun as (dc_imp' & Hset & Hrun).
  apply bind_Ok in Hrun as (dc_energ' & _ & Hrun).
  injection Hrun as <-. apply setitem_Ok in Hset as [-> Hlt]. simpl.
  split; [repeat split; auto; apply length_insert|]. split.
  - intros j Hne. apply list_lookup_insert_ne. congruence.
  - exists shell. split; [now apply getitem_Ok|].
    intros v ->. eexists. split.
    + apply list_lookup_insert_eq. assumption.
    + intros sp Hsp.
      apply (dict_set_all_find (times (identity (dim shell)) v)).
      assumption.
Qed.

(** The loop of [calc_dc] over the correlated shells, from shell [a]. *)
Lemma calc_dc_loop dens orb rule : forall k a s s',
  for_each (seq a k)
    (fun s icrsh =>
       ish ← getitem (corr_to_inequiv s) icrsh;
       if ish =? orb then calc_dc_shell dens rule s icrsh else Ok s)
    s = Ok s' ->
  same_shells s s'
  /\ (forall j, j < a \/ a + k <= j \/ corr_to_inequiv s !! j <> Some orb ->
        dc_imp s' !! j = dc_imp s !! j)
  /\ (forall j shell v,
        rule = UseValue v -> a <= j < a + k ->
        corr_to_inequiv s !! j = Some orb ->
        corr_shells s !! j = Some shell -> j < length (dc_imp s) ->
        exists blocks,
          dc_imp s' !! j = Some blocks
          /\ forall sp, In sp (spin_block_names (shell_SO shell)) ->
               dict_find blocks sp = Some (times (identity (dim shell)) v)).
Proof.
  induction k as [|k IH]; intros a s s' Hrun; simpl in Hrun.
  - injection Hrun as <-. repeat split; auto.
    intros j shell v _ Hj. lia.
  - apply bind_Ok in Hrun as (s1 & Hstep & Hrun).
    apply bind_Ok in Hstep as (ish & Hish & Hstep).
    apply getitem_Ok in Hish.
    assert (Hs1 : same_shells s s1
              /\ (forall j,
                    j <> a \/ corr_to_inequiv s !! a <> Some orb ->
                    dc_imp s1 !! j = dc_imp s !! j)
              /\ (forall shell v,
                    rule = UseValue v ->
                    corr_to_inequiv s !! a = Some orb ->
                    corr_shells s !! a = Some shell ->
                    exists blocks,
                      dc_imp s1 !! a = Some blocks
                      /\ forall sp,
                           In sp (spin_block_names (shell_SO shell)) ->
                           dict_find blocks sp
                           = Some (times (identity (dim shell)) v))).
    { destruct (Nat.eqb_spec ish orb) as [->|Hne].
      - destruct (calc_dc_shell_Ok _ _ _ _ _ Hstep)
          as (Hsame & Hother & shell0 & Hshell0 & Hwrite).
        split; [assumption|]. split.
        + intros j [Hj|Hj]; [now apply Hother | congruence].
        + intros shell v Hrule _ Hshell.
          assert (shell0 = shell) as -> by congruence.
          now apply Hwrite.
      - injection Hstep as <-. split; [repeat split; reflexivity|].
        split; [reflexivity|]. intros shell v _ Hmap. congruence. }
    destruct Hs1 as (Hs1 & Hother & Hwrite_a).
    destruct (IH (S a) s1 s' Hrun) as (Hsame & Hkeep & Hwrite).
    destruct Hs1 as (E1 & E2 & E3 & E4 & E5 & E6).
    destruct Hsame as (F1 & F2 & F3 & F4 & F5 & F6).
    split; [repeat split; congruence|]. split.
    + intros j Hj. rewrite Hkeep.
      * apply Hother. destruct Hj as [Hj|[Hj|Hj]]; try (left; lia).
        destruct (Nat.eq_dec j a) as [->|]; [now right|now left].
      * rewrite E3. destruct Hj as [Hj|[Hj|Hj]]; try (left; lia);
          try (right; left; lia). now right; right.
    + intros j shell v Hrule Hj Hmap Hshell Hlt.
      destruct (Nat.eq_dec j a) as [->|Hne].
      * rewrite Hkeep by (left; lia). now apply Hwrite_a.
      * apply (Hwrite j shell v Hrule); try congruence; try lia.
Qed.

Lemma calc_dc_spec dens orb rule s s' :
  calc_dc s dens orb rule = Ok s' ->
  same_shells s s'
  /\ (forall j, corr_to_inequiv s !! j <> Some orb ->
        dc_imp s' !! j = dc_imp s !! j)
  /\ (forall j shell v,
        rule = UseValue v -> j < n_corr_shells s ->
        corr_to_inequiv s !! j = Some orb ->
        corr_shells s !! j = Some shell -> j < length (dc_imp s) ->
        exists blocks,
          dc_imp s' !! j = Some blocks
          /\ forall sp, In sp (spin_block_names (shell_SO shell)) ->
               dict_find blocks sp = Some (times (identity (dim shell)) v)).
Proof.
  unfold InitialSelfEnergies.calc_dc. intros Hrun.
  destruct (calc_dc_loop dens orb rule (n_corr_shells s) 0 s s' Hrun)
    as (Hsame & Hkeep & Hwrite).
  split; [assumption|]. split.
  - intros j Hj. apply Hkeep. auto.
  - intros j shell v Hrule Hj. apply Hwrite; [assumption|lia].
Qed.

(** The loops that set one value for a list of impurities. *)
Lemma calc_dc_value_spec h dmDC v : forall shells s s',
  calc_dc_value h dmDC shells v s = Ok s' ->
  same_shells s s'
  /\ (forall j,
        (forall orb, corr_to_inequiv s !! j = Some orb -> ~ In orb shells) ->
        dc_imp s' !! j = dc_imp s !! j)
  /\ (forall j orb shell,
        j < n_corr_shells s -> corr_to_inequiv s !! j = Some orb ->
        In orb shells ->
        corr_shells s !! j = Some shell -> j < length (dc_imp s) ->
        exists blocks,
          dc_imp s' !! j = Some blocks
          /\ forall sp, In sp (spin_block_names (shell_SO shell)) ->
               dict_find blocks sp = Some (times (identity (dim shell)) v)).
Proof.
  unfold InitialSelfEnergies.calc_dc_value.
  induction shells as [|orb0 shells IH]; intros s s' Hrun; simpl in Hrun.
  - injection Hrun as <-. repeat split; auto.
    intros j orb shell _ _ [].
  - apply bind_Ok in Hrun as (s1 & Hstep & Hrun).
    apply bind_Ok in Hstep as (d & _ & Hstep).
    destruct (calc_dc_spec _ _ _ _ _ Hstep) as (Hs1 & Hkeep1 & Hwrite1).
    destruct (IH _ _ Hrun) as (Hsame & Hkeep & Hwrite).
    destruct Hs1 as (E1 & E2 & E3 & E4 & E5 & E6).
    destruct Hsame as (F1 & F2 & F3 & F4 & F5 & F6).
    split; [repeat split; congruence|]. split.
    + intros j Hj. rewrite Hkeep.
      * apply Hkeep1. intros Hmap. apply (Hj orb0 Hmap). now left.
      * intros orb Hmap Hin. rewrite E3 in Hmap.
        apply (Hj orb Hmap). now right.
    + intros j orb shell Hj Hmap Hin Hshell Hlt.
      destruct (in_dec Nat.eq_dec orb shells) as [Hin'|Hnot].
      * apply (Hwrite j orb shell); congruence.
      * destruct Hin as [->|Hin]; [|contradiction].
        rewrite Hkeep.
        -- apply (Hwrite1 j shell v); auto.
        -- intros orb' Hmap'. rewrite E3 in Hmap'. congruence.
Qed.

Lemma icrsh_hartree_In (solver_type_per_imp : list string) (i : nat) :
  In i (icrsh_hartree solver_type_per_imp)
  <-> solver_type_per_imp !! i = Some "hartree".
Proof.
  unfold icrsh_hartree. rewrite indices_where_In. split.
  - intros (x & Hx & Hp). apply String.eqb_eq in Hp. now subst.
  - intros Hx. exists "hartree". split; [assumption|reflexivity].
Qed.

Lemma icrsh_not_hartree_In (solver_type_per_imp : list string) (i : nat) :
  In i (icrsh_not_hartree solver_type_per_imp)
  <-> exists type, solver_type_per_imp !! i = Some type
                   /\ type <> "hartree".
Proof.
  unfold icrsh_not_hartree. rewrite indices_where_In. split.
  - intros (x & Hx & Hp). exists x. split; [assumption|].
    intros ->. discriminate.
  - intros (x & Hx & Hp). exists x. split; [assumption|].
    destruct (String.eqb_spec x "hartree"); [contradiction|reflexivity].
Qed.

(** The run of a call that takes the [dc_fixed_value] exit. *)
Lemma calculate_double_counting_fixed h sum_k dm gp gw ap types h' sum_k'
    value :
  dc_fixed_value ap = Some value ->
  calculate_double_counting h sum_k dm gp gw ap types = Ok (h', sum_k') ->
  exists dmDC s0,
    deepcopy h dm = (h', dmDC)
    /\ calc_dc_value h' dmDC (icrsh_hartree types) szero sum_k = Ok s0
    /\ calc_dc_value h' dmDC (icrsh_not_hartree types) value s0 = Ok sum_k'.
Proof.
  intros Hfix Hrun.
  unfold InitialSelfEnergies.calculate_double_counting in Hrun.
  destruct (deepcopy h dm) as [h1 dmDC].
  apply bind_Ok in Hrun as (s0 & Hzero & Hrun). rewrite Hfix in Hrun.
  apply bind_Ok in Hrun as (s1 & Hvalue & Hrun). injection Hrun as <- <-.
  eauto.
Qed.

(** X12: with [dc_fixed_value] the potential of every correlated shell
    whose impurity has a solver is the identity times one number on the
    spin blocks of the shell: zero for an impurity solved with 'hartree',
    the fixed value for every other one. The shells of impurities
    without a solver type keep their potential. *)
Theorem fixed_value_sets_every_potential (h : store R) sum_k density_matrix
    gp gw ap solver_type_per_imp h' sum_k' value :
  dc_fixed_value ap = Some value ->
  calculate_double_counting h sum_k density_matrix gp gw ap
    solver_type_per_imp = Ok (h', sum_k') ->
  (forall icrsh ineq type shell,
     icrsh < n_corr_shells sum_k ->
     corr_to_inequiv sum_k !! icrsh = Some ineq ->
     solver_type_per_imp !! ineq = Some type ->
     corr_shells sum_k !! icrsh = Some shell ->
     icrsh < length (dc_imp sum_k) ->
     exists blocks,
       dc_imp sum_k' !! icrsh = Some blocks
       /\ forall sp, In sp (spin_block_names (shell_SO shell)) ->
            dict_find blocks sp
            = Some (times (identity (dim shell))
                      (if String.eqb type "hartree" then szero else value)))
  /\ (forall icrsh ineq,
        corr_to_inequiv sum_k !! icrsh = Some ineq ->
        solver_type_per_imp !! ineq = None ->
        dc_imp sum_k' !! icrsh = dc_imp sum_k !! icrsh).
Proof.
  intros Hfix Hrun.
  destruct (calculate_double_counting_fixed _ _ _ _ _ _ _ _ _ _ Hfix Hrun)
    as (dmDC & s0 & _ & Hzero & Hvalue).
  destruct (calc_dc_value_spec _ _ _ _ _ _ Hzero) as (Hs0 & Hkeep0 & Hwrite0).
  destruct (calc_dc_value_spec _ _ _ _ _ _ Hvalue) as (Hs1 & Hkeep1 & Hwrite1).
  destruct Hs0 as (E1 & E2 & E3 & E4 & E5 & E6).
  split.
  - intros icrsh ineq type shell Hi Hmap Htype Hshell Hlt.
    destruct (String.eqb_spec type "hartree") as [->|Hne].
    + rewrite Hkeep1.
      * apply (Hwrite0 icrsh ineq shell); auto.
        now apply icrsh_hartree_In.
      * intros orb Hmap' Hin. rewrite E3 in Hmap'.
        apply icrsh_not_hartree_In in Hin as (t & Ht & Hne).
        congruence.
    + apply (Hwrite1 icrsh ineq shell); try congruence.
      apply icrsh_not_hartree_In. eauto.
  - intros icrsh ineq Hmap Htype.
    rewrite Hkeep1, Hkeep0; [reflexivity| |].
    + intros orb Hmap' Hin. apply icrsh_hartree_In in Hin. congruence.
    + intros orb Hmap' Hin. rewrite E3 in Hmap'.
      apply icrsh_not_hartree_In in Hin as (t & Ht & _). congruence.
Qed.

(** The base formula writes to the shells of the impurities it is run
    for, and to no other, when no impurity has a cRPA double counting. *)
Lemma base_formula_other gw gp ap h dmDC : forall shells s s',
  (forall icrsh v, In icrsh shells ->
     dc_type gp !! icrsh = Some (DcStr v) -> is_crpa v = false) ->
  base_formula gw gp ap h dmDC shells s = Ok s' ->
  same_shells s s'
  /\ forall j,
       (forall orb, corr_to_inequiv s !! j = Some orb -> ~ In orb shells) ->
       dc_imp s' !! j = dc_imp s !! j.
Proof.
  unfold InitialSelfEnergies.base_formula.
  induction shells as [|orb0 shells IH]; intros s s' Hcrpa Hrun;
    simpl in Hrun.
  - injection Hrun as <-. repeat split; auto.
  - apply bind_Ok in Hrun as (s1 & Hstep & Hrun).
    assert (Hs1 : exists dens rule, calc_dc s dens orb0 rule = Ok s1).
    { apply bind_Ok in Hstep as (t & Ht & Hstep).
      assert (Hstd : forall t',
                (U ← getitem (dc_U ap) orb0;
                 J ← getitem (dc_J ap) orb0;
                 d ← getitem dmDC orb0;
                 calc_dc s (load_dict h d) orb0 (UseFormula U J t'))
                = Ok s1 ->
                exists dens rule, calc_dc s dens orb0 rule = Ok s1).
      { intros t' Hs. apply bind_Ok in Hs as (U & _ & Hs).
        apply bind_Ok in Hs as (J & _ & Hs).
        apply bind_Ok in Hs as (d & _ & Hs). eauto. }
      destruct t as [n|v].
      - destruct (Z.eqb n 3); [|now apply (Hstd (DcInt n))].
        apply bind_Ok in Hstep as (U & _ & Hs).
        apply bind_Ok in Hs as (J & _ & Hs).
        apply bind_Ok in Hs as (d & _ & Hs). eauto.
      - apply getitem_Ok in Ht.
        rewrite (Hcrpa orb0 v (or_introl eq_refl) Ht) in Hstep.
        now apply (Hstd (DcStr v)). }
    destruct Hs1 as (dens & rule & Hs1).
    destruct (calc_dc_spec _ _ _ _ _ Hs1) as (Hs1' & Hkeep1 & _).
    destruct (IH _ _ (fun i v Hi => Hcrpa i v (or_intror Hi)) Hrun)
      as (Hsame & Hkeep).
    destruct Hs1' as (E1 & E2 & E3 & E4 & E5 & E6).
    destruct Hsame as (F1 & F2 & F3 & F4 & F5 & F6).
    split; [repeat split; congruence|].
    intros j Hj. rewrite Hkeep.
    + apply Hkeep1. intros Hmap. apply (Hj orb0 Hmap). now left.
    + intros orb Hmap Hin. rewrite E3 in Hmap.
      apply (Hj orb Hmap). now right.
Qed.

(** X13: without a cRPA double counting, a rescaling and an orbital
    shift, the potential that the call leaves for a correlated shell of an
    impurity solved with 'hartree' is zero on the spin blocks of the
    shell, whatever the formula, the fixed occupations and the nominal
    energies of the other impurities are. *)
Theorem hartree_impurity_has_zero_potential (h : store R) sum_k
    density_matrix gp gw ap solver_type_per_imp h' sum_k' :
  dc_factor ap = None ->
  dc_orb_shift ap = None ->
  (forall icrsh v, dc_type gp !! icrsh = Some (DcStr v) -> is_crpa v = false) ->
  calculate_double_counting h sum_k density_matrix gp gw ap
    solver_type_per_imp = Ok (h', sum_k') ->
  forall icrsh ineq shell,
    icrsh < n_corr_shells sum_k ->
    corr_to_inequiv sum_k !! icrsh = Some ineq ->
    solver_type_per_imp !! ineq = Some "hartree" ->
    corr_shells sum_k !! icrsh = Some shell ->
    icrsh < length (dc_imp sum_k) ->
    exists blocks,
      dc_imp sum_k' !! icrsh = Some blocks
      /\ forall sp, In sp (spin_block_names (shell_SO shell)) ->
           dict_find blocks sp = Some (times (identity (dim shell)) szero).
Proof.
  intros Hfactor Hshift Hcrpa Hrun icrsh ineq shell Hi Hmap Htype Hshell Hlt.
  destruct (dc_fixed_value ap) as [value|] eqn:Hfix.
  - destruct (calculate_double_counting_fixed _ _ _ _ _ _ _ _ _ _ Hfix Hrun)
      as (dmDC & s0 & _ & Hzero & Hvalue).
    destruct (calc_dc_value_spec _ _ _ _ _ _ Hzero) as (Hs0 & _ & Hwrite0).
    destruct (calc_dc_value_spec _ _ _ _ _ _ Hvalue) as (_ & Hkeep1 & _).
    destruct Hs0 as (E1 & E2 & E3 & E4 & E5 & E6).
    rewrite Hkeep1.
    + apply (Hwrite0 icrsh ineq shell); auto. now apply icrsh_hartree_In.
    + intros orb Hmap' Hin. rewrite E3 in Hmap'.
      apply icrsh_not_hartree_In in Hin as (t & Ht & Hne). congruence.
  - destruct (calculate_double_counting_regular total_density dc_potential
                dc_energy crpa_double_counting _ _ _ _ _ _ _ _ _ Hfix Hrun)
      as (h1 & dmDC & s0 & s_base & _ & Hzero & _ & Hbase & Hpost).
    destruct (calc_dc_value_spec _ _ _ _ _ _ Hzero)
      as (Hs0 & _ & Hwrite0).
    destruct (Hwrite0 icrsh ineq shell Hi Hmap
                (proj2 (icrsh_hartree_In _ _) Htype) Hshell Hlt)
      as (blocks & Hb & Hsp).
    exists blocks. split; [|assumption].
    destruct (base_formula_other gw gp ap h' dmDC _ _ _
                (fun i v _ => Hcrpa i v) Hbase) as (_ & Hkeep).
    destruct Hs0 as (E1 & E2 & E3 & E4 & E5 & E6).
    assert (Hbase_imp : dc_imp s_base !! icrsh = Some blocks).
    { rewrite Hkeep; [assumption|].
      intros orb Hmap' Hin. rewrite E3 in Hmap'.
      apply icrsh_not_hartree_In in Hin as (t & Ht & Hne). congruence. }
    unfold post_process in Hpost. rewrite Hfactor, Hshift in Hpost.
    apply bind_Ok in Hpost as (s_nom & Hnom & Hpost). injection Hpost as <-.
    destruct (dc_nominal ap).
    + destruct (str_in_list "Hartree" solver_type_per_imp); [discriminate|].
      apply (nominal_dc_Ok total_density dc_potential dc_energy
               crpa_double_counting) in Hnom as [Hkeep_nom _].
      rewrite Hkeep_nom. exact Hbase_imp.
    + injection Hnom as <-. assumption.
Qed.

End DoubleCounting.
End PotentialFacts.

(** ** The fixed occupations and the orbital shift *)

Module ShiftFacts.
Import InitialSelfEnergies StoreFacts LoopFacts ArrayFacts
  DoubleCountingFacts SolverMapFacts.

Section FixedOccupations.
Context {R : Type} `{Scalar R} {Dyn : Type}.
Implicit Types (sum_k : @SumkDFT R Dyn) (h : store R)
  (ap : @advanced_params R).

(** Filling the diagonal with a value a second time changes nothing. *)
Lemma fill_diagonal_twice (M : @matrix R) v :
  fill_diagonal (fill_diagonal M v) v = fill_diagonal M v.
Proof.
  unfold fill_diagonal, matrix in *. apply list_eq. intros i.
  rewrite !list_lookup_imap. destruct (M !! i) as [row|]; simpl;
    [|reflexivity].
  f_equal. apply list_insert_insert_eq.
Qed.

Lemma lookup_values (ds : arrays) i (d : dict loc) :
  ds !! i = Some d -> map values ds !! i = Some (values d).
Proof.
  intros Hd. rewrite list_lookup_fmap. unfold arrays, loc in *.
  now rewrite Hd.
Qed.

(** [for inner in d.values(): np.fill_diagonal(inner, v)] *)
Lemma fill_values_other v l : forall (ls : list loc) h,
  ~ In l ls ->
  fold_left (fun h inner => <[inner := fill_diagonal (load h inner) v]> h)
    ls h !! l = h !! l.
Proof.
  induction ls as [|l0 ls IH]; intros h Hnot; simpl; [reflexivity|].
  rewrite IH by (intros Hin; apply Hnot; now right).
  apply lookup_insert_ne. intros ->. apply Hnot. now left.
Qed.

Lemma fill_values_filled v l : forall (ls : list loc) h,
  In l ls ->
  load (fold_left
          (fun h inner => <[inner := fill_diagonal (load h inner) v]> h)
          ls h) l
  = fill_diagonal (load h l) v.
Proof.
  induction ls as [|l0 ls IH]; intros h Hin; [destruct Hin|]. simpl.
  destruct (in_dec Nat.eq_dec l ls) as [Hin'|Hnot].
  - rewrite IH by assumption. unfold load at 1.
    destruct (Nat.eq_dec l0 l) as [->|Hne].
    + rewrite lookup_insert_eq. simpl. apply fill_diagonal_twice.
    + rewrite lookup_insert_ne by assumption. reflexivity.
  - destruct Hin as [->|Hin]; [|contradiction].
    unfold load at 1. rewrite fill_values_other by assumption.
    now rewrite lookup_insert_eq.
Qed.

(** X14: when no array of the copy of the density matrix is shared, the
    fixed occupation of an impurity is written to the diagonal of every
    block of the impurity: [n / (2 n_orb)] on every diagonal entry, the
    rest of the block as it was. The blocks of the impurities without
    a fixed occupation, and of those the loop does not run over, are
    left as they were. *)
Theorem fix_occupations_fills_the_diagonals sum_k ap
    (density_matrix_DC : arrays) (shells : list nat) h h' :
  NoDup (concat (map values density_matrix_DC)) ->
  fix_occupations sum_k ap density_matrix_DC shells h = Ok h' ->
  forall icrsh d l,
    density_matrix_DC !! icrsh = Some d -> In l (values d) ->
    (In icrsh shells ->
     forall occ, dc_fixed_occ ap !! icrsh = Some (Some occ) ->
       exists shell,
         corr_shells sum_k !! icrsh = Some shell
         /\ load h' l
            = fill_diagonal (load h l) (sdiv occ (sof_nat (dim shell * 2))))
    /\ (~ In icrsh shells \/ dc_fixed_occ ap !! icrsh = Some None ->
        load h' l = load h l).
Proof.
  intros Hnd Hrun icrsh d l Hd Hl. unfold fix_occupations in Hrun.
  assert (Hown : forall icrsh' d', density_matrix_DC !! icrsh' = Some d' ->
            In l (values d') -> icrsh' = icrsh).
  { intros icrsh' d' Hd' Hl'.
    apply (concat_NoDup_unique l (map values density_matrix_DC)
             icrsh' icrsh (values d') (values d)); auto using lookup_values. }
  revert h Hrun.
  induction shells as [|i0 shells IH]; intros h Hrun; simpl in Hrun.
  - injection Hrun as <-. split; [intros []|reflexivity].
  - apply bind_Ok in Hrun as (h1 & Hstep & Hrun).
    destruct (IH _ Hrun) as [IHfill IHkeep].
    (* the step for [i0] *)
    assert (Hstep' :
              (i0 = icrsh /\ exists occ shell,
                 dc_fixed_occ ap !! icrsh = Some (Some occ)
                 /\ corr_shells sum_k !! icrsh = Some shell
                 /\ load h1 l
                    = fill_diagonal (load h l)
                        (sdiv occ (sof_nat (dim shell * 2))))
              \/ ((i0 <> icrsh \/ dc_fixed_occ ap !! icrsh = Some None)
                  /\ load h1 l = load h l)).
    { apply bind_Ok in Hstep as ([occ|] & Hocc & Hstep).
      - apply bind_Ok in Hstep as (shell & Hshell & Hstep).
        destruct (dim shell * 2 =? 0); [discriminate|].
        apply bind_Ok in Hstep as (d0 & Hd0 & Hstep). injection Hstep as <-.
        apply getitem_Ok in Hocc, Hshell, Hd0.
        destruct (Nat.eq_dec i0 icrsh) as [->|Hne].
        + left. split; [reflexivity|]. exists occ, shell.
          repeat (split; [assumption|]).
          pose proof (eq_trans (eq_sym Hd) Hd0) as Heq.
          injection Heq as <-.
          now apply fill_values_filled.
        + right. split; [now left|]. unfold load.
          rewrite fill_values_other; [reflexivity|].
          intros Hin. apply Hne. eapply Hown; eauto.
      - injection Hstep as <-. right. split; [|reflexivity].
        apply getitem_Ok in Hocc.
        destruct (Nat.eq_dec i0 icrsh) as [->|Hne]; [now right|now left]. }
    split.
    + intros Hin occ Hocc.
      destruct Hstep' as [(-> & occ' & shell & Hocc' & Hshell & Hload)
                         |[Hcase Hload]].
      * rewrite Hocc in Hocc'. injection Hocc' as <-.
        exists shell. split; [assumption|].
        destruct (in_dec Nat.eq_dec icrsh shells) as [Hin'|Hnot].
        -- destruct (IHfill Hin' occ Hocc) as (shell' & Hshell' & Hload').
           rewrite Hshell in Hshell'. injection Hshell' as <-.
           rewrite Hload', Hload. apply fill_diagonal_twice.
        -- rewrite IHkeep by (now left). assumption.
      * destruct Hcase as [Hne|Hnone]; [|congruence].
        destruct Hin as [->|Hin]; [contradiction|].
        destruct (IHfill Hin occ Hocc) as (shell & Hshell & Hload').
        exists shell. split; [assumption|]. now rewrite Hload', Hload.
    + intros Hcase.
      destruct Hstep' as [(-> & occ' & shell & Hocc' & Hshell & Hload)
                         |[_ Hload]].
      * destruct Hcase as [Hnot|Hnone]; [|congruence].
        exfalso. apply Hnot. now left.
      * rewrite <- Hload. apply IHkeep.
        destruct Hcase as [Hnot|Hnone]; [left|now right].
        intros Hin. apply Hnot. now right.
Qed.
End FixedOccupations.

Section OrbitalShift.
Context {R : Type} `{Scalar R} {Dyn : Type}.
Implicit Types (sum_k s : @SumkDFT R Dyn).

Lemma split_shifts_lookup : forall (dims : list nat) (shifts : list R) i d,
  dims !! i = Some d ->
  split_shifts dims shifts !! i
  = Some (firstn d (skipn (list_sum (firstn i dims)) shifts)).
Proof.
  induction dims as [|d0 dims IH]; intros shifts i d Hd; [discriminate|].
  destruct i as [|i]; simpl in *.
  - now injection Hd as <-.
  - rewrite (IH _ _ _ Hd). now rewrite drop_drop.
Qed.

(** X15: the loop that slices the shifts gives impurity [i] the
    [dims[i]] shifts that follow those of the impurities before it; when
    there are as many shifts as orbitals the slices put together are the
    shifts, each slice with one shift per orbital of its impurity; and
    shifts beyond the orbitals there are change nothing. *)
Theorem split_shifts_slices (dims : list nat) (shifts : list R) :
  (forall i d, dims !! i = Some d ->
     split_shifts dims shifts !! i
     = Some (firstn d (skipn (list_sum (firstn i dims)) shifts)))
  /\ length (split_shifts dims shifts) = length dims
  /\ (length shifts = list_sum dims ->
      concat (split_shifts dims shifts) = shifts
      /\ map length (split_shifts dims shifts) = dims)
  /\ (forall surplus, list_sum dims <= length shifts ->
        split_shifts dims (shifts ++ surplus) = split_shifts dims shifts).
Proof.
  split; [apply split_shifts_lookup|]. split; [|split].
  - revert shifts. induction dims as [|d dims IH]; intros shifts; simpl;
      [reflexivity|]. now rewrite IH.
  - revert shifts. induction dims as [|d dims IH]; simpl; intros shifts Hlen.
    + destruct shifts; [auto | discriminate].
    + destruct (IH (skipn d shifts)) as [Hc Hl].
      { rewrite length_skipn. lia. }
      rewrite Hc, Hl. split; [apply firstn_skipn|].
      f_equal. rewrite length_firstn. lia.
  - intros surplus. revert shifts.
    induction dims as [|d dims IH]; simpl; intros shifts Hlen;
      [reflexivity|].
    rewrite firstn_app, skipn_app.
    replace (d - length shifts) with 0 by lia. simpl.
    rewrite app_nil_r. f_equal. apply IH. rewrite length_skipn. lia.
Qed.

Lemma dims_comprehension (shells : list (@corr_shell)) n dims :
  comprehension
    (fun icrsh => shell ← getitem shells icrsh; Ok (dim shell))
    (seq 0 n) = Ok dims ->
  dims = map dim (firstn n shells) /\ n <= length shells.
Proof.
  intros Hc.
  assert (Hlen : length dims = n).
  { rewrite (comprehension_length _ _ _ Hc). apply length_seq. }
  assert (Hlook : forall i, i < n ->
            exists shell, shells !! i = Some shell
                          /\ dims !! i = Some (dim shell)).
  { intros i Hi.
    destruct (comprehension_seq_lookup _ _ _ _ Hc Hi) as (d & Hd & Hdi).
    apply bind_Ok in Hd as (shell & Hs & Hd). injection Hd as <-.
    apply getitem_Ok in Hs. eauto. }
  assert (Hn : n <= length shells).
  { destruct n as [|n]; [lia|].
    destruct (Hlook n) as (shell & Hs & _); [lia|].
    apply lookup_lt_Some in Hs. lia. }
  split; [|assumption].
  apply list_eq. intros i. rewrite list_lookup_fmap.
  destruct (Nat.lt_ge_cases i n) as [Hi|Hi].
  - destruct (Hlook i Hi) as (shell & Hs & ->).
    rewrite lookup_take_lt by assumption. now rewrite Hs.
  - rewrite lookup_ge_None_2 by lia.
    rewrite lookup_take_ge by assumption. reflexivity.
Qed.

Lemma np_array_Ok (rows : list (list R)) M : np_array rows = Ok M -> M = rows.
Proof.
  unfold np_array. destruct rows as [|r rs]; [now intros [= <-]|].
  destruct (forallb _ rs); [now intros [= <-]|discriminate].
Qed.

(** X16: when the orbital shift returns, the potential of a correlated
    shell is, block by block, the potential that the representative
    shell of its impurity had, plus the diagonal matrix of the slice of
    the shifts of the impurity; the slices are cut by the dimensions of
    the first [n_inequiv_shells] correlated shells. The energies are
    not changed. *)
Theorem orbital_shift_adds_the_slice (shifts : list R) s s' :
  orbital_shift_dc shifts s = Ok s' ->
  let dims := map dim (firstn (n_inequiv_shells s) (corr_shells s)) in
  dc_energ s' = dc_energ s
  /\ length (dc_imp s') = length (dc_imp s)
  /\ (forall j, n_corr_shells s <= j -> dc_imp s' !! j = dc_imp s !! j)
  /\ forall ish, ish < n_corr_shells s ->
       exists ineq n_orb ic dc_shell shifted,
         corr_to_inequiv s !! ish = Some ineq
         /\ dims !! ineq = Some n_orb
         /\ inequiv_to_corr s !! ineq = Some ic
         /\ dc_imp s !! ic = Some dc_shell
         /\ dc_imp s' !! ish = Some shifted
         /\ Forall2
              (fun (spin_dc spin_shifted : string * @matrix R) =>
                 fst spin_shifted = fst spin_dc
                 /\ np_add (snd spin_dc)
                      (diag (firstn n_orb
                               (skipn (list_sum (firstn ineq dims)) shifts)))
                    = Ok (snd spin_shifted))
              dc_shell shifted.
Proof.
  intros Hrun dims. unfold orbital_shift_dc in Hrun.
  apply bind_Ok in Hrun as (dims' & Hdims & Hrun).
  apply dims_comprehension in Hdims as [Hdims Hn]. fold dims in Hdims.
  subst dims'.
  apply bind_Ok in Hrun as (dc_orb_shift & Harr & Hrun).
  apply np_array_Ok in Harr. subst dc_orb_shift.
  apply bind_Ok in Hrun as (dc & Hdc & Hrun).
  apply bind_Ok in Hrun as (dc_imp' & Hloop & Hrun). injection Hrun as <-.
  simpl.
  assert (Hbody : forall (l : list (dict (@matrix R))) i l',
            (ineq ← getitem (corr_to_inequiv s) i;
             d ← getitem dc ineq;
             setitem l i d) = Ok l' ->
            exists v,
              (exists ineq, corr_to_inequiv s !! i = Some ineq
                            /\ dc !! ineq = Some v)
              /\ l' = <[i := v]> l /\ i < length l).
  { intros l i l' Hb.
    apply bind_Ok in Hb as (ineq & Hineq & Hb).
    apply bind_Ok in Hb as (d & Hd & Hb).
    apply setitem_Ok in Hb as [-> Hlt].
    apply getitem_Ok in Hineq, Hd. exists d. eauto. }
  destruct (for_each_seq_writes
              (fun i (_ : option (dict (@matrix R))) v =>
                 exists ineq, corr_to_inequiv s !! i = Some ineq
                              /\ dc !! ineq = Some v)
              _ Hbody _ _ _ _ Hloop) as (Hlen & Hout & Hin).
  split; [reflexivity|]. split; [assumption|]. split.
  { intros j Hj. apply Hout. right. simpl. lia. }
  intros ish Hish.
  destruct (Hin ish) as (shifted & (ineq & Hineq & Hdcineq) & Hs');
    [simpl; lia|].
  assert (Hlt : ineq < n_inequiv_shells s).
  { apply lookup_lt_Some in Hdcineq.
    rewrite (comprehension_length _ _ _ Hdc), length_seq in Hdcineq.
    assumption. }
  destruct (comprehension_seq_lookup _ _ _ _ Hdc Hlt) as (v & Hv & Hdcv).
  rewrite Hdcineq in Hdcv. injection Hdcv as <-.
  apply bind_Ok in Hv as (shift & Hshift & Hv).
  apply bind_Ok in Hv as (ic & Hic & Hv).
  apply bind_Ok in Hv as (dc_shell & Hshell & Hv).
  apply getitem_Ok in Hshift, Hic, Hshell.
  assert (Hd : exists n_orb, dims !! ineq = Some n_orb).
  { apply lookup_lt_is_Some_2. unfold dims.
    rewrite length_map, length_take. lia. }
  destruct Hd as [n_orb Hd].
  rewrite (split_shifts_lookup _ _ _ _ Hd) in Hshift.
  injection Hshift as <-.
  exists ineq, n_orb, ic, dc_shell, shifted.
  repeat (split; [assumption|]).
  apply comprehension_Ok in Hv.
  eapply Forall2_impl; [exact Hv|].
  intros [spin m] [spin' m'] Hb. simpl in *.
  apply bind_Ok in Hb as (m0 & Hadd & Hb). injection Hb as <- <-.
  split; [reflexivity|assumption].
Qed.
End OrbitalShift.

End ShiftFacts.

(** ** More on [_set_loaded_sigma] and [_sumk_sigma_to_solver_struct] *)

Module LoadedSigmaMoreFacts.
Import InitialSelfEnergies LoopFacts ArrayFacts.

Lemma insert_sorted_Permutation k ks : Permutation (insert_sorted k ks) (k :: ks).
Proof.
  induction ks as [|k' ks IH]; simpl; [reflexivity|].
  destruct (String.leb k k'); [reflexivity|].
  rewrite IH. apply perm_swap.
Qed.

Lemma sorted_Permutation ks : Permutation (sorted ks) ks.
Proof.
  induction ks as [|k ks IH]; simpl; [reflexivity|].
  rewrite insert_sorted_Permutation. now constructor.
Qed.

Lemma sorted_keys_In {V W} (d : dict V) (d' : dict W) k :
  sorted (keys d) = sorted (keys d') -> In k (keys d) -> In k (keys d').
Proof.
  intros Heq Hin.
  apply (Permutation_in _ (sorted_Permutation (keys d'))).
  rewrite <- Heq.
  apply (Permutation_in _ (Permutation_sym (sorted_Permutation (keys d)))).
  assumption.
Qed.

Section LoadedSigma.
Context {R : Type} `{Scalar R} {Dyn : Type}.
Variable rotloc_toLocal : @SumkDFT R Dyn -> nat -> @gf R -> @gf R.
Variable put_Sigma :
  @SumkDFT R Dyn -> list (@BlockGf R) -> result (list (@BlockGf R)).
Variable rotate_dc : @SumkDFT R Dyn -> nat -> @matrix R -> @matrix R.

Implicit Types (sum_k : @SumkDFT R Dyn) (sigma : list (@BlockGf R)).

Local Abbreviation _set_loaded_sigma :=
  (_set_loaded_sigma rotloc_toLocal put_Sigma rotate_dc).
Local Abbreviation _sumk_sigma_to_solver_struct :=
  (_sumk_sigma_to_solver_struct rotloc_toLocal).

Ltac unalias := unfold BlockGf, gf, matrix in *.

Lemma allclose_raises (a b : @matrix R) e :
  allclose a b = Raise e -> e = ValueError.
Proof.
  unfold allclose, broadcast2.
  destruct (broadcast_dim (nrows a) (nrows b)),
    (broadcast_dim (ncols a) (ncols b)); simpl; congruence.
Qed.

Lemma channel_changed_raises (loaded calc : dict (@matrix R)) e :
  forall channels,
    (forall ch, In ch channels -> In ch (keys loaded) /\ In ch (keys calc)) ->
    channel_changed channels loaded calc = Raise e -> e = ValueError.
Proof.
  induction channels as [|ch channels IH]; intros Hkeys Hr; simpl in Hr;
    [discriminate|].
  destruct (Hkeys ch (or_introl eq_refl)) as [Hl Hc].
  apply keys_dict_find in Hl as [a Ha]. apply keys_dict_find in Hc as [b Hb].
  rewrite (dict_find_get _ _ _ Ha) in Hr. simpl in Hr.
  rewrite (dict_find_get _ _ _ Hb) in Hr. simpl in Hr.
  destruct (allclose a b) as [c|e'] eqn:Hclose; simpl in Hr.
  - destruct c; [|discriminate].
    apply IH; [|assumption]. intros ch' Hin. apply Hkeys. now right.
  - injection Hr as <-. eapply allclose_raises; eauto.
Qed.

Lemma compare_step_raises (loaded calc : dict (@matrix R)) changed e :
  (if strings_eqb (sorted (keys loaded)) (sorted (keys calc))
   then c ← channel_changed (keys loaded) loaded calc; Ok (changed || c)
   else Raise ValueError) = Raise e ->
  e = ValueError.
Proof.
  destruct (strings_eqb _ _) eqn:Heq; [|congruence].
  apply strings_eqb_eq in Heq.
  destruct (channel_changed _ _ _) as [c|e'] eqn:Hch; simpl; [discriminate|].
  intros [= <-]. eapply channel_changed_raises; [|exact Hch].
  intros ch Hin. split; [assumption|]. eapply sorted_keys_In; eauto.
Qed.

Lemma compare_raises (zs : list (dict (@matrix R) * dict (@matrix R))) e :
  forall changed,
    for_each zs
      (fun changed shells =>
         let '(loaded_dc_shell, calc_dc_shell) := shells in
         if strings_eqb (sorted (keys loaded_dc_shell))
                        (sorted (keys calc_dc_shell))
         then
           c ← channel_changed (keys loaded_dc_shell)
                 loaded_dc_shell calc_dc_shell;
           Ok (changed || c)
         else Raise ValueError)
      changed = Raise e ->
    e = ValueError.
Proof.
  induction zs as [|[l c] zs IH]; intros changed Hr; simpl in Hr;
    [discriminate|].
  match type of Hr with
  | (?step ≫= _) = _ => destruct step as [ch'|e'] eqn:Hstep
  end; simpl in Hr.
  - eapply IH; eauto.
  - injection Hr as <-. eapply compare_step_raises; eauto.
Qed.

Lemma compare_mismatch (zs : list (dict (@matrix R) * dict (@matrix R))) :
  forall i l c changed,
    zs !! i = Some (l, c) -> sorted (keys l) <> sorted (keys c) ->
    for_each zs
      (fun changed shells =>
         let '(loaded_dc_shell, calc_dc_shell) := shells in
         if strings_eqb (sorted (keys loaded_dc_shell))
                        (sorted (keys calc_dc_shell))
         then
           c ← channel_changed (keys loaded_dc_shell)
                 loaded_dc_shell calc_dc_shell;
           Ok (changed || c)
         else Raise ValueError)
      changed = Raise ValueError.
Proof.
  induction zs as [|[l0 c0] zs IH]; intros i l c changed Hi Hne;
    [discriminate|].
  simpl. destruct i as [|i]; simpl in Hi.
  - injection Hi as -> ->.
    destruct (strings_eqb _ _) eqn:Heq; [|reflexivity].
    apply strings_eqb_eq in Heq. contradiction.
  - match goal with
    | |- (?step ≫= _) = _ => destruct step as [ch'|e'] eqn:Hstep
    end; simpl.
    + eapply IH; eauto.
    + f_equal. eapply compare_step_raises; eauto.
Qed.

(** X17: a loaded double counting of another block structure is refused
    with [ValueError]: when it has another number of shells than the
    calculated one, and when some shell has other channels than the
    shell it is compared with. The comparison raises nothing else. *)
Theorem set_loaded_sigma_refuses_other_block_structure sum_k loaded_sigma
    (loaded_dc_imp : list (dict (@matrix R))) :
  (length loaded_dc_imp <> length (dc_imp sum_k) ->
   _set_loaded_sigma sum_k loaded_sigma loaded_dc_imp = Raise ValueError)
  /\ (forall icrsh loaded_dc_shell calc_dc_shell,
        loaded_dc_imp !! icrsh = Some loaded_dc_shell ->
        dc_imp sum_k !! icrsh = Some calc_dc_shell ->
        sorted (keys loaded_dc_shell) <> sorted (keys calc_dc_shell) ->
        _set_loaded_sigma sum_k loaded_sigma loaded_dc_imp
        = Raise ValueError)
  /\ (forall e,
        has_double_counting_changed loaded_dc_imp (dc_imp sum_k) = Raise e ->
        e = ValueError).
Proof.
  unfold InitialSelfEnergies._set_loaded_sigma.
  split; [|split].
  - intros Hlen. apply Nat.eqb_neq in Hlen. now rewrite Hlen.
  - intros icrsh l c Hl Hc Hne.
    destruct (length loaded_dc_imp =? length (dc_imp sum_k)); simpl;
      [|reflexivity].
    unfold has_double_counting_changed.
    rewrite (compare_mismatch _ icrsh l c); [reflexivity| |assumption].
    apply lookup_zip_with_Some. exists l, c. auto.
  - intros e. unfold has_double_counting_changed. apply compare_raises.
Qed.

Lemma comprehension_keys {V W} (F : string * V -> result W) (d : dict V)
    (d' : dict W) :
  comprehension (fun kv => w ← F kv; Ok (fst kv, w)) d = Ok d' ->
  keys d' = keys d.
Proof.
  revert d'. induction d as [|kv d IH]; intros d' Hc; simpl in Hc.
  - now injection Hc as <-.
  - apply bind_Ok in Hc as (y & Hy & Hc).
    apply bind_Ok in Hc as (ys & Hys & Hc). injection Hc as <-.
    apply bind_Ok in Hy as (w & _ & Hy). injection Hy as <-.
    simpl. f_equal. now apply IH.
Qed.

(** X18: without rotations, the self-energies in the solver blocks have
    one entry per inequivalent shell, with the blocks of
    [gf_struct_solver] in their order; a block has the mesh of the first
    lattice-side self-energy, and its entry [(ind1, ind2)] at a mesh
    point is the entry [(ind1_sumk, ind2_sumk)] of the lattice-side block
    that [solver_to_sumk] names for [ind2], of the representative
    shell. *)
Theorem sumk_sigma_to_solver_struct_entries sum_k
    (start_sigma out : list (@BlockGf R)) :
  use_rotations sum_k = false ->
  _sumk_sigma_to_solver_struct sum_k start_sigma = Ok out ->
  length out = n_inequiv_shells sum_k
  /\ forall ish struct,
       ish < n_inequiv_shells sum_k ->
       gf_struct_solver sum_k !! ish = Some struct ->
       exists imp,
         out !! ish = Some imp
         /\ keys imp = keys struct
         /\ forall block dim,
              dict_find struct block = Some dim ->
              exists g first,
                dict_find imp block = Some g
                /\ start_sigma !! 0 = Some first
                /\ length g = mesh_size first
                /\ forall w ind1 ind2,
                     w < mesh_size first -> ind1 < dim -> ind2 < dim ->
                     exists s2s b1 b2 icrsh (shell_sigma : @BlockGf R)
                            gsrc m m' v,
                       solver_to_sumk sum_k !! ish = Some s2s
                       /\ map_find s2s (block, ind1) = Some b1
                       /\ map_find s2s (block, ind2) = Some b2
                       /\ inequiv_to_corr sum_k !! ish = Some icrsh
                       /\ start_sigma !! icrsh = Some shell_sigma
                       /\ dict_find shell_sigma (fst b2) = Some gsrc
                       /\ gsrc !! w = Some m
                       /\ entry m (snd b1) (snd b2) = Ok v
                       /\ g !! w = Some m'
                       /\ entry m' ind1 ind2 = Ok v.
Proof.
  intros Hrot Hrun.
  unfold InitialSelfEnergies._sumk_sigma_to_solver_struct in Hrun.
  rewrite Hrot in Hrun.
  apply bind_Ok in Hrun as (Sigma_local & Hloc & Hout).
  assert (Hlen0 : length Sigma_local = n_corr_shells sum_k).
  { rewrite (comprehension_length _ _ _ Hloc). apply length_seq. }
  assert (Hstart : forall i x, Sigma_local !! i = Some x ->
            start_sigma !! i = Some x).
  { intros i x Hx.
    assert (Hi : i < n_corr_shells sum_k).
    { apply lookup_lt_Some in Hx. lia. }
    destruct (comprehension_seq_lookup _ _ _ _ Hloc Hi) as (y & Hy & HS).
    apply getitem_Ok in Hy.
    pose proof (eq_trans (eq_sym Hx) HS) as Heq. injection Heq as <-.
    assumption. }
  split.
  { rewrite (comprehension_length _ _ _ Hout). apply length_seq. }
  intros ish struct Hish Hstruct.
  destruct (comprehension_seq_lookup _ _ _ _ Hout Hish)
    as (imp & Himp & Hout_ish).
  unalias. rewrite (getitem_Some _ _ _ Hstruct) in Himp. simpl in Himp.
  exists imp. split; [assumption|]. split.
  { apply (comprehension_keys
             (fun kv => solver_block sum_k Sigma_local Sigma_local ish
                          (fst kv) (snd kv))).
    exact Himp. }
  intros block dim Hdim.
  pose (F := fun (block : string) (dim : nat) =>
    solver_block sum_k Sigma_local Sigma_local ish block dim).
  assert (Hbody : forall (kv : string * nat) r,
    (g ← solver_block sum_k Sigma_local Sigma_local ish (fst kv) (snd kv);
     Ok (fst kv, g)) = Ok r ->
    exists w, F (fst kv) (snd kv) = Ok w /\ r = (fst kv, w)).
  { intros kv r Hr. unfold F.
    apply bind_Ok in Hr as (x & -> & Hr). injection Hr as <-. eauto. }
  destruct (comprehension_dict_find _ F _ _ Hbody Himp _ _ Hdim)
    as (g & Hg & Hfind).
  unfold F, solver_block in Hg. unalias.
  apply bind_Ok in Hg as (first & Hfirst & Hg).
  apply getitem_Ok in Hfirst. apply Hstart in Hfirst.
  apply bind_Ok in Hg as (sources & Hsrc & Hdata).
  exists g, first. split; [assumption|]. split; [assumption|]. split.
  { rewrite (comprehension_length _ _ _ Hdata). apply length_seq. }
  intros w ind1 ind2 Hw Hind1 Hind2.
  destruct (comprehension_seq_lookup _ _ _ _ Hdata Hw)
    as (mrows & Hmrows & Hgw).
  destruct (comprehension_seq_lookup _ _ _ _ Hsrc Hind1)
    as (row1 & Hrow1 & Hsources1).
  destruct (comprehension_seq_lookup _ _ _ _ Hrow1 Hind2)
    as (src & Hsrc12 & Hrow12).
  apply bind_Ok in Hsrc12 as (s2s & Hs2s & Hsrc12).
  apply bind_Ok in Hsrc12 as (b1 & Hb1 & Hsrc12).
  apply bind_Ok in Hsrc12 as (b2 & Hb2 & Hsrc12).
  apply bind_Ok in Hsrc12 as (icrsh & Hicrsh & Hsrc12).
  apply bind_Ok in Hsrc12 as (shell_sigma & Hlocal_i & Hsrc12).
  apply bind_Ok in Hsrc12 as (gsrc & Hgsrc & Hsrc12).
  injection Hsrc12 as <-.
  apply getitem_Ok in Hs2s, Hicrsh, Hlocal_i. apply dict_get_Ok in Hgsrc.
  apply Hstart in Hlocal_i.
  unfold map_get in Hb1, Hb2.
  destruct (map_find s2s (block, ind1)) as [b1'|] eqn:Hm1; [|discriminate].
  destruct (map_find s2s (block, ind2)) as [b2'|] eqn:Hm2; [|discriminate].
  injection Hb1 as ->. injection Hb2 as ->.
  destruct (comprehension_lookup _ _ _ _ _ Hmrows Hsources1)
    as (r & Hr & Hmrows1).
  destruct (comprehension_lookup _ _ _ _ _ Hr Hrow12) as (v & Hv & Hr2).
  simpl in Hv. apply bind_Ok in Hv as (m & Hm & Hv).
  apply getitem_Ok in Hm.
  exists s2s, b1, b2, icrsh, shell_sigma, gsrc, m, mrows, v.
  repeat (split; [assumption|]).
  unfold entry. rewrite (getitem_Some _ _ _ Hmrows1). simpl.
  now apply getitem_Some.
Qed.

End LoadedSigma.
End LoadedSigmaMoreFacts.

(** * The further properties on concrete runs *)

Module MoreRuns.
Import Examples.

Section DmftCycleRuns.
Import DmftCycle DmftCycleSetup ParameterFacts SolverMapFacts SetupFacts
  IterationFacts BlockStructureMoreFacts.

Lemma extract_keys_expands_witness :
  extract_keys ["U"; "J"] 2 two_shell_params = Ok expanded_two_shell_params
  /\ ((forall key, In key ["U"; "J"] ->
         (exists a, two_shell_params !! key = Some (Atom a)
                    /\ expanded_two_shell_params !! key
                       = Some (PyList (replicate 2 (Atom a))))
         \/ (exists l, two_shell_params !! key = Some (PyList l)
                       /\ length l = 2
                       /\ expanded_two_shell_params !! key = Some (PyList l)))
      /\ (forall other, ~ In other ["U"; "J"] ->
            expanded_two_shell_params !! other = two_shell_params !! other)).
Proof.
  assert (E : extract_keys ["U"; "J"] 2 two_shell_params
              = Ok expanded_two_shell_params) by (vm_compute; reflexivity).
  split; [exact E|].
  exact (extract_keys_expands_every_key ["U"; "J"] 2 two_shell_params
           expanded_two_shell_params E).
Defined.

Lemma extract_keys_idempotent_witness :
  extract_keys ["U"; "J"] 2 two_shell_params = Ok expanded_two_shell_params
  /\ extract_keys ["U"; "J"] 2 expanded_two_shell_params
     = Ok expanded_two_shell_params.
Proof.
  assert (E : extract_keys ["U"; "J"] 2 two_shell_params
              = Ok expanded_two_shell_params) by (vm_compute; reflexivity).
  split; [exact E|].
  exact (extract_keys_idempotent ["U"; "J"] 2 two_shell_params
           expanded_two_shell_params E).
Defined.

Lemma map_imp_solver_witness :
  map_imp_solver 3 two_solvers = Ok [1; 0; 1]
  /\ exists types,
       solver_type_per_imp 3 two_solvers [1; 0; 1] = Ok types
       /\ length types = 3.
Proof.
  assert (E : map_imp_solver 3 two_solvers = Ok [1; 0; 1])
    by (vm_compute; reflexivity).
  split; [exact E|].
  destruct (map_imp_solver_serves_each_impurity 3 two_solvers [1; 0; 1]
              eq_refl E) as (_ & types & Htypes & Hlen & _).
  exists types. split; [exact Htypes | exact Hlen].
Defined.

Lemma double_listing_is_no_permutation :
  ~ Permutation [0%Z; 0%Z] (range 2).
Proof.
  intros Hp.
  assert (Hin : In 1%Z [0%Z; 0%Z]).
  { apply (Permutation_in _ (Permutation_sym Hp)). right. now left. }
  destruct Hin as [Hin|[Hin|[]]]; discriminate.
Qed.

Lemma map_imp_solver_listing_witness :
  returns (map_imp_solver 3 two_solvers)
  /\ map_imp_solver 2 double_listing = Raise ValueError.
Proof.
  split.
  - apply (proj1 (map_imp_solver_checks_the_listing 3 two_solvers
                    [1%Z; 2%Z; 0%Z] eq_refl eq_refl)).
    change (range 3) with [0%Z; 1%Z; 2%Z].
    apply Permutation_sym.
    apply (Permutation_cons_app [1%Z; 2%Z] [] 0%Z). reflexivity.
  - apply (proj2 (map_imp_solver_checks_the_listing 2 double_listing
                    [0%Z; 0%Z] eq_refl eq_refl)).
    exact double_listing_is_no_permutation.
Defined.

Lemma shell_multiplicity_witness :
  shell_multiplicity [0; 1; 0; 1; 1] 2 = [2; 3]
  /\ list_sum (shell_multiplicity [0; 1; 0; 1; 1] 2) = 5.
Proof.
  split; [reflexivity|].
  apply (shell_multiplicity_counts_every_shell [0; 1; 0; 1; 1] 2).
  repeat constructor.
Defined.

Lemma chi_setup_witness :
  map_imp_solver 3 two_solvers = Ok [1; 0; 1]
  /\ exists ops,
       _chi_setup spin_operator density_operator 3 [3; 3; 3] two_solvers
         [1; 0; 1] = Ok ops
       /\ length ops = 3.
Proof.
  assert (E : map_imp_solver 3 two_solvers = Ok [1; 0; 1])
    by (vm_compute; reflexivity).
  split; [exact E|].
  destruct (chi_setup_on_the_solver_map spin_operator density_operator
              3 [3; 3; 3] two_solvers [1; 0; 1] E (le_n 3))
    as (ops & Hops & Hlen & _).
  exists ops. split; [exact Hops | exact Hlen].
Defined.



Lemma refuses_manual_selection_witness :
  any_not_none (pick_solver_struct manual_selection) = true
  /\ _determine_block_structure analyse_one_group map_nothing (one_shell 0)
       magnetic_run manual_selection ["cthyb"] tt
     = Raise UnboundLocalError.
Proof.
  split; [reflexivity|].
  apply (proj2 (determine_block_structure_refuses_manual_selection
                  analyse_one_group map_nothing (one_shell 0) magnetic_run
                  manual_selection ["cthyb"] tt eq_refl)).
  intros [Hin|[]]. discriminate.
Defined.

Lemma ftps_degeneracies_witness :
  exists sum_k',
    _determine_block_structure analyse_two_sites map_nothing two_shells
      paramagnetic_run no_manual_struct_two ["ftps"; "cthyb"] tt
    = Ok (sum_k', Some [Some (Some [["up_0"; "up_1"]]); None])
    /\ exists l,
         Some [Some (Some [["up_0"; "up_1"]]); None] = Some l
         /\ length l = 2.
Proof.
  assert (E : exists sum_k',
    _determine_block_structure analyse_two_sites map_nothing two_shells
      paramagnetic_run no_manual_struct_two ["ftps"; "cthyb"] tt
    = Ok (sum_k', Some [Some (Some [["up_0"; "up_1"]]); None]))
    by (eexists; vm_compute; reflexivity).
  destruct E as (sum_k' & E). exists sum_k'. split; [exact E|].
  destruct (proj2 (determine_block_structure_ftps_degeneracies
                     analyse_two_sites map_nothing two_shells
                     paramagnetic_run no_manual_struct_two
                     ["ftps"; "cthyb"] tt sum_k' _ E))
    as (l & Hl & Hlen & _); [now left|].
  exists l. split; [exact Hl | exact Hlen].
Defined.

Lemma no_single_label_witness :
  exists sum_k' ftps,
    _determine_block_structure analyse_one_group map_nothing (one_shell 0)
      magnetic_run no_manual_struct ["cthyb"] tt = Ok (sum_k', ftps)
    /\ SO sum_k' = 0
    /\ forall site, In site (deg_shells (block_structure sum_k')) ->
         exists groups, site = Some groups /\
           forall g, In g groups -> 1 < length g.
Proof.
  assert (E : exists sum_k' ftps,
    _determine_block_structure analyse_one_group map_nothing (one_shell 0)
      magnetic_run no_manual_struct ["cthyb"] tt = Ok (sum_k', ftps))
    by (eexists; eexists; vm_compute; reflexivity).
  destruct E as (sum_k' & ftps & E). exists sum_k', ftps.
  split; [exact E|].
  destruct (determine_block_structure_no_single_label analyse_one_group
              map_nothing (one_shell 0) magnetic_run no_manual_struct
              ["cthyb"] tt sum_k' ftps eq_refl eq_refl E)
    as (Hso & _ & Hgroups).
  split; [exact Hso | exact Hgroups].
Defined.
End DmftCycleRuns.

Section DoubleCountingRuns.
Import InitialSelfEnergies PotentialFacts ShiftFacts.

Lemma fixed_value_witness :
  exists (h : store Q) (s : @SumkDFT Q unit),
    double_counting one_orbital half_filled_store half_filled fll
      fixed_value ["cthyb"] = Ok (h, s)
    /\ exists blocks,
         dc_imp s !! 0 = Some blocks
         /\ forall sp, In sp ["up"; "down"] ->
              dict_find blocks sp
              = Some (times (identity 1) 2%Q).
Proof.
  assert (E : exists (h : store Q) (s : @SumkDFT Q unit),
    double_counting one_orbital half_filled_store half_filled fll
      fixed_value ["cthyb"] = Ok (h, s))
    by (eexists; eexists; vm_compute; reflexivity).
  destruct E as (h & s & E). exists h, s. split; [exact E|].
  destruct (proj1 (fixed_value_sets_every_potential unit_density potential_U
                     energy_7 no_crpa half_filled_store one_orbital
                     half_filled fll tt fixed_value ["cthyb"] h s 2%Q
                     eq_refl E)
              0 0 "cthyb" {| dim := 1; shell_SO := 0 |}
              (le_n 1) eq_refl eq_refl eq_refl (le_n 1))
    as (blocks & Hb & Hsp).
  exists blocks. split; [exact Hb|].
  intros sp Hin. exact (Hsp sp Hin).
Defined.

Lemma hartree_zero_potential_witness :
  exists (h : store Q) (s : @SumkDFT Q unit),
    double_counting one_orbital half_filled_store half_filled fll plain
      ["hartree"] = Ok (h, s)
    /\ exists blocks,
         dc_imp s !! 0 = Some blocks
         /\ forall sp, In sp ["up"; "down"] ->
              dict_find blocks sp = Some (times (identity 1) 0%Q).
Proof.
  assert (E : exists (h : store Q) (s : @SumkDFT Q unit),
    double_counting one_orbital half_filled_store half_filled fll plain
      ["hartree"] = Ok (h, s))
    by (eexists; eexists; vm_compute; reflexivity).
  destruct E as (h & s & E). exists h, s. split; [exact E|].
  assert (Hcrpa : forall icrsh v,
            dc_type fll !! icrsh = Some (DcStr v) -> is_crpa v = false).
  { intros [|icrsh] v Hv; simpl in Hv; discriminate. }
  destruct (hartree_impurity_has_zero_potential unit_density potential_U
              energy_7 no_crpa half_filled_store one_orbital half_filled
              fll tt plain ["hartree"] h s eq_refl eq_refl Hcrpa E
              0 0 {| dim := 1; shell_SO := 0 |}
              (le_n 1) eq_refl eq_refl eq_refl (le_n 1))
    as (blocks & Hb & Hsp).
  exists blocks. split; [exact Hb|].
  intros sp Hin. exact (Hsp sp Hin).
Defined.

Lemma half_filled_not_shared : NoDup (concat (map values half_filled)).
Proof.
  simpl. apply NoDup_cons. split; [|apply NoDup_singleton].
  intros Hin. apply list_elem_of_In in Hin. destruct Hin as [Hin|[]].
  discriminate.
Qed.

Lemma fix_occupations_witness :
  exists h' : store Q,
    fix_occupations one_orbital fixed_occupation half_filled [0]
      half_filled_store = Ok h'
    /\ exists shell : corr_shell,
         corr_shells one_orbital !! 0 = Some shell
         /\ load h' 0
            = fill_diagonal (load half_filled_store 0)
                (sdiv 3%Q (sof_nat (dim shell * 2))).
Proof.
  assert (E : exists h' : store Q,
    fix_occupations one_orbital fixed_occupation half_filled [0]
      half_filled_store = Ok h')
    by (eexists; vm_compute; reflexivity).
  destruct E as (h' & E). exists h'. split; [exact E|].
  exact (proj1 (fix_occupations_fills_the_diagonals one_orbital
                  fixed_occupation half_filled [0] half_filled_store h'
                  half_filled_not_shared E 0
                  [("up_0", 0); ("down_0", 1)] 0 eq_refl
                  (or_introl eq_refl))
           (or_introl eq_refl) 3%Q eq_refl).
Defined.

Lemma split_shifts_witness :
  split_shifts [1; 2] [1%Q; 2%Q; 3%Q] = [[1%Q]; [2%Q; 3%Q]]
  /\ concat (split_shifts [1; 2] [1%Q; 2%Q; 3%Q]) = [1%Q; 2%Q; 3%Q]
  /\ split_shifts [1; 2] ([1%Q; 2%Q; 3%Q] ++ [4%Q])
     = split_shifts [1; 2] [1%Q; 2%Q; 3%Q].
Proof.
  split; [reflexivity|].
  destruct (split_shifts_slices [1; 2] [1%Q; 2%Q; 3%Q])
    as (_ & _ & Hpart & Hsurplus).
  split.
  - exact (proj1 (Hpart eq_refl)).
  - apply Hsurplus. simpl. lia.
Defined.

Lemma orbital_shift_witness :
  exists s : @SumkDFT Q unit,
    orbital_shift_dc [1%Q] one_orbital = Ok s
    /\ dc_energ s = dc_energ one_orbital
    /\ length (dc_imp s) = 1.
Proof.
  assert (E : exists s : @SumkDFT Q unit,
    orbital_shift_dc [1%Q] one_orbital = Ok s)
    by (eexists; vm_compute; reflexivity).
  destruct E as (s & E). exists s. split; [exact E|].
  destruct (orbital_shift_adds_the_slice [1%Q] one_orbital s E)
    as (Hen & Hlen & _).
  split; [exact Hen | exact Hlen].
Defined.
End DoubleCountingRuns.

Section LoadedSigmaRuns.
Import InitialSelfEnergies LoadedSigmaMoreFacts.

Lemma refuses_other_block_structure_witness :
  set_loaded loaded_sigma loaded_dc_two_shells = Raise ValueError
  /\ set_loaded loaded_sigma loaded_dc_spin_orbit = Raise ValueError.
Proof.
  split.
  - apply (proj1 (set_loaded_sigma_refuses_other_block_structure
                    no_rotation put_Sigma_one_orbital no_dc_rotation
                    one_orbital loaded_sigma loaded_dc_two_shells)).
    simpl. lia.
  - apply (proj1 (proj2 (set_loaded_sigma_refuses_other_block_structure
                           no_rotation put_Sigma_one_orbital no_dc_rotation
                           one_orbital loaded_sigma loaded_dc_spin_orbit))
             0 [("ud", [[1%Q]])]
             [("up", [[1%Q]]); ("down", [[1%Q]])] eq_refl eq_refl).
    vm_compute. discriminate.
Defined.

Lemma solver_struct_entries_witness :
  exists out : list (@BlockGf Q),
    _sumk_sigma_to_solver_struct no_rotation one_orbital lattice_sigma
    = Ok out
    /\ length out = 1.
Proof.
  assert (E : exists out : list (@BlockGf Q),
    _sumk_sigma_to_solver_struct no_rotation one_orbital lattice_sigma
    = Ok out) by (eexists; vm_compute; reflexivity).
  destruct E as (out & E). exists out. split; [exact E|].
  exact (proj1 (sumk_sigma_to_solver_struct_entries no_rotation
                  one_orbital lattice_sigma out eq_refl E)).
Defined.
End LoadedSigmaRuns.

End MoreRuns.
